(** * Duoram-style two-party read/write service

    A shallow embedding of the Python programs under [duoram_py]:
    the wire codec shared by all three programs, the party service
    ([party_client.py]), the correlated-randomness dealer
    ([share_server.py]), the client coordinator ([coordinator.py]) and
    the string client ([user_facing_api.py]).

    Python integers are unbounded, so every arithmetic operation is
    modelled on [Z] without reduction; the only place where the 64-bit
    width enters is [struct.pack("!q", _)], which raises [struct.error]
    outside the signed 64-bit range.

    Socket I/O is modelled by a state-and-exception monad over a
    [world]: each connection delivers a finite byte stream followed by
    end of stream, every socket call is recorded in a log, and a fault
    oracle lets the environment fail any [connect], [sendall],
    [recv] or [shutdown]. *)

From Stdlib Require Import ZArith List Lia Bool String.
From Stdlib Require Import Strings.Byte.
From stdpp Require Import base list gmap.
Import ListNotations.
Local Open Scope Z_scope.

(* ================================================================== *)
(** * Part I: the model *)
(* ================================================================== *)

(** ** Exceptions and results *)

Inductive exn : Type :=
| ConnectionError (msg : string)
| RuntimeError (msg : string)
| StructError
| IndexError
| TypeError
| SystemExit (msg : string)
| OSError.

(** [Block]: the call never returns (an [accept] with nobody connecting). *)
Inductive result (A : Type) : Type :=
| Ok (a : A)
| Raise (e : exn)
| Block.
Arguments Ok {A} a.
Arguments Raise {A} e.
Arguments Block {A}.

(** ** Bytes and big-endian integers ([struct] with the "!" prefix) *)

Definition byte_of_Z (z : Z) : byte :=
  match Byte.of_N (Z.to_N (z mod 256)) with
  | Some b => b
  | None => x00
  end.

Definition Z_of_byte (b : byte) : Z := Z.of_N (Byte.to_N b).

(** The [n] low-order base-256 digits of [z], most significant first. *)
Fixpoint be_bytes (n : nat) (z : Z) : list byte :=
  match n with
  | O => []
  | S m => byte_of_Z (z / 256 ^ Z.of_nat m) :: be_bytes m z
  end.

Definition be_value (bs : list byte) : Z :=
  fold_left (fun acc b => acc * 256 + Z_of_byte b) bs 0.

Definition i64_min : Z := - 2 ^ 63.
Definition i64_max : Z := 2 ^ 63 - 1.

Definition fits_i64 (x : Z) : bool := (i64_min <=? x) && (x <=? i64_max).

Definition i64 (x : Z) : Prop := i64_min <= x <= i64_max.

(** [struct.pack("!B", x)] *)
Definition struct_pack_B (x : Z) : result (list byte) :=
  if (0 <=? x) && (x <=? 255) then Ok (be_bytes 1 x) else Raise StructError.

(** [struct.pack("!I", x)] *)
Definition struct_pack_I (x : Z) : result (list byte) :=
  if (0 <=? x) && (x <=? 4294967295) then Ok (be_bytes 4 x) else Raise StructError.

(** [struct.pack("!q", x)]: two's complement, no wrap-around. *)
Definition struct_pack_q (x : Z) : result (list byte) :=
  if fits_i64 x then Ok (be_bytes 8 (x mod 2 ^ 64)) else Raise StructError.

(** [struct.unpack("!B", b)[0]], [struct.unpack("!I", b)[0]] *)
Definition struct_unpack_unsigned (bs : list byte) : Z := be_value bs.

(** [struct.unpack("!q", b)[0]] *)
Definition struct_unpack_q (bs : list byte) : Z :=
  let v := be_value bs in
  if v <? 2 ^ 63 then v else v - 2 ^ 64.

(** What [pack_i64], [pack_u32] and [pack_u8] put on the wire for a
    value in range. *)
Definition enc_i64 (x : Z) : list byte := be_bytes 8 (x mod 2 ^ 64).
Definition enc_u32 (x : Z) : list byte := be_bytes 4 x.
Definition enc_u8 (x : Z) : list byte := be_bytes 1 x.

Definition enc_vec (xs : list Z) : list byte := concat (map enc_i64 xs).

(** ** The world of one process *)

Definition sock := nat.

(** The two acceptors a party owns. *)
Inductive listener : Type := user_ls | res_ls.

Inductive event : Type :=
| EvAccept (l : listener) (s : sock)
| EvConnect (host : string) (port : Z) (s : sock)
| EvSend (s : sock) (bs : list byte)
| EvRecv (s : sock) (bs : list byte)
| EvShutdown (s : sock)
| EvClose (s : sock)
| EvWaiting (t : gmap Z (list sock))
| EvFault.

(** [A_share] is the party's RAM share, [waiting] the dealer's pairing
    table (the [defaultdict] of deques), [rng] the entropy the [random]
    module will consume.  [user_backlog] and [res_backlog] list, for the
    connections still to arrive at each listener, the bytes each one
    will deliver; [dials] does the same for the outgoing connections
    the process will open.  [inbox] maps an open connection to what it
    has still to deliver.  [fault n] tells whether the socket call
    issued when the log has length [n] fails. *)
Record world : Type := World {
  A_share : list Z;
  waiting : gmap Z (list sock);
  rng : list Z;
  next_sock : sock;
  inbox : gmap sock (list byte);
  user_backlog : list (list byte);
  res_backlog : list (list byte);
  dials : list (list byte);
  fault : nat -> bool;
  log : list event
}.

Definition backlog (w : world) (l : listener) : list (list byte) :=
  match l with
  | user_ls => user_backlog w
  | res_ls => res_backlog w
  end.

Definition set_A_share (m : list Z) (w : world) : world :=
  World m (waiting w) (rng w) (next_sock w) (inbox w) (user_backlog w) (res_backlog w)
        (dials w) (fault w) (log w).

(** Every update of the table is recorded, so that the log shows each
    state the table goes through. *)
Definition set_waiting (t : gmap Z (list sock)) (w : world) : world :=
  World (A_share w) t (rng w) (next_sock w) (inbox w) (user_backlog w) (res_backlog w)
        (dials w) (fault w) (log w ++ [EvWaiting t]).

Definition set_rng (r : list Z) (w : world) : world :=
  World (A_share w) (waiting w) r (next_sock w) (inbox w) (user_backlog w) (res_backlog w)
        (dials w) (fault w) (log w).

Definition set_inbox (s : sock) (bs : list byte) (w : world) : world :=
  World (A_share w) (waiting w) (rng w) (next_sock w) (<[s := bs]> (inbox w))
        (user_backlog w) (res_backlog w) (dials w) (fault w) (log w).

Definition log_event (ev : event) (w : world) : world :=
  World (A_share w) (waiting w) (rng w) (next_sock w) (inbox w) (user_backlog w)
        (res_backlog w) (dials w) (fault w) (log w ++ [ev]).

(** A new connection delivering [bs]; [q] is what remains of the queue
    it was taken from. *)
Definition open_sock (l : option listener) (bs : list byte) (q : list (list byte))
    (ev : event) (w : world) : world :=
  World (A_share w) (waiting w) (rng w) (S (next_sock w)) (<[next_sock w := bs]> (inbox w))
        (match l with Some user_ls => q | _ => user_backlog w end)
        (match l with Some res_ls => q | _ => res_backlog w end)
        (match l with None => q | _ => dials w end)
        (fault w) (log w ++ [ev]).

Definition faulty (w : world) : bool := fault w (length (log w)).

(** The environment fails no socket call. *)
Definition quiet (w : world) : Prop := forall n, fault w n = false.

(** All bytes sent on [s], in order. *)
Fixpoint sent (s : sock) (evs : list event) : list byte :=
  match evs with
  | [] => []
  | EvSend s' bs :: evs' => if Nat.eqb s' s then bs ++ sent s evs' else sent s evs'
  | _ :: evs' => sent s evs'
  end.

Definition is_close (s : sock) (ev : event) : bool :=
  match ev with
  | EvClose s' => Nat.eqb s' s
  | _ => false
  end.

Definition is_closed (s : sock) (evs : list event) : bool := existsb (is_close s) evs.

Definition is_send (ev : event) : bool :=
  match ev with
  | EvSend _ _ => true
  | _ => false
  end.

Definition is_recv (ev : event) : bool :=
  match ev with
  | EvRecv _ _ => true
  | _ => false
  end.

(** The send, and the receive, of the one-byte field [tag]. *)
Definition sends_tag (tag : Z) (ev : event) : bool :=
  match ev with
  | EvSend _ [b] => Z_of_byte b =? tag
  | _ => false
  end.

Definition recvs_tag (tag : Z) (ev : event) : bool :=
  match ev with
  | EvRecv _ [b] => Z_of_byte b =? tag
  | _ => false
  end.

(** The position of the first event satisfying [p]. *)
Fixpoint first_index (p : event -> bool) (evs : list event) : option nat :=
  match evs with
  | [] => None
  | ev :: evs' => if p ev then Some O else option_map S (first_index p evs')
  end.

(** Every event satisfying [p] comes before every event satisfying [q]. *)
Definition all_before (p q : event -> bool) (evs : list event) : Prop :=
  forall (i j : nat) (x y : event),
    evs !! i = Some x -> evs !! j = Some y -> p x = true -> q y = true -> (i < j)%nat.

(** ** The monad *)

Definition M (A : Type) : Type := world -> result A * world.

Definition ret {A : Type} (a : A) : M A := fun w => (Ok a, w).

Definition raise {A : Type} (e : exn) : M A := fun w => (Raise e, w).

Definition bind {A B : Type} (m : M A) (k : A -> M B) : M B :=
  fun w =>
    match m w with
    | (Ok a, w') => k a w'
    | (Raise e, w') => (Raise e, w')
    | (Block, w') => (Block, w')
    end.

Definition lift {A : Type} (r : result A) : M A := fun w => (r, w).

Declare Scope py_scope.
Delimit Scope py_scope with py.
Notation "x <- m ;; k" := (bind m (fun x => k))
  (at level 100, m at level 99, right associativity) : py_scope.
Notation "m ;; k" := (bind m (fun _ => k))
  (at level 100, right associativity) : py_scope.
Local Open Scope py_scope.

(** [try: body finally: fin] *)
Definition try_finally {A : Type} (body : M A) (fin : M unit) : M A :=
  fun w =>
    match body w with
    | (Ok a, w') => (fin ;; ret a) w'
    | (Raise e, w') => (fin ;; raise e) w'
    | (Block, w') => (Block, w')
    end.

(** [try: body except Exception: handler] *)
Definition try_except {A : Type} (body : M A) (handler : exn -> M A) : M A :=
  fun w =>
    match body w with
    | (Raise e, w') => handler e w'
    | r => r
    end.

(** [try: body except: pass] *)
Definition try_pass (body : M unit) : M unit := try_except body (fun _ => ret tt).

(** [for x in l: f x] *)
Fixpoint for_each {A : Type} (l : list A) (f : A -> M unit) : M unit :=
  match l with
  | [] => ret tt
  | x :: l' => f x ;; for_each l' f
  end.

(** [[f x for x in l]] *)
Fixpoint for_list {A B : Type} (l : list A) (f : A -> M B) : M (list B) :=
  match l with
  | [] => ret []
  | x :: l' => y <- f x ;; ys <- for_list l' f ;; ret (y :: ys)
  end.

(** [range(n)] *)
Definition range (n : Z) : list nat := seq 0 (Z.to_nat n).

(** [l[i]] for a non-negative index *)
Definition getitem (l : list Z) (i : nat) : M Z :=
  match l !! i with
  | Some x => ret x
  | None => raise IndexError
  end.

(** [len(l)] *)
Definition len {A : Type} (l : list A) : Z := Z.of_nat (length l).

(** [sum(l)] *)
Definition sum (l : list Z) : Z := fold_left Z.add l 0.

(** ** Socket calls *)

Definition accept (l : listener) : M sock :=
  fun w =>
    match backlog w l with
    | [] => (Block, w)
    | bs :: q => (Ok (next_sock w), open_sock (Some l) bs q (EvAccept l (next_sock w)) w)
    end.

Definition connect (host : string) (port : Z) : M sock :=
  fun w =>
    if faulty w then (Raise OSError, log_event EvFault w)
    else match dials w with
         | [] => (Raise OSError, log_event EvFault w)
         | bs :: q =>
             (Ok (next_sock w), open_sock None bs q (EvConnect host port (next_sock w)) w)
         end.

Definition sendall (s : sock) (bs : list byte) : M unit :=
  fun w =>
    if faulty w then (Raise OSError, log_event EvFault w)
    else (Ok tt, log_event (EvSend s bs) w).

Definition shutdown (s : sock) : M unit :=
  fun w =>
    if faulty w then (Raise OSError, log_event EvFault w)
    else (Ok tt, log_event (EvShutdown s) w).

Definition close (s : sock) : M unit :=
  fun w => (Ok tt, log_event (EvClose s) w).

(** [recv_exact(sock, n)]: the loop over [sock.recv] collects exactly
    [n] bytes or raises at end of stream. *)
Definition recv_exact (s : sock) (n : nat) : M (list byte) :=
  fun w =>
    match n with
    | O => (Ok [], w)
    | _ =>
        if faulty w then (Raise OSError, log_event EvFault w)
        else
          let avail := default [] (inbox w !! s) in
          if (length avail <? n)%nat
          then (Raise (ConnectionError "eof"),
                log_event (EvRecv s avail) (set_inbox s [] w))
          else (Ok (take n avail),
                log_event (EvRecv s (take n avail)) (set_inbox s (drop n avail) w))
    end.

(** ** The [random] module *)

Definition draw : M Z :=
  fun w =>
    match rng w with
    | [] => (Ok 0, w)
    | r :: t => (Ok r, set_rng t w)
    end.

(** [random.randint(lo, hi)] *)
Definition randint (lo hi : Z) : M Z :=
  r <- draw ;; ret (lo + r mod (hi - lo + 1)).

(** [random.getrandbits(k)] *)
Definition getrandbits (k : Z) : M Z :=
  r <- draw ;; ret (r mod 2 ^ k).

(** The world a process starts in: [reqs] will arrive at [user_ls],
    [peers] at [res_ls], the outgoing connections will deliver
    [replies], and no socket call fails. *)
Definition initial_world (tape : list Z) (reqs peers replies : list (list byte)) : world :=
  World [] ∅ tape O ∅ reqs peers replies (fun _ => false) [].

(** The values the next [n] calls of [draw] return on [tape], and the
    vector [rand_vec] builds from them. *)
Fixpoint entropy (n : nat) (tape : list Z) : list Z :=
  match n with
  | O => []
  | S m =>
      match tape with
      | [] => 0 :: entropy m []
      | r :: tape' => r :: entropy m tape'
      end
  end.

Definition random_vec (n : nat) (tape : list Z) : list Z :=
  map (fun r => 1 + r mod 1024) (entropy n tape).

(** A computation that leaves the memory share as it found it,
    whatever the environment does. *)
Definition keeps_A_share {A : Type} (m : M A) : Prop :=
  forall w, A_share (snd (m w)) = A_share w.

(** A computation that leaves the length of the memory share as it
    found it, whatever the environment does. *)
Definition keeps_length {A : Type} (m : M A) : Prop :=
  forall w, length (A_share (snd (m w))) = length (A_share w).

(** A computation that always comes back, with a value or an exception. *)
Definition nonblocking {A : Type} (m : M A) : Prop :=
  forall w, fst (m w) <> Block.

(** A computation that leaves the component [g] of the world as it
    found it, whatever the environment does. *)
Definition frames {X A : Type} (g : world -> X) (m : M A) : Prop :=
  forall w, g (snd (m w)) = g w.

(** ** Wire helpers (the same text in all three programs) *)

(** [int(x)] on an integer *)
Definition int (x : Z) : Z := x.

Definition pack_u8 (x : Z) : M (list byte) := lift (struct_pack_B x).

Definition pack_u32 (x : Z) : M (list byte) :=
  lift (struct_pack_I (Z.land x 4294967295)).

Definition pack_i64 (x : Z) : M (list byte) := lift (struct_pack_q (int x)).

Definition read_u8 (s : sock) : M Z :=
  b <- recv_exact s 1 ;; ret (struct_unpack_unsigned b).

Definition read_u32 (s : sock) : M Z :=
  b <- recv_exact s 4 ;; ret (struct_unpack_unsigned b).

Definition read_i64 (s : sock) : M Z :=
  b <- recv_exact s 8 ;; ret (struct_unpack_q b).

(** [dot(a, b) = sum(x*y for x,y in zip(a,b))] (party and dealer) *)
Definition dot (a b : list Z) : Z := sum (zip_with Z.mul a b).

Definition OP_WRITE_VEC : Z := 64.    (* 0x40 *)
Definition OP_READ_SECURE : Z := 65.  (* 0x41 *)
Definition OP_REQUEST : Z := 49.      (* 0x31 *)
Definition OP_RESPONSE : Z := 51.     (* 0x33 *)

(** The two bytes of [b"OK"]. *)
Definition OK_bytes : list byte := [x4f; x4b].

(** ** Frames on the wire *)

(** A user request: [op | u32 dim | dim x i64]. *)
Definition request (op : Z) (vec : list Z) : list byte :=
  enc_u8 op ++ enc_u32 (len vec) ++ enc_vec vec.

(** The dealer's reply: [0x33 | u32 dim | i64 sid | a | b | i64 c]. *)
Definition share_frame (dim sid : Z) (a_i b_i : list Z) (c_i : Z) : list byte :=
  enc_u8 OP_RESPONSE ++ enc_u32 dim ++ enc_i64 sid ++ enc_vec a_i ++ enc_vec b_i
  ++ enc_i64 c_i.

(** ** party_client.py *)

Module Party.

Inductive role : Type := RoleA | RoleB.

Definition is_A (r : role) : bool := match r with RoleA => true | RoleB => false end.
Definition is_B (r : role) : bool := match r with RoleA => false | RoleB => true end.

Definition send_two_vecs (host : string) (port : Z) (sid tag : Z)
    (vec_u_part vec_v_part : list Z) : M unit :=
  s <- connect host port ;;
  b <- pack_i64 sid ;; sendall s b ;;
  b <- pack_u8 tag ;; sendall s b ;;
  b <- pack_u32 (len vec_u_part) ;; sendall s b ;;
  for_each vec_u_part (fun v => b <- pack_i64 v ;; sendall s b) ;;
  b <- pack_u32 (len vec_v_part) ;; sendall s b ;;
  for_each vec_v_part (fun v => b <- pack_i64 v ;; sendall s b) ;;
  close s.

Definition recv_two_vecs (acceptor : listener) (expect_sid expect_tag expect_dim : Z)
    : M (list Z * list Z) :=
  s <- accept acceptor ;;
  sid <- read_i64 s ;;
  tag <- read_u8 s ;;
  dim1 <- read_u32 s ;;
  if negb (sid =? expect_sid) || negb (tag =? expect_tag) || negb (dim1 =? expect_dim)
  then close s ;; raise (RuntimeError "peer residual header mismatch (u_part)")
  else
    u_part <- for_list (range dim1) (fun _ => read_i64 s) ;;
    dim2 <- read_u32 s ;;
    if negb (dim2 =? expect_dim)
    then close s ;; raise (RuntimeError "peer residual header mismatch (v_part)")
    else
      v_part <- for_list (range dim2) (fun _ => read_i64 s) ;;
      close s ;;
      ret (u_part, v_part).

(** The residuals of the two sides and the result, as list expressions. *)
Definition x_side_parts (x a_i b_i : list Z) : list Z * list Z :=
  (zip_with Z.sub x a_i, map Z.opp b_i).

Definition y_side_parts (y a_i b_i : list Z) : list Z * list Z :=
  (map Z.opp a_i, zip_with Z.sub y b_i).

Definition my_parts (i_am_X_side : bool) (my_input a_i b_i : list Z) : list Z * list Z :=
  if i_am_X_side then x_side_parts my_input a_i b_i else y_side_parts my_input a_i b_i.

Definition cross_result (r : role) (me pe : list Z * list Z) (a_i b_i : list Z) (c_i : Z) : Z :=
  let u := zip_with Z.add (fst me) (fst pe) in
  let v := zip_with Z.add (snd me) (snd pe) in
  match r with
  | RoleA => dot u b_i + dot a_i v + c_i
  | RoleB => dot u b_i + dot a_i v + dot u v + c_i
  end.

(** The bytes of one residual frame, and the socket calls that send and
    receive it on connection [s]. *)
Definition residual_frame (sid tag : Z) (u v : list Z) : list byte :=
  enc_i64 sid ++ enc_u8 tag ++ enc_u32 (len u) ++ enc_vec u ++ enc_u32 (len v) ++ enc_vec v.

Definition ev_send_two_vecs (host : string) (port : Z) (s : sock) (sid tag : Z)
    (u v : list Z) : list event :=
  [EvConnect host port s; EvSend s (enc_i64 sid); EvSend s (enc_u8 tag);
   EvSend s (enc_u32 (len u))]
  ++ map (fun x => EvSend s (enc_i64 x)) u
  ++ [EvSend s (enc_u32 (len v))]
  ++ map (fun x => EvSend s (enc_i64 x)) v
  ++ [EvClose s].

Definition ev_recv_two_vecs (acceptor : listener) (s : sock) (sid tag : Z)
    (u v : list Z) : list event :=
  [EvAccept acceptor s; EvRecv s (enc_i64 sid); EvRecv s (enc_u8 tag);
   EvRecv s (enc_u32 (len u))]
  ++ map (fun x => EvRecv s (enc_i64 x)) u
  ++ [EvRecv s (enc_u32 (len v))]
  ++ map (fun x => EvRecv s (enc_i64 x)) v
  ++ [EvClose s].

(** The Du-Atallah cross-term.  The branch on [i_am_X_side] fixes both
    the residuals and the order of the exchange. *)
Definition dta_cross (r : role) (io_acceptor : listener) (peer_host : string)
    (peer_port : Z) (sid tag : Z) (i_am_X_side : bool)
    (my_input a_i b_i : list Z) (c_i : Z) : M Z :=
  let dim := len my_input in
  parts <-
    (if i_am_X_side then
       u_part_me <- for_list (range dim)
                      (fun i => x <- getitem my_input i ;; a <- getitem a_i i ;; ret (x - a)) ;;
       v_part_me <- for_list (range dim) (fun i => b <- getitem b_i i ;; ret (- b)) ;;
       send_two_vecs peer_host peer_port sid tag u_part_me v_part_me ;;
       pe <- recv_two_vecs io_acceptor sid tag dim ;;
       ret (u_part_me, v_part_me, pe)
     else
       u_part_me <- for_list (range dim) (fun i => a <- getitem a_i i ;; ret (- a)) ;;
       v_part_me <- for_list (range dim)
                      (fun i => y <- getitem my_input i ;; b <- getitem b_i i ;; ret (y - b)) ;;
       pe <- recv_two_vecs io_acceptor sid tag dim ;;
       send_two_vecs peer_host peer_port sid tag u_part_me v_part_me ;;
       ret (u_part_me, v_part_me, pe)) ;;
  let u_part_me := fst (fst parts) in
  let v_part_me := snd (fst parts) in
  let u_part_pe := fst (snd parts) in
  let v_part_pe := snd (snd parts) in
  u <- for_list (range dim)
         (fun i => p <- getitem u_part_me i ;; q <- getitem u_part_pe i ;; ret (p + q)) ;;
  v <- for_list (range dim)
         (fun i => p <- getitem v_part_me i ;; q <- getitem v_part_pe i ;; ret (p + q)) ;;
  match r with
  | RoleA => ret (dot u b_i + dot a_i v + c_i)
  | RoleB => ret (dot u b_i + dot a_i v + dot u v + c_i)
  end.

Definition fetch_share (share_host : string) (share_port : Z) (dim : Z)
    : M (Z * list Z * list Z * Z) :=
  s <- connect share_host share_port ;;
  b <- pack_u8 OP_REQUEST ;; sendall s b ;;
  b <- pack_u32 dim ;; sendall s b ;;
  op <- read_u8 s ;;
  if negb (op =? OP_RESPONSE) then raise (RuntimeError "share server: bad op")
  else
    rdim <- read_u32 s ;;
    if negb (rdim =? dim) then raise (RuntimeError "share server: dim mismatch")
    else
      sid <- read_i64 s ;;
      a_i <- for_list (range dim) (fun _ => read_i64 s) ;;
      b_i <- for_list (range dim) (fun _ => read_i64 s) ;;
      c_i <- read_i64 s ;;
      close s ;;
      ret (sid, a_i, b_i, c_i).

(** The socket calls of a successful [fetch_share] on connection [s]. *)
Definition ev_fetch_share (host : string) (port : Z) (s : sock) (dim sid : Z)
    (a_i b_i : list Z) (c_i : Z) : list event :=
  [EvConnect host port s; EvSend s (enc_u8 OP_REQUEST); EvSend s (enc_u32 dim);
   EvRecv s (enc_u8 OP_RESPONSE); EvRecv s (enc_u32 dim); EvRecv s (enc_i64 sid)]
  ++ map (fun x => EvRecv s (enc_i64 x)) a_i
  ++ map (fun x => EvRecv s (enc_i64 x)) b_i
  ++ [EvRecv s (enc_i64 c_i); EvClose s].

(** The socket calls of one successful cross-term whose first new
    connection is [n]. *)
Definition ev_dta_cross (host : string) (port : Z) (n : sock) (sid tag : Z)
    (i_am_X_side : bool) (me pe : list Z * list Z) : list event :=
  if i_am_X_side
  then ev_send_two_vecs host port n sid tag (fst me) (snd me)
       ++ ev_recv_two_vecs res_ls (S n) sid tag (fst pe) (snd pe)
  else ev_recv_two_vecs res_ls n sid tag (fst pe) (snd pe)
       ++ ev_send_two_vecs host port (S n) sid tag (fst me) (snd me).

(** The arguments of [serve]. *)
Record config : Type := Config {
  cfg_role : role;
  rows : Z;
  peer_host : string;
  peer_port : Z;
  share_host : string;
  share_port : Z
}.

(** A reference to the list [A_share]. *)
Definition get_A_share : M (list Z) := fun w => (Ok (A_share w), w).

(** [A_share[i] += d] *)
Definition A_share_iadd (i : nat) (d : Z) : M unit :=
  fun w =>
    match A_share w !! i with
    | Some x => (Ok tt, set_A_share (<[i := x + d]> (A_share w)) w)
    | None => (Raise IndexError, w)
    end.

(** The body of the [try] in the loop of [serve]. *)
Definition handle (cfg : config) (conn : sock) : M unit :=
  op <- read_u8 conn ;;
  if op =? OP_WRITE_VEC then
    dim <- read_u32 conn ;;
    if negb (dim =? rows cfg) then raise (RuntimeError "WRITE dim != rows")
    else
      vec <- for_list (range dim) (fun _ => read_i64 conn) ;;
      for_each (range (rows cfg)) (fun i => d <- getitem vec i ;; A_share_iadd i d) ;;
      sendall conn OK_bytes
  else if op =? OP_READ_SECURE then
    dim <- read_u32 conn ;;
    if negb (dim =? rows cfg) then raise (RuntimeError "READ dim != rows")
    else
      e_share <- for_list (range dim) (fun _ => read_i64 conn) ;;
      sh <- fetch_share (share_host cfg) (share_port cfg) dim ;;
      let sid := fst (fst (fst sh)) in
      let a_i := snd (fst (fst sh)) in
      let b_i := snd (fst sh) in
      let c_i := snd sh in
      mem <- get_A_share ;;
      z01 <- dta_cross (cfg_role cfg) res_ls (peer_host cfg) (peer_port cfg) sid 1
               (is_A (cfg_role cfg))
               (if is_A (cfg_role cfg) then mem else e_share) a_i b_i c_i ;;
      mem <- get_A_share ;;
      z10 <- dta_cross (cfg_role cfg) res_ls (peer_host cfg) (peer_port cfg) sid 16
               (is_B (cfg_role cfg))
               (if is_B (cfg_role cfg) then mem else e_share) a_i b_i c_i ;;
      mem <- get_A_share ;;
      let self_term := dot mem e_share in
      let my_share := self_term + z01 + z10 in
      b <- pack_i64 my_share ;; sendall conn b
  else ret tt.

(** [fuel] iterations of the [while True] loop; the loop itself never
    returns, so [Ok tt] means that the loop is still running after
    [fuel] connections. *)
Fixpoint serve_loop (fuel : nat) (cfg : config) : M unit :=
  match fuel with
  | O => ret tt
  | S n =>
      conn <- accept user_ls ;;
      try_finally (handle cfg conn) (close conn) ;;
      serve_loop n cfg
  end.

Definition serve (cfg : config) (fuel : nat) : M unit :=
  (fun w => (Ok tt, set_A_share (replicate (Z.to_nat (rows cfg)) 0) w)) ;;
  serve_loop fuel cfg.

(** Reading a request [op | dim | vec] from [conn]. *)
Definition ev_request (conn : sock) (op : Z) (vec : list Z) : list event :=
  [EvRecv conn (enc_u8 op); EvRecv conn (enc_u32 (len vec))]
  ++ map (fun x => EvRecv conn (enc_i64 x)) vec.

(** The residuals a party sends in the two exchanges of a READ, and the
    share it replies with, given the residuals [pe01] and [pe10] of its
    peer. *)
Definition parts01 (r : role) (mem e_share a_i b_i : list Z) : list Z * list Z :=
  my_parts (is_A r) (if is_A r then mem else e_share) a_i b_i.

Definition parts10 (r : role) (mem e_share a_i b_i : list Z) : list Z * list Z :=
  my_parts (is_B r) (if is_B r then mem else e_share) a_i b_i.

Definition read_value (r : role) (mem e_share a_i b_i : list Z) (c_i : Z)
    (pe01 pe10 : list Z * list Z) : Z :=
  dot mem e_share
  + cross_result r (parts01 r mem e_share a_i b_i) pe01 a_i b_i c_i
  + cross_result r (parts10 r mem e_share a_i b_i) pe10 a_i b_i c_i.

(** The socket calls of a READ on [conn] up to the reply, the next free
    connection being [n], and those of a successful READ. *)
Definition ev_read_exchanges (cfg : config) (conn n : sock) (mem e_share : list Z) (sid : Z)
    (a_i b_i : list Z) (c_i : Z) (pe01 pe10 : list Z * list Z) : list event :=
  ev_request conn OP_READ_SECURE e_share
  ++ ev_fetch_share (share_host cfg) (share_port cfg) n (rows cfg) sid a_i b_i c_i
  ++ ev_dta_cross (peer_host cfg) (peer_port cfg) (S n) sid 1 (is_A (cfg_role cfg))
       (parts01 (cfg_role cfg) mem e_share a_i b_i) pe01
  ++ ev_dta_cross (peer_host cfg) (peer_port cfg) (S (S (S n))) sid 16 (is_B (cfg_role cfg))
       (parts10 (cfg_role cfg) mem e_share a_i b_i) pe10.

Definition ev_read (cfg : config) (conn n : sock) (mem e_share : list Z) (sid : Z)
    (a_i b_i : list Z) (c_i : Z) (pe01 pe10 : list Z * list Z) : list event :=
  ev_read_exchanges cfg conn n mem e_share sid a_i b_i c_i pe01 pe10
  ++ [EvSend conn (enc_i64 (read_value (cfg_role cfg) mem e_share a_i b_i c_i pe01 pe10))].

(** The situation of a party that has accepted [conn] carrying a READ
    request for [e_share]: the dealer will answer with the share
    [(sid, a_i, b_i, c_i)], the peer will deliver the residuals [pe01]
    and [pe10], no socket call fails, and the party's own residuals fit
    the signed 64-bit range. *)
Definition read_setup (cfg : config) (conn : sock) (w : world) (e_share : list Z) (sid : Z)
    (a_i b_i : list Z) (c_i : Z) (pe01 pe10 : list Z * list Z) : Prop :=
  quiet w
  /\ len e_share = rows cfg /\ rows cfg < 2 ^ 32
  /\ length (A_share w) = length e_share /\ Forall i64 e_share
  /\ inbox w !! conn = Some (request OP_READ_SECURE e_share)
  /\ (exists d, dials w = share_frame (rows cfg) sid a_i b_i c_i :: [] :: [] :: d)
  /\ (exists rb, res_backlog w
                 = residual_frame sid 1 (fst pe01) (snd pe01)
                   :: residual_frame sid 16 (fst pe10) (snd pe10) :: rb)
  /\ i64 sid /\ length a_i = length e_share /\ length b_i = length e_share
  /\ Forall i64 a_i /\ Forall i64 b_i /\ i64 c_i
  /\ length (fst pe01) = length e_share /\ length (snd pe01) = length e_share
  /\ length (fst pe10) = length e_share /\ length (snd pe10) = length e_share
  /\ Forall i64 (fst pe01) /\ Forall i64 (snd pe01)
  /\ Forall i64 (fst pe10) /\ Forall i64 (snd pe10)
  /\ Forall i64 (fst (parts01 (cfg_role cfg) (A_share w) e_share a_i b_i))
  /\ Forall i64 (snd (parts01 (cfg_role cfg) (A_share w) e_share a_i b_i))
  /\ Forall i64 (fst (parts10 (cfg_role cfg) (A_share w) e_share a_i b_i))
  /\ Forall i64 (snd (parts10 (cfg_role cfg) (A_share w) e_share a_i b_i))
  /\ (conn < next_sock w)%nat.

(** A residual frame that does not match the expected [sid], [tag] and
    [dim]: a header in which one of the three differs, or a matching
    header and first vector followed by a second length other than
    [dim]. *)
Definition bad_residual (sid tag dim : Z) (bs : list byte) : Prop :=
  (exists sid' tag' dim1 rest,
      bs = enc_i64 sid' ++ enc_u8 tag' ++ enc_u32 dim1 ++ rest
      /\ i64 sid' /\ 0 <= tag' <= 255 /\ 0 <= dim1 < 2 ^ 32
      /\ (sid' <> sid \/ tag' <> tag \/ dim1 <> dim))
  \/ (exists u dim2 rest,
        bs = enc_i64 sid ++ enc_u8 tag ++ enc_u32 dim ++ enc_vec u ++ enc_u32 dim2 ++ rest
        /\ len u = dim /\ Forall i64 u /\ 0 <= dim2 < 2 ^ 32 /\ dim2 <> dim).

(** The situation of a party that has accepted [conn] carrying a READ
    request for [e_share], up to the residual exchange: the dealer will
    answer with the share [(sid, a_i, b_i, c_i)], no socket call fails,
    and the party's own residuals fit the signed 64-bit range. *)
Definition read_request_setup (cfg : config) (conn : sock) (w : world) (e_share : list Z)
    (sid : Z) (a_i b_i : list Z) (c_i : Z) : Prop :=
  quiet w
  /\ len e_share = rows cfg /\ rows cfg < 2 ^ 32
  /\ length (A_share w) = length e_share /\ Forall i64 e_share
  /\ inbox w !! conn = Some (request OP_READ_SECURE e_share)
  /\ (exists d, dials w = share_frame (rows cfg) sid a_i b_i c_i :: [] :: [] :: d)
  /\ i64 sid /\ length a_i = length e_share /\ length b_i = length e_share
  /\ Forall i64 a_i /\ Forall i64 b_i /\ i64 c_i
  /\ Forall i64 (fst (parts01 (cfg_role cfg) (A_share w) e_share a_i b_i))
  /\ Forall i64 (snd (parts01 (cfg_role cfg) (A_share w) e_share a_i b_i))
  /\ Forall i64 (fst (parts10 (cfg_role cfg) (A_share w) e_share a_i b_i))
  /\ Forall i64 (snd (parts10 (cfg_role cfg) (A_share w) e_share a_i b_i))
  /\ (conn < next_sock w)%nat.

(** The framing errors of a user connection: a WRITE or READ header
    with a dimension other than [rows], a header cut short, or a
    connection closed before the op byte. *)
Definition framing_error (cfg : config) (bs : list byte) : Prop :=
  (exists op dim' rest,
      bs = enc_u8 op ++ enc_u32 dim' ++ rest
      /\ (op = OP_WRITE_VEC \/ op = OP_READ_SECURE)
      /\ 0 <= dim' < 2 ^ 32 /\ dim' <> rows cfg)
  \/ (exists op short,
        bs = enc_u8 op ++ short
        /\ (op = OP_WRITE_VEC \/ op = OP_READ_SECURE) /\ (length short < 4)%nat)
  \/ bs = [].

(** The socket calls of a run of WRITE requests served one after the
    other, the first on connection [n], and the memory they leave. *)
Fixpoint ev_writes (n : sock) (vecs : list (list Z)) : list event :=
  match vecs with
  | [] => []
  | v :: vs =>
      [EvAccept user_ls n] ++ ev_request n OP_WRITE_VEC v
      ++ [EvSend n OK_bytes; EvClose n] ++ ev_writes (S n) vs
  end.

Definition mem_after (mem : list Z) (vecs : list (list Z)) : list Z :=
  fold_left (zip_with Z.add) vecs mem.

End Party.

(** ** share_server.py *)

Module Dealer.

Definition rand_elem : M Z := randint 1 1024.

Definition rand_vec (n : Z) : M (list Z) := for_list (range n) (fun _ => rand_elem).

Definition send_share (s : sock) (dim sid : Z) (a_i b_i : list Z) (c_i : Z) : M unit :=
  b <- pack_u8 OP_RESPONSE ;; sendall s b ;;
  b <- pack_u32 dim ;; sendall s b ;;
  b <- pack_i64 sid ;; sendall s b ;;
  for_each a_i (fun x => b <- pack_i64 x ;; sendall s b) ;;
  for_each b_i (fun x => b <- pack_i64 x ;; sendall s b) ;;
  b <- pack_i64 c_i ;; sendall s b.

(** Operations on the table [waiting]; [dq] in the source is a
    reference to the deque stored under [dim], so each deque operation
    updates the table in place. *)

(** [waiting[dim]] on a [defaultdict(deque)] *)
Definition waiting_getitem (dim : Z) : M (list sock) :=
  fun w =>
    match waiting w !! dim with
    | Some dq => (Ok dq, w)
    | None => (Ok [], set_waiting (<[dim := []]> (waiting w)) w)
    end.

(** The current content of the deque under [dim]. *)
Definition deque_of (dim : Z) : M (list sock) :=
  fun w => (Ok (default [] (waiting w !! dim)), w).

(** [dq.popleft()] *)
Definition popleft (dim : Z) : M sock :=
  fun w =>
    match waiting w !! dim with
    | Some (p :: dq) => (Ok p, set_waiting (<[dim := dq]> (waiting w)) w)
    | _ => (Raise IndexError, w)
    end.

(** [dq.append(conn)] *)
Definition append (dim : Z) (conn : sock) : M unit :=
  fun w =>
    (Ok tt, set_waiting (<[dim := default [] (waiting w !! dim) ++ [conn]]> (waiting w)) w).

(** [waiting.pop(dim, None)] *)
Definition waiting_pop (dim : Z) : M unit :=
  fun w => (Ok tt, set_waiting (delete dim (waiting w)) w).

(** The block under [with waiting_mu]: [Some peer] when the request is
    paired, [None] when it is left waiting (the [return]). *)
Definition pair_or_wait (dim : Z) (conn : sock) : M (option sock) :=
  dq <- waiting_getitem dim ;;
  match dq with
  | _ :: _ =>
      peer <- popleft dim ;;
      dq' <- deque_of dim ;;
      match dq' with
      | [] => waiting_pop dim
      | _ :: _ => ret tt
      end ;;
      ret (Some peer)
  | [] =>
      append dim conn ;;
      ret None
  end.

(** The two shares of a fresh triple and their session id. *)
Record triple : Type := Triple {
  t_sid : Z;
  t_a0 : list Z; t_b0 : list Z; t_c0 : Z;
  t_a1 : list Z; t_b1 : list Z; t_c1 : Z
}.

(** "generate correlated randomness" *)
Definition generate (dim : Z) : M triple :=
  a0 <- rand_vec dim ;;
  a1 <- rand_vec dim ;;
  b0 <- rand_vec dim ;;
  b1 <- rand_vec dim ;;
  let a := zip_with Z.add a0 a1 in
  let b := zip_with Z.add b0 b1 in
  let c := dot a b in
  c0 <- rand_elem ;;
  let c1 := c - c0 in
  sid <- getrandbits 63 ;;
  ret (Triple sid a0 b0 c0 a1 b1 c1).

Definition handle_one (conn : sock) : M unit :=
  try_except
    (op <- read_u8 conn ;;
     if negb (op =? OP_REQUEST) then close conn
     else
       dim <- read_u32 conn ;;
       if dim =? 0 then close conn
       else
         paired <- pair_or_wait dim conn ;;
         match paired with
         | None => ret tt
         | Some peer =>
             t <- generate dim ;;
             try_finally
               (send_share peer dim (t_sid t) (t_a0 t) (t_b0 t) (t_c0 t))
               (try_pass (shutdown peer) ;; close peer) ;;
             try_finally
               (send_share conn dim (t_sid t) (t_a1 t) (t_b1 t) (t_c1 t))
               (try_pass (shutdown conn) ;; close conn)
         end)
    (fun _ => try_pass (close conn)).

(** [main]: the accept loop.  Every accepted connection gets a daemon
    thread running [handle_one]; an exception in a thread would end that
    thread only.  The handlers are run to completion in the order of
    arrival; [fuel] bounds the number of connections considered. *)
Fixpoint main (fuel : nat) : M unit :=
  match fuel with
  | O => ret tt
  | S n =>
      c <- accept user_ls ;;
      try_pass (handle_one c) ;;
      main n
  end.

(** What [generate] returns on entropy [tape]. *)
Definition triple_of (dim : Z) (tape : list Z) : triple :=
  let n := Z.to_nat dim in
  let a0 := random_vec n tape in
  let a1 := random_vec n (drop n tape) in
  let b0 := random_vec n (drop n (drop n tape)) in
  let b1 := random_vec n (drop n (drop n (drop n tape))) in
  let tape4 := drop n (drop n (drop n (drop n tape))) in
  let c0 := 1 + hd 0 tape4 mod (1024 - 1 + 1) in
  Triple (hd 0 (drop 1 tape4) mod 2 ^ 63)
         a0 b0 c0 a1 b1
         (dot (zip_with Z.add a0 a1) (zip_with Z.add b0 b1) - c0).

(** The socket calls of a successful [send_share] on [s]. *)
Definition ev_send_share (s : sock) (dim sid : Z) (a_i b_i : list Z) (c_i : Z) : list event :=
  [EvSend s (enc_u8 OP_RESPONSE); EvSend s (enc_u32 dim); EvSend s (enc_i64 sid)]
  ++ map (fun x => EvSend s (enc_i64 x)) a_i
  ++ map (fun x => EvSend s (enc_i64 x)) b_i
  ++ [EvSend s (enc_i64 c_i)].

(** The handler threads enter the block under [waiting_mu] one at a
    time; nothing else touches the table.  The table therefore goes
    through the states of a sequence of such blocks, in the order in
    which the threads take the lock. *)
Definition critical_regions (arrivals : list (Z * sock)) : M unit :=
  for_each arrivals (fun ar => pair_or_wait (fst ar) (snd ar) ;; ret tt).

(** At most one connection waits under each dimension. *)
Definition at_most_one (t : gmap Z (list sock)) : Prop :=
  forall (dim : Z) (dq : list sock), t !! dim = Some dq -> (length dq <= 1)%nat.

(** The states of the table recorded in a log. *)
Definition snapshot_ok (ev : event) : Prop :=
  match ev with
  | EvWaiting t => at_most_one t
  | _ => True
  end.

(** The invariant of the dealer: the table and every state it went
    through hold at most one waiter per dimension. *)
Definition dealer_inv (w : world) : Prop :=
  at_most_one (waiting w) /\ Forall snapshot_ok (log w).

End Dealer.

(** ** coordinator.py *)

Module Coordinator.

Definition rand_vec (n : Z) : M (list Z) := for_list (range n) (fun _ => randint 1 1024).

(** [l[idx] = v], with Python's treatment of negative indices *)
Definition setitem (l : list Z) (idx v : Z) : M (list Z) :=
  let i := if idx <? 0 then idx + len l else idx in
  if (0 <=? i) && (i <? len l) then ret (<[Z.to_nat i := v]> l) else raise IndexError.

(** [for i in l: e = step i e] on a local [e] *)
Fixpoint for_fold {A S : Type} (l : list A) (step : A -> S -> M S) (s : S) : M S :=
  match l with
  | [] => ret s
  | x :: l' => s' <- step x s ;; for_fold l' step s'
  end.

Definition make_standard_basis_share (dim idx val : Z) : M (list Z * list Z) :=
  e <- setitem (replicate (Z.to_nat dim) 0) idx (int val) ;;
  f <- rand_vec dim ;;
  e <- for_fold (range dim)
         (fun i e => x <- getitem e i ;; y <- getitem f i ;; ret (<[i := x - y]> e)) e ;;
  ret (e, f).

(** What [make_standard_basis_share] returns on entropy [tape]. *)
Definition basis_share (dim idx val : Z) (tape : list Z) : list Z * list Z :=
  let f := random_vec (Z.to_nat dim) tape in
  (zip_with Z.sub (<[Z.to_nat idx := val]> (replicate (Z.to_nat dim) 0)) f, f).

(** The share pairs of a sequence of writes [(idx, val)], each on its
    own entropy. *)
Definition basis_shares (dim : Z) (writes : list (Z * Z)) (tapes : list (list Z))
    : list (list Z * list Z) :=
  zip_with (fun iv tape => basis_share dim (fst iv) (snd iv) tape) writes tapes.

Definition write_vec (hp : string * Z) (vec : list Z) : M unit :=
  s <- connect (fst hp) (snd hp) ;;
  b <- pack_u8 OP_WRITE_VEC ;; sendall s b ;;
  b <- pack_u32 (len vec) ;; sendall s b ;;
  for_each vec (fun v => b <- pack_i64 v ;; sendall s b) ;;
  recv_exact s 2 ;;
  close s.

Definition read_share (hp : string * Z) (vec : list Z) : M Z :=
  s <- connect (fst hp) (snd hp) ;;
  b <- pack_u8 OP_READ_SECURE ;; sendall s b ;;
  b <- pack_u32 (len vec) ;; sendall s b ;;
  for_each vec (fun v => b <- pack_i64 v ;; sendall s b) ;;
  share <- read_i64 s ;;
  close s ;;
  ret share.

(** The socket calls of a successful [write_vec] and [read_share] on
    connection [s]. *)
Definition ev_send_request (hp : string * Z) (s : sock) (op : Z) (vec : list Z) : list event :=
  [EvConnect (fst hp) (snd hp) s; EvSend s (enc_u8 op); EvSend s (enc_u32 (len vec))]
  ++ map (fun x => EvSend s (enc_i64 x)) vec.

Definition ev_write_vec (hp : string * Z) (s : sock) (vec : list Z) (ok : list byte)
    : list event :=
  ev_send_request hp s OP_WRITE_VEC vec ++ [EvRecv s ok; EvClose s].

Definition ev_read_share (hp : string * Z) (s : sock) (vec : list Z) (share : Z)
    : list event :=
  ev_send_request hp s OP_READ_SECURE vec ++ [EvRecv s (enc_i64 share); EvClose s].

Inductive op_choice : Type := op_write | op_read.

Record args : Type := Args {
  op : op_choice;
  dim : Z;
  idx : Z;
  val : Z;
  c0 : string * Z;
  c1 : string * Z
}.

(** [threading.Thread(target=body)], started and joined: an exception
    ends the thread and is not seen by the caller.  The two threads of
    [main] work on different connections; they are run one after the
    other. *)
Definition thread {A : Type} (body : M A) : M (option A) :=
  try_except (x <- body ;; ret (Some x)) (fun _ => ret None).

(** The value printed for a read is returned. *)
Definition main (a : args) : M (option Z) :=
  if idx a >=? dim a then raise (SystemExit "idx < dim required")
  else
    match op a with
    | op_write =>
        sh <- make_standard_basis_share (dim a) (idx a) (val a) ;;
        thread (write_vec (c0 a) (fst sh)) ;;
        thread (write_vec (c1 a) (snd sh)) ;;
        ret None
    | op_read =>
        sh <- make_standard_basis_share (dim a) (idx a) 1 ;;
        out0 <- thread (read_share (c0 a) (fst sh)) ;;
        out1 <- thread (read_share (c1 a) (snd sh)) ;;
        match out0, out1 with
        | Some x0, Some x1 => ret (Some (x0 + x1))
        | _, _ => raise TypeError
        end
    end.

End Coordinator.

(** ** user_facing_api.py *)

Module UserApi.

Definition STR_SIZE : Z := 10.

(** [make_standard_basis_share], [write_vec] and [read_share] have the
    same text as in coordinator.py; the definitions of [Coordinator]
    stand for them.  [val] is the string given on the command line, as
    the list of its code points ([ord] of each character). *)
Record args : Type := Args {
  op : Coordinator.op_choice;
  dim : Z;
  idx : Z;
  val : list Z;
  c0 : string * Z;
  c1 : string * Z
}.

(** One turn of the loop that reads the ten slots of a string: the
    shares of the unit vector at [STR_SIZE*idx + i], and the two threads
    [ri0] and [ri1].  [stored_vals[i]] starts as [[0, 0]]; a thread that
    ends with an exception leaves its 0 in place.  The threads of one
    party run under its lock; they are run here in the order in which
    they are started. *)
Definition read_slot (a : args) (i : nat) : M (Z * Z) :=
  sh <- Coordinator.make_standard_basis_share (dim a * STR_SIZE)
          (STR_SIZE * idx a + Z.of_nat i) 1 ;;
  o0 <- Coordinator.thread (Coordinator.read_share (c0 a) (fst sh)) ;;
  o1 <- Coordinator.thread (Coordinator.read_share (c1 a) (snd sh)) ;;
  ret (default 0 o0, default 0 o1).

Definition read_phase (a : args) : M (list (Z * Z)) :=
  for_list (range STR_SIZE) (read_slot a).

(** [for i in range(len(args.val)): if i >= STR_SIZE: break;
    vals_ascii[i] = ord(args.val[i])] *)
Fixpoint ascii_loop (l : list nat) (val vals_ascii : list Z) : M (list Z) :=
  match l with
  | [] => ret vals_ascii
  | i :: l' =>
      if Z.of_nat i >=? STR_SIZE then ret vals_ascii
      else
        c <- getitem val i ;;
        vals_ascii' <- Coordinator.setitem vals_ascii (Z.of_nat i) c ;;
        ascii_loop l' val vals_ascii'
  end.

(** The value of [--val]: the string given on the command line, or,
    when the option is left out, the default, which is the integer 0
    (a default that is not a string is not converted by [type=str]). *)
Inductive cli_val : Type :=
| val_default
| val_str (s : list Z).

(** [vals_ascii = [0]*STR_SIZE] and the loop that fills it.
    [len(args.val)] raises [TypeError] on the integer default. *)
Definition fill_vals_ascii (v : cli_val) : M (list Z) :=
  match v with
  | val_default => raise TypeError
  | val_str s => ascii_loop (range (len s)) s (replicate (Z.to_nat STR_SIZE) 0)
  end.

(** [stored_vals[i]] *)
Definition stored_getitem (stored : list (Z * Z)) (i : nat) : M (Z * Z) :=
  match stored !! i with
  | Some p => ret p
  | None => raise IndexError
  end.

(** The rest of the write branch: the difference between the new and
    the stored character goes, slot by slot, into the two vectors that
    are written. *)
Definition write_phase (a : args) (stored : list (Z * Z)) : M unit :=
  vals_ascii <- ascii_loop (range (len (val a))) (val a)
                  (replicate (Z.to_nat STR_SIZE) 0) ;;
  let zeros := replicate (Z.to_nat (dim a) * Z.to_nat STR_SIZE) 0 in
  es <- Coordinator.for_fold (range STR_SIZE)
          (fun i es =>
             v <- getitem vals_ascii i ;;
             st <- stored_getitem stored i ;;
             sh <- Coordinator.make_standard_basis_share (dim a * STR_SIZE)
                     (STR_SIZE * idx a + Z.of_nat i) (v - fst st - snd st) ;;
             ret (zip_with Z.add (fst es) (fst sh), zip_with Z.add (snd es) (snd sh)))
          (zeros, zeros) ;;
  Coordinator.thread (Coordinator.write_vec (c0 a) (fst es)) ;;
  Coordinator.thread (Coordinator.write_vec (c1 a) (snd es)) ;;
  ret tt.

(** [main] with [--op write]. *)
Definition main_write (a : args) : M unit :=
  if idx a >=? dim a then raise (SystemExit "idx < dim required")
  else
    stored <- read_phase a ;;
    write_phase a stored.

(** [main] with [--op read], up to the list [x] of the ten sums that is
    handed to [chr]; the conversion to a string and the printing are
    not part of the model. *)
Definition main_read_values (a : args) : M (list Z) :=
  if idx a >=? dim a then raise (SystemExit "idx < dim required")
  else
    stored <- read_phase a ;;
    ret (map (fun p => fst p + snd p) stored).

(** What a thread running [read_share] stores for a connection that
    delivers [bs]: the first eight bytes as a signed integer, or the
    initial 0 when fewer than eight arrive. *)
Definition reply_value (bs : list byte) : Z :=
  if (length bs <? 8)%nat then 0 else struct_unpack_q (take 8 bs).

(** The connections of the read phase, two per slot. *)
Definition slot_dials (rs : list (list byte * list byte)) : list (list byte) :=
  concat (map (fun r => [fst r; snd r]) rs).

Definition stored_of (rs : list (list byte * list byte)) : list (Z * Z) :=
  map (fun r => (reply_value (fst r), reply_value (snd r))) rs.

(** The vector of length [n] that holds [deltas] from position [base]
    on and 0 elsewhere. *)
Definition placed (n base : nat) (deltas : list Z) : list Z :=
  replicate base 0 ++ deltas ++ replicate (n - base - length deltas) 0.

(** The first ten code points of a string, padded with zeros. *)
Definition ascii_of (val : list Z) : list Z :=
  take 10 val ++ replicate (10 - length val) 0.

(** What is added to each slot: the new character minus the two stored
    shares. *)
Definition deltas_of (val : list Z) (stored : list (Z * Z)) : list Z :=
  zip_with (fun v st => v - fst st - snd st) (ascii_of val) stored.

End UserApi.

(** ** The quantity the specification talks about *)

(** The element of [m] at index [j] (0 outside the vector). *)
Definition at_index (m : list Z) (j : nat) : Z := default 0 (m !! j).




(** ** The four processes together *)

Module System.

(** A scenario: WRITE requests [(idx, val)] for dimension [sc_dim], each
    issued by a run of the coordinator on its own entropy, then a READ at
    [sc_j]; the triple shares the dealer hands to the two parties. *)
Record scenario : Type := Scenario {
  sc_dim : Z;
  sc_writes : list (Z * Z);
  sc_tapes : list (list Z);
  sc_j : Z;
  sc_tapeR : list Z;
  sc_sid : Z;
  sc_aA : list Z; sc_bA : list Z; sc_cA : Z;
  sc_aB : list Z; sc_bB : list Z; sc_cB : Z;
  sc_cfgA : Party.config;
  sc_cfgB : Party.config;
  sc_c0 : string * Z;
  sc_c1 : string * Z
}.


(** The share pairs [(e, f)] of the WRITE requests and of the READ. *)
Definition shares (sc : scenario) : list (list Z * list Z) :=
  Coordinator.basis_shares (sc_dim sc) (sc_writes sc) (sc_tapes sc).

Definition e_shares (sc : scenario) : list Z * list Z :=
  Coordinator.basis_share (sc_dim sc) (sc_j sc) 1 (sc_tapeR sc).

(** The memory shares of the two parties once the writes are served. *)
Definition memA (sc : scenario) : list Z :=
  Party.mem_after (replicate (Z.to_nat (sc_dim sc)) 0) (map fst (shares sc)).

Definition memB (sc : scenario) : list Z :=
  Party.mem_after (replicate (Z.to_nat (sc_dim sc)) 0) (map snd (shares sc)).

(** The residuals each party sends during the READ. *)
Definition partsA01 (sc : scenario) : list Z * list Z :=
  Party.parts01 Party.RoleA (memA sc) (fst (e_shares sc)) (sc_aA sc) (sc_bA sc).
Definition partsA10 (sc : scenario) : list Z * list Z :=
  Party.parts10 Party.RoleA (memA sc) (fst (e_shares sc)) (sc_aA sc) (sc_bA sc).
Definition partsB01 (sc : scenario) : list Z * list Z :=
  Party.parts01 Party.RoleB (memB sc) (snd (e_shares sc)) (sc_aB sc) (sc_bB sc).
Definition partsB10 (sc : scenario) : list Z * list Z :=
  Party.parts10 Party.RoleB (memB sc) (snd (e_shares sc)) (sc_aB sc) (sc_bB sc).



(** The worlds of the processes.  Each party finds at [user_ls] the
    requests of the coordinator, at [res_ls] the residual frames of its
    peer, and gets from the dealer its share of the triple. *)
Definition worldA (sc : scenario) : world :=
  initial_world []
    (map (request OP_WRITE_VEC) (map fst (shares sc))
     ++ [request OP_READ_SECURE (fst (e_shares sc))])
    [Party.residual_frame (sc_sid sc) 1 (fst (partsB01 sc)) (snd (partsB01 sc));
     Party.residual_frame (sc_sid sc) 16 (fst (partsB10 sc)) (snd (partsB10 sc))]
    [share_frame (sc_dim sc) (sc_sid sc) (sc_aA sc) (sc_bA sc) (sc_cA sc); []; []].

Definition worldB (sc : scenario) : world :=
  initial_world []
    (map (request OP_WRITE_VEC) (map snd (shares sc))
     ++ [request OP_READ_SECURE (snd (e_shares sc))])
    [Party.residual_frame (sc_sid sc) 1 (fst (partsA01 sc)) (snd (partsA01 sc));
     Party.residual_frame (sc_sid sc) 16 (fst (partsA10 sc)) (snd (partsA10 sc))]
    [share_frame (sc_dim sc) (sc_sid sc) (sc_aB sc) (sc_bB sc) (sc_cB sc); []; []].






(** Two instances: small values, and a stored value of [2^62] read with
    a triple whose [b] share is 1024. *)
Definition small_scenario : scenario :=
  Scenario 2 [(0, 7); (1, 5); (0, 3)] [[3; 4]; [5; 6]; [1; 2]] 0 [9; 8] 42
           [1; 2] [3; 4] 100 [5; 6] [7; 8] 56
           (Party.Config Party.RoleA 2 "B" 9801 "dealer" 9300)
           (Party.Config Party.RoleB 2 "A" 9701 "dealer" 9300)
           ("A"%string, 9700) ("B"%string, 9800).

Definition large_scenario : scenario :=
  Scenario 1 [(0, 2 ^ 62)] [[0]] 0 [0] 42
           [1] [1024] 1 [1] [1] 2049
           (Party.Config Party.RoleA 1 "B" 9801 "dealer" 9300)
           (Party.Config Party.RoleB 1 "A" 9701 "dealer" 9300)
           ("A"%string, 9700) ("B"%string, 9800).

End System.
(* ================================================================== *)
(** * Part II: properties *)
(* ================================================================== *)

(** ** The codec *)

Section Codec.

Lemma Z_of_byte_range (b : byte) : 0 <= Z_of_byte b < 256.
Proof.
  unfold Z_of_byte. pose proof (Byte.to_N_bounded b). lia.
Qed.

Lemma Z_of_byte_of_Z (z : Z) : Z_of_byte (byte_of_Z z) = z mod 256.
Proof.
  unfold Z_of_byte, byte_of_Z.
  pose proof (Z.mod_pos_bound z 256 ltac:(lia)) as Hr.
  destruct (Byte.of_N (Z.to_N (z mod 256))) as [b|] eqn:E.
  - apply Byte.to_of_N in E. rewrite E. lia.
  - apply Byte.of_N_None_iff in E. lia.
Qed.

Lemma length_be_bytes (n : nat) (z : Z) : length (be_bytes n z) = n.
Proof. induction n; simpl; congruence. Qed.

Lemma fold_be_bytes (n : nat) (z acc : Z) :
  fold_left (fun a b => a * 256 + Z_of_byte b) (be_bytes n z) acc
  = acc * 256 ^ Z.of_nat n + z mod 256 ^ Z.of_nat n.
Proof.
  revert acc. induction n as [|n IH]; intros acc.
  - simpl. rewrite Z.mod_1_r. lia.
  - cbn [be_bytes fold_left]. rewrite IH, Z_of_byte_of_Z.
    rewrite Nat2Z.inj_succ, Z.pow_succ_r by lia.
    assert (0 < 256 ^ Z.of_nat n) by (apply Z.pow_pos_nonneg; lia).
    rewrite (Z.mul_comm 256 (256 ^ Z.of_nat n)).
    rewrite (Z.rem_mul_r z (256 ^ Z.of_nat n) 256) by lia.
    lia.
Qed.

Lemma be_value_be_bytes (n : nat) (z : Z) :
  be_value (be_bytes n z) = z mod 256 ^ Z.of_nat n.
Proof. unfold be_value. rewrite fold_be_bytes. lia. Qed.

Lemma fits_i64_true (x : Z) : i64 x -> fits_i64 x = true.
Proof. unfold i64, fits_i64. intros H. apply andb_true_intro. split; lia. Qed.

Lemma fits_i64_false (x : Z) : ~ i64 x -> fits_i64 x = false.
Proof.
  unfold i64, fits_i64. intros H.
  destruct (Z.leb_spec i64_min x), (Z.leb_spec x i64_max); simpl; try reflexivity; lia.
Qed.

Lemma i64_bounds (x : Z) : i64 x <-> - 2 ^ 63 <= x < 2 ^ 63.
Proof. unfold i64, i64_min, i64_max. lia. Qed.

Lemma struct_pack_q_ok (x : Z) : i64 x -> struct_pack_q x = Ok (enc_i64 x).
Proof. intros H. unfold struct_pack_q. rewrite fits_i64_true; auto. Qed.

Lemma struct_pack_q_out_of_range (x : Z) : ~ i64 x -> struct_pack_q x = Raise StructError.
Proof. intros H. unfold struct_pack_q. rewrite fits_i64_false; auto. Qed.

Lemma struct_unpack_q_enc (x : Z) : i64 x -> struct_unpack_q (enc_i64 x) = x.
Proof.
  intros H%i64_bounds. unfold struct_unpack_q, enc_i64.
  rewrite be_value_be_bytes.
  change (256 ^ Z.of_nat 8) with (2 ^ 64).
  rewrite Z.mod_mod by lia.
  destruct (Z.ltb_spec (x mod 2 ^ 64) (2 ^ 63)) as [Hlt|Hge].
  - destruct (Z.neg_nonneg_cases x) as [Hn|Hp].
    + exfalso. replace (x mod 2 ^ 64) with (x + 2 ^ 64) in Hlt; [lia|].
      apply Z.mod_unique with (q := -1); lia.
    + apply Z.mod_small. lia.
  - destruct (Z.neg_nonneg_cases x) as [Hn|Hp].
    + replace (x mod 2 ^ 64) with (x + 2 ^ 64); [lia|].
      apply Z.mod_unique with (q := -1); lia.
    + exfalso. rewrite Z.mod_small in Hge; lia.
Qed.

Lemma struct_unpack_q_range (bs : list byte) : length bs = 8%nat -> i64 (struct_unpack_q bs).
Proof.
  intros Hl. apply i64_bounds. unfold struct_unpack_q.
  assert (Hb : forall l acc, 0 <= acc ->
            0 <= fold_left (fun a b => a * 256 + Z_of_byte b) l acc
              < (acc + 1) * 256 ^ Z.of_nat (length l)).
  { induction l as [|b l IH]; intros acc Hacc.
    - simpl. lia.
    - cbn [fold_left length]. pose proof (Z_of_byte_range b).
      specialize (IH (acc * 256 + Z_of_byte b) ltac:(lia)).
      rewrite Nat2Z.inj_succ, Z.pow_succ_r by lia.
      assert (0 < 256 ^ Z.of_nat (length l)) by (apply Z.pow_pos_nonneg; lia).
      nia. }
  specialize (Hb bs 0 ltac:(lia)). rewrite Hl in Hb.
  change (256 ^ Z.of_nat 8) with (2 ^ 64) in Hb.
  fold (be_value bs) in Hb.
  destruct (Z.ltb_spec (be_value bs) (2 ^ 63)); lia.
Qed.

Lemma unpack_enc_u32 (x : Z) : 0 <= x < 2 ^ 32 -> struct_unpack_unsigned (enc_u32 x) = x.
Proof.
  intros H. unfold struct_unpack_unsigned, enc_u32. rewrite be_value_be_bytes.
  change (256 ^ Z.of_nat 4) with (2 ^ 32). apply Z.mod_small. lia.
Qed.

Lemma unpack_enc_u8 (x : Z) : 0 <= x < 256 -> struct_unpack_unsigned (enc_u8 x) = x.
Proof.
  intros H. unfold struct_unpack_unsigned, enc_u8. rewrite be_value_be_bytes.
  change (256 ^ Z.of_nat 1) with 256. apply Z.mod_small. lia.
Qed.

Lemma struct_pack_I_mask (x : Z) :
  struct_pack_I (Z.land x 4294967295) = Ok (enc_u32 (x mod 2 ^ 32)).
Proof.
  change 4294967295 with (Z.ones 32) at 1. rewrite Z.land_ones by lia.
  unfold struct_pack_I.
  pose proof (Z.mod_pos_bound x (2 ^ 32) ltac:(lia)) as Hb.
  destruct (Z.leb_spec 0 (x mod 2 ^ 32)); [|lia].
  destruct (Z.leb_spec (x mod 2 ^ 32) 4294967295); [reflexivity|lia].
Qed.

Lemma struct_pack_B_ok (x : Z) : 0 <= x <= 255 -> struct_pack_B x = Ok (enc_u8 x).
Proof.
  intros H. unfold struct_pack_B.
  destruct (Z.leb_spec 0 x); [|lia]. destruct (Z.leb_spec x 255); [reflexivity|lia].
Qed.

End Codec.

(** ** Running the monad *)

Lemma bind_ok {A B : Type} (m : M A) (k : A -> M B) (w w' : world) (a : A) :
  m w = (Ok a, w') -> bind m k w = k a w'.
Proof. unfold bind. intros ->. reflexivity. Qed.

Lemma bind_raise {A B : Type} (m : M A) (k : A -> M B) (w w' : world) (e : exn) :
  m w = (Raise e, w') -> bind m k w = (Raise e, w').
Proof. unfold bind. intros ->. reflexivity. Qed.

Lemma bind_block {A B : Type} (m : M A) (k : A -> M B) (w w' : world) :
  m w = (Block, w') -> bind m k w = (Block, w').
Proof. unfold bind. intros ->. reflexivity. Qed.

Lemma bind_ret {A B : Type} (a : A) (k : A -> M B) (w : world) :
  bind (ret a) k w = k a w.
Proof. reflexivity. Qed.

Lemma bind_assoc {A B C : Type} (m : M A) (k : A -> M B) (h : B -> M C) (w : world) :
  bind (bind m k) h w = bind m (fun a => bind (k a) h) w.
Proof. unfold bind. destruct (m w) as [[a|e|] w']; reflexivity. Qed.

Lemma bind_get_A_share {B : Type} (k : list Z -> M B) (w : world) :
  bind Party.get_A_share k w = k (A_share w) w.
Proof. reflexivity. Qed.

Lemma sum_cons (x : Z) (l : list Z) : sum (x :: l) = x + sum l.
Proof.
  unfold sum. cbn [fold_left].
  assert (H : forall l a b, fold_left Z.add l (a + b) = a + fold_left Z.add l b).
  { clear. induction l as [|y l IH]; intros a b; cbn [fold_left]; [reflexivity|].
    rewrite <- IH. f_equal. lia. }
  rewrite (Z.add_comm 0 x). apply H.
Qed.

Lemma range_len {A : Type} (l : list A) : range (len l) = seq 0 (length l).
Proof. unfold range, len. now rewrite Nat2Z.id. Qed.

(** Socket calls in a world whose environment injects no fault. *)
Section Quiet.

Variable f : nat -> bool.
Hypothesis quiet : forall n, f n = false.

Variables (a : list Z) (t : gmap Z (list sock)) (r : list Z).

Lemma sendall_ok s bs n ib ub rb d lg :
  sendall s bs (World a t r n ib ub rb d f lg)
  = (Ok tt, World a t r n ib ub rb d f (lg ++ [EvSend s bs])).
Proof. unfold sendall, faulty. cbn. now rewrite quiet. Qed.

Lemma close_ok s n ib ub rb d lg :
  close s (World a t r n ib ub rb d f lg)
  = (Ok tt, World a t r n ib ub rb d f (lg ++ [EvClose s])).
Proof. reflexivity. Qed.

Lemma connect_ok host port bs n ib ub rb d lg :
  connect host port (World a t r n ib ub rb (bs :: d) f lg)
  = (Ok n, World a t r (S n) (<[n := bs]> ib) ub rb d f (lg ++ [EvConnect host port n])).
Proof. unfold connect, faulty. cbn. now rewrite quiet. Qed.

Lemma accept_user_ok bs n ib ub rb d lg :
  accept user_ls (World a t r n ib (bs :: ub) rb d f lg)
  = (Ok n, World a t r (S n) (<[n := bs]> ib) ub rb d f (lg ++ [EvAccept user_ls n])).
Proof. reflexivity. Qed.

Lemma accept_res_ok bs n ib ub rb d lg :
  accept res_ls (World a t r n ib ub (bs :: rb) d f lg)
  = (Ok n, World a t r (S n) (<[n := bs]> ib) ub rb d f (lg ++ [EvAccept res_ls n])).
Proof. reflexivity. Qed.

Lemma recv_exact_ok s k bs rest n ib ub rb d lg :
  ib !! s = Some (bs ++ rest) -> length bs = k -> k <> O ->
  recv_exact s k (World a t r n ib ub rb d f lg)
  = (Ok bs, World a t r n (<[s := rest]> ib) ub rb d f (lg ++ [EvRecv s bs])).
Proof.
  intros Hib Hl Hk. unfold recv_exact, faulty. destruct k as [|k]; [congruence|].
  cbn [fault log inbox]. rewrite quiet, Hib. cbn [from_option id].
  destruct (Nat.ltb_spec (length (bs ++ rest)) (S k)) as [Hlt|Hge].
  - rewrite length_app in Hlt. lia.
  - rewrite <- Hl. rewrite take_app_length, drop_app_length. reflexivity.
Qed.

Lemma recv_exact_eof s k bs n ib ub rb d lg :
  ib !! s = Some bs -> (length bs < k)%nat ->
  recv_exact s k (World a t r n ib ub rb d f lg)
  = (Raise (ConnectionError "eof"),
     World a t r n (<[s := []]> ib) ub rb d f (lg ++ [EvRecv s bs])).
Proof.
  intros Hib Hl. unfold recv_exact, faulty. destruct k as [|k]; [lia|].
  cbn [fault log inbox]. rewrite quiet, Hib. cbn [from_option id].
  destruct (Nat.ltb_spec (length bs) (S k)) as [Hlt|Hge]; [reflexivity|lia].
Qed.

Lemma read_i64_ok s x rest n ib ub rb d lg :
  ib !! s = Some (enc_i64 x ++ rest) -> i64 x ->
  read_i64 s (World a t r n ib ub rb d f lg)
  = (Ok x, World a t r n (<[s := rest]> ib) ub rb d f (lg ++ [EvRecv s (enc_i64 x)])).
Proof.
  intros Hib Hx. unfold read_i64.
  erewrite bind_ok by (eapply recv_exact_ok; [exact Hib|apply length_be_bytes|discriminate]).
  unfold ret. now rewrite struct_unpack_q_enc.
Qed.

Lemma read_u32_ok s x rest n ib ub rb d lg :
  ib !! s = Some (enc_u32 x ++ rest) -> 0 <= x < 2 ^ 32 ->
  read_u32 s (World a t r n ib ub rb d f lg)
  = (Ok x, World a t r n (<[s := rest]> ib) ub rb d f (lg ++ [EvRecv s (enc_u32 x)])).
Proof.
  intros Hib Hx. unfold read_u32.
  erewrite bind_ok by (eapply recv_exact_ok; [exact Hib|apply length_be_bytes|discriminate]).
  unfold ret. now rewrite unpack_enc_u32.
Qed.

Lemma read_u8_ok s x rest n ib ub rb d lg :
  ib !! s = Some (enc_u8 x ++ rest) -> 0 <= x < 256 ->
  read_u8 s (World a t r n ib ub rb d f lg)
  = (Ok x, World a t r n (<[s := rest]> ib) ub rb d f (lg ++ [EvRecv s (enc_u8 x)])).
Proof.
  intros Hib Hx. unfold read_u8.
  erewrite bind_ok by (eapply recv_exact_ok; [exact Hib|apply length_be_bytes|discriminate]).
  unfold ret. now rewrite unpack_enc_u8.
Qed.

Lemma pack_i64_ok x (w : world) : i64 x -> pack_i64 x w = (Ok (enc_i64 x), w).
Proof. intros H. unfold pack_i64, lift, int. now rewrite struct_pack_q_ok. Qed.

Lemma pack_i64_out_of_range x (w : world) : ~ i64 x -> pack_i64 x w = (Raise StructError, w).
Proof. intros H. unfold pack_i64, lift, int. now rewrite struct_pack_q_out_of_range. Qed.

Lemma pack_i64_run x (w : world) :
  pack_i64 x w = (if fits_i64 x then Ok (enc_i64 x) else Raise StructError, w).
Proof. unfold pack_i64, lift, int, struct_pack_q, enc_i64. reflexivity. Qed.

Lemma pack_u32_ok x (w : world) : pack_u32 x w = (Ok (enc_u32 (x mod 2 ^ 32)), w).
Proof. unfold pack_u32, lift. now rewrite struct_pack_I_mask. Qed.

Lemma pack_u8_ok x (w : world) : 0 <= x <= 255 -> pack_u8 x w = (Ok (enc_u8 x), w).
Proof. intros H. unfold pack_u8, lift. now rewrite struct_pack_B_ok. Qed.

(** Sending and receiving a run of [i64] values. *)

Lemma send_i64s_ok s xs n ib ub rb d lg :
  Forall i64 xs ->
  for_each xs (fun v => b <- pack_i64 v ;; sendall s b) (World a t r n ib ub rb d f lg)
  = (Ok tt, World a t r n ib ub rb d f (lg ++ map (fun x => EvSend s (enc_i64 x)) xs)).
Proof.
  intros Hxs. revert lg. induction Hxs as [|x xs Hx Hxs IH]; intros lg.
  - cbn. now rewrite app_nil_r.
  - cbn [for_each map].
    rewrite bind_assoc.
    erewrite bind_ok by (apply pack_i64_ok; exact Hx).
    erewrite bind_ok by apply sendall_ok.
    rewrite IH, <- app_assoc. reflexivity.
Qed.

Lemma recv_i64s_ok s xs (l : list nat) rest n ib ub rb d lg :
  length l = length xs ->
  Forall i64 xs ->
  ib !! s = Some (enc_vec xs ++ rest) ->
  for_list l (fun _ => read_i64 s) (World a t r n ib ub rb d f lg)
  = (Ok xs, World a t r n (<[s := rest]> ib) ub rb d f
                  (lg ++ map (fun x => EvRecv s (enc_i64 x)) xs)).
Proof.
  intros Hl Hxs. revert l Hl ib lg.
  induction Hxs as [|x xs Hx Hxs IH]; intros l Hl ib lg Hib.
  - destruct l; [|discriminate]. cbn. rewrite app_nil_r.
    cbn in Hib. now rewrite (insert_id ib s rest Hib).
  - destruct l as [|i l]; [discriminate|]. cbn [for_list map].
    unfold enc_vec in Hib. cbn [map concat] in Hib. rewrite <- app_assoc in Hib.
    erewrite bind_ok by (eapply read_i64_ok; [exact Hib|exact Hx]).
    erewrite bind_ok.
    2:{ apply IH; [now injection Hl|]. apply lookup_insert_eq. }
    rewrite insert_insert_eq, <- app_assoc. reflexivity.
Qed.

End Quiet.

(** ** List comprehensions over indices *)

Lemma for_list_getitem1 (g : Z -> Z) (l : list Z) (w : world) :
  for_list (seq 0 (length l)) (fun i => x <- getitem l i ;; ret (g x)) w
  = (Ok (map g l), w).
Proof.
  assert (H : forall suf pre, l = pre ++ suf ->
            for_list (seq (length pre) (length suf))
              (fun i => x <- getitem l i ;; ret (g x)) w = (Ok (map g suf), w)).
  { induction suf as [|y suf IH]; intros pre Hl; [reflexivity|].
    cbn [length seq for_list map].
    assert (Hy : l !! length pre = Some y).
    { rewrite Hl. rewrite lookup_app_r by lia. now rewrite Nat.sub_diag. }
    rewrite bind_assoc. unfold getitem at 1. rewrite Hy. rewrite !bind_ret.
    specialize (IH (pre ++ [y])). rewrite length_app in IH. cbn [length] in IH.
    rewrite Nat.add_1_r in IH.
    erewrite bind_ok by (apply IH; rewrite Hl, <- app_assoc; reflexivity).
    reflexivity. }
  apply (H l []). reflexivity.
Qed.

Lemma for_list_getitem2 (g : Z -> Z -> Z) (l1 l2 : list Z) (w : world) :
  length l1 = length l2 ->
  for_list (seq 0 (length l1))
    (fun i => x <- getitem l1 i ;; y <- getitem l2 i ;; ret (g x y)) w
  = (Ok (zip_with g l1 l2), w).
Proof.
  intros Hlen.
  assert (H : forall suf1 suf2 pre1 pre2,
            l1 = pre1 ++ suf1 -> l2 = pre2 ++ suf2 ->
            length pre1 = length pre2 -> length suf1 = length suf2 ->
            for_list (seq (length pre1) (length suf1))
              (fun i => x <- getitem l1 i ;; y <- getitem l2 i ;; ret (g x y)) w
            = (Ok (zip_with g suf1 suf2), w)).
  { induction suf1 as [|x suf1 IH]; intros suf2 pre1 pre2 H1 H2 Hp Hs.
    - destruct suf2; [reflexivity|discriminate].
    - destruct suf2 as [|y suf2]; [discriminate|].
      cbn [length seq for_list zip_with].
      assert (Hx : l1 !! length pre1 = Some x).
      { rewrite H1. rewrite lookup_app_r by lia. now rewrite Nat.sub_diag. }
      assert (Hy : l2 !! length pre1 = Some y).
      { rewrite H2, Hp. rewrite lookup_app_r by lia. now rewrite Nat.sub_diag. }
      rewrite bind_assoc. unfold getitem at 1. rewrite Hx. rewrite bind_ret.
      rewrite bind_assoc. unfold getitem at 1. rewrite Hy. rewrite !bind_ret.
      specialize (IH suf2 (pre1 ++ [x]) (pre2 ++ [y])).
      rewrite length_app in IH. cbn [length] in IH. rewrite Nat.add_1_r in IH.
      erewrite bind_ok.
      2:{ apply IH.
          - rewrite H1, <- app_assoc; reflexivity.
          - rewrite H2, <- app_assoc; reflexivity.
          - rewrite !length_app. cbn. lia.
          - now injection Hs. }
      reflexivity. }
  apply (H l1 l2 [] []); auto.
Qed.

Lemma comprehension1 (g : Z -> Z) (l : list Z) (n : nat) (w : world) :
  n = length l ->
  for_list (seq 0 n) (fun i => x <- getitem l i ;; ret (g x)) w = (Ok (map g l), w).
Proof. intros ->. apply for_list_getitem1. Qed.

Lemma comprehension2 (g : Z -> Z -> Z) (l1 l2 : list Z) (n : nat) (w : world) :
  n = length l1 -> n = length l2 ->
  for_list (seq 0 n) (fun i => x <- getitem l1 i ;; y <- getitem l2 i ;; ret (g x y)) w
  = (Ok (zip_with g l1 l2), w).
Proof. intros -> H. now apply for_list_getitem2. Qed.

(** ** The party's socket routines in a fault-free world *)

Ltac run tac := erewrite bind_ok by tac; cbv beta.

Lemma len_nonneg {A : Type} (l : list A) : 0 <= len l.
Proof. unfold len. lia. Qed.

Section PartyRuns.

Variable f : nat -> bool.
Hypothesis quiet : forall n, f n = false.

Variables (a : list Z) (t : gmap Z (list sock)) (r : list Z).

Lemma send_two_vecs_ok host port sid tag u v bs n ib ub rb d lg :
  i64 sid -> 0 <= tag <= 255 -> len u < 2 ^ 32 -> len v < 2 ^ 32 ->
  Forall i64 u -> Forall i64 v ->
  Party.send_two_vecs host port sid tag u v (World a t r n ib ub rb (bs :: d) f lg)
  = (Ok tt, World a t r (S n) (<[n := bs]> ib) ub rb d f
              (lg ++ Party.ev_send_two_vecs host port n sid tag u v)).
Proof.
  intros Hsid Htag Hu Hv Fu Fv. unfold Party.send_two_vecs.
  run ltac:(apply connect_ok; exact quiet).
  run ltac:(apply pack_i64_ok; exact Hsid).
  run ltac:(apply sendall_ok; exact quiet).
  run ltac:(apply pack_u8_ok; exact Htag).
  run ltac:(apply sendall_ok; exact quiet).
  run ltac:(apply pack_u32_ok).
  run ltac:(apply sendall_ok; exact quiet).
  run ltac:(apply send_i64s_ok; [exact quiet|exact Fu]).
  run ltac:(apply pack_u32_ok).
  run ltac:(apply sendall_ok; exact quiet).
  run ltac:(apply send_i64s_ok; [exact quiet|exact Fv]).
  rewrite close_ok.
  pose proof (len_nonneg u). pose proof (len_nonneg v).
  rewrite !Z.mod_small by lia.
  unfold Party.ev_send_two_vecs. repeat rewrite <- app_assoc. reflexivity.
Qed.

Lemma recv_two_vecs_ok sid tag dim u v rest n ib ub rb d lg :
  i64 sid -> 0 <= tag <= 255 -> 0 <= dim < 2 ^ 32 ->
  len u = dim -> len v = dim -> Forall i64 u -> Forall i64 v ->
  Party.recv_two_vecs res_ls sid tag dim
    (World a t r n ib ub ((Party.residual_frame sid tag u v ++ rest) :: rb) d f lg)
  = (Ok (u, v), World a t r (S n) (<[n := rest]> ib) ub rb d f
                  (lg ++ Party.ev_recv_two_vecs res_ls n sid tag u v)).
Proof.
  intros Hsid Htag Hdim Hu Hv Fu Fv. unfold Party.recv_two_vecs.
  unfold Party.residual_frame. rewrite Hu, Hv. repeat rewrite <- app_assoc.
  run ltac:(apply accept_res_ok).
  run ltac:(apply read_i64_ok; [exact quiet|apply lookup_insert_eq|exact Hsid]).
  rewrite insert_insert_eq.
  run ltac:(apply read_u8_ok; [exact quiet|apply lookup_insert_eq|lia]).
  rewrite insert_insert_eq.
  run ltac:(apply read_u32_ok; [exact quiet|apply lookup_insert_eq|lia]).
  rewrite insert_insert_eq.
  rewrite !Z.eqb_refl. cbn [negb orb].
  run ltac:(apply recv_i64s_ok;
            [exact quiet|rewrite <- Hu, range_len; apply length_seq|exact Fu|apply lookup_insert_eq]).
  rewrite insert_insert_eq.
  run ltac:(apply read_u32_ok; [exact quiet|apply lookup_insert_eq|lia]).
  rewrite insert_insert_eq.
  rewrite !Z.eqb_refl. cbn [negb].
  run ltac:(apply recv_i64s_ok;
            [exact quiet|rewrite <- Hv, range_len; apply length_seq|exact Fv|apply lookup_insert_eq]).
  rewrite insert_insert_eq.
  run ltac:(apply close_ok).
  unfold ret, Party.ev_recv_two_vecs. rewrite Hu, Hv.
  repeat rewrite <- app_assoc. reflexivity.
Qed.

Lemma dta_cross_ok role host port sid tag (x_side : bool) my a_i b_i c_i
    u_pe v_pe rest bs n ib ub rb d lg :
  i64 sid -> 0 <= tag <= 255 -> len my < 2 ^ 32 ->
  length a_i = length my -> length b_i = length my ->
  length u_pe = length my -> length v_pe = length my ->
  Forall i64 u_pe -> Forall i64 v_pe ->
  Forall i64 (fst (Party.my_parts x_side my a_i b_i)) ->
  Forall i64 (snd (Party.my_parts x_side my a_i b_i)) ->
  Party.dta_cross role res_ls host port sid tag x_side my a_i b_i c_i
    (World a t r n ib ub ((Party.residual_frame sid tag u_pe v_pe ++ rest) :: rb)
           (bs :: d) f lg)
  = (Ok (Party.cross_result role (Party.my_parts x_side my a_i b_i) (u_pe, v_pe) a_i b_i c_i),
     World a t r (S (S n))
           (if x_side then <[S n := rest]> (<[n := bs]> ib)
            else <[S n := bs]> (<[n := rest]> ib))
           ub rb d f
           (lg ++ if x_side
                  then Party.ev_send_two_vecs host port n sid tag
                         (fst (Party.my_parts x_side my a_i b_i))
                         (snd (Party.my_parts x_side my a_i b_i))
                       ++ Party.ev_recv_two_vecs res_ls (S n) sid tag u_pe v_pe
                  else Party.ev_recv_two_vecs res_ls n sid tag u_pe v_pe
                       ++ Party.ev_send_two_vecs host port (S n) sid tag
                            (fst (Party.my_parts x_side my a_i b_i))
                            (snd (Party.my_parts x_side my a_i b_i)))).
Proof.
  intros Hsid Htag Hdim Ha Hb Hu Hv Fu Fv Fme1 Fme2.
  pose proof (len_nonneg my) as Hnn.
  assert (Hlu : len u_pe = len my) by (unfold len; congruence).
  assert (Hlv : len v_pe = len my) by (unfold len; congruence).
  unfold Party.dta_cross. rewrite range_len.
  assert (Lz : forall (g : Z -> Z -> Z) (l1 l2 : list Z),
                 length l1 = length my -> length l2 = length my ->
                 length my = length (zip_with g l1 l2)).
  { intros g l1 l2 H1 H2. rewrite length_zip_with. lia. }
  assert (Lm : forall (g : Z -> Z) (l1 : list Z), length l1 = length my ->
                 length my = length (map g l1)).
  { intros g l1 H1. rewrite length_map. lia. }
  destruct x_side; cbn [Party.my_parts Party.x_side_parts Party.y_side_parts fst snd] in *.
  - rewrite bind_assoc.
    run ltac:(apply comprehension2; congruence).
    rewrite bind_assoc.
    run ltac:(apply comprehension1; congruence).
    rewrite bind_assoc.
    run ltac:(apply send_two_vecs_ok;
              [exact Hsid|exact Htag| | |exact Fme1|exact Fme2];
              unfold len in *; rewrite ?length_zip_with, ?length_map; lia).
    rewrite bind_assoc.
    run ltac:(apply recv_two_vecs_ok;
              [exact Hsid|exact Htag|lia|exact Hlu|exact Hlv|exact Fu|exact Fv]).
    rewrite bind_ret. cbn [fst snd].
    run ltac:(apply comprehension2; [apply Lz|]; congruence).
    run ltac:(apply comprehension2; [apply Lm|]; congruence).
    unfold Party.cross_result. cbn [fst snd].
    destruct role; unfold ret; rewrite <- app_assoc; reflexivity.
  - rewrite bind_assoc.
    run ltac:(apply comprehension1; congruence).
    rewrite bind_assoc.
    run ltac:(apply comprehension2; congruence).
    rewrite bind_assoc.
    run ltac:(apply recv_two_vecs_ok;
              [exact Hsid|exact Htag|lia|exact Hlu|exact Hlv|exact Fu|exact Fv]).
    rewrite bind_assoc.
    run ltac:(apply send_two_vecs_ok;
              [exact Hsid|exact Htag| | |exact Fme1|exact Fme2];
              unfold len in *; rewrite ?length_zip_with, ?length_map; lia).
    rewrite bind_ret. cbn [fst snd].
    run ltac:(apply comprehension2; [apply Lm|]; congruence).
    run ltac:(apply comprehension2; [apply Lz|]; congruence).
    unfold Party.cross_result. cbn [fst snd].
    destruct role; unfold ret; rewrite <- app_assoc; reflexivity.
Qed.

Lemma fetch_share_ok host port dim sid a_i b_i c_i rest n ib ub rb d lg :
  0 <= dim < 2 ^ 32 -> len a_i = dim -> len b_i = dim ->
  i64 sid -> Forall i64 a_i -> Forall i64 b_i -> i64 c_i ->
  Party.fetch_share host port dim
    (World a t r n ib ub rb ((share_frame dim sid a_i b_i c_i ++ rest) :: d) f lg)
  = (Ok (sid, a_i, b_i, c_i),
     World a t r (S n) (<[n := rest]> ib) ub rb d f
           (lg ++ Party.ev_fetch_share host port n dim sid a_i b_i c_i)).
Proof.
  intros Hdim Ha Hb Hsid Fa Fb Hc. unfold Party.fetch_share, share_frame.
  repeat rewrite <- app_assoc.
  run ltac:(apply connect_ok; exact quiet).
  run ltac:(apply pack_u8_ok; unfold OP_REQUEST; lia).
  run ltac:(apply sendall_ok; exact quiet).
  run ltac:(apply pack_u32_ok).
  run ltac:(apply sendall_ok; exact quiet).
  run ltac:(apply read_u8_ok; [exact quiet|apply lookup_insert_eq|unfold OP_RESPONSE; lia]).
  rewrite insert_insert_eq, Z.eqb_refl. cbn [negb].
  run ltac:(apply read_u32_ok; [exact quiet|apply lookup_insert_eq|lia]).
  rewrite insert_insert_eq, Z.eqb_refl. cbn [negb].
  run ltac:(apply read_i64_ok; [exact quiet|apply lookup_insert_eq|exact Hsid]).
  rewrite insert_insert_eq.
  run ltac:(apply recv_i64s_ok;
            [exact quiet|rewrite <- Ha, range_len; apply length_seq|exact Fa|apply lookup_insert_eq]).
  rewrite insert_insert_eq.
  run ltac:(apply recv_i64s_ok;
            [exact quiet|rewrite <- Hb, range_len; apply length_seq|exact Fb|apply lookup_insert_eq]).
  rewrite insert_insert_eq.
  run ltac:(apply read_i64_ok; [exact quiet|apply lookup_insert_eq|exact Hc]).
  rewrite insert_insert_eq.
  run ltac:(apply close_ok).
  unfold ret, Party.ev_fetch_share. rewrite Z.mod_small by lia.
  repeat rewrite <- app_assoc. reflexivity.
Qed.

End PartyRuns.

(** ** Algebra of the inner product *)

Lemma dot_nil_l (b : list Z) : dot [] b = 0.
Proof. reflexivity. Qed.

Lemma dot_nil_r (a : list Z) : dot a [] = 0.
Proof. destruct a; reflexivity. Qed.

Lemma dot_cons (x y : Z) (a b : list Z) : dot (x :: a) (y :: b) = x * y + dot a b.
Proof. unfold dot. cbn [zip_with]. apply sum_cons. Qed.

Lemma dot_comm (a b : list Z) : dot a b = dot b a.
Proof.
  revert b. induction a as [|x a IH]; intros [|y b]; try reflexivity.
  rewrite !dot_cons, IH. lia.
Qed.

Lemma dot_add_l (u1 u2 b : list Z) :
  length u1 = length u2 -> dot (zip_with Z.add u1 u2) b = dot u1 b + dot u2 b.
Proof.
  revert u2 b. induction u1 as [|x u1 IH]; intros [|y u2] b Hl; try discriminate.
  - reflexivity.
  - destruct b as [|z b]; [now rewrite !dot_nil_r|].
    cbn [zip_with]. rewrite !dot_cons, IH by (now injection Hl). lia.
Qed.

Lemma dot_opp_l (a b : list Z) : dot (map Z.opp a) b = - dot a b.
Proof.
  revert b. induction a as [|x a IH]; intros [|y b]; try reflexivity.
  cbn [map]. rewrite !dot_cons, IH. lia.
Qed.

Lemma dot_sub_l (x a b : list Z) :
  length x = length a -> dot (zip_with Z.sub x a) b = dot x b - dot a b.
Proof.
  revert a b. induction x as [|x0 x IH]; intros [|a0 a] b Hl; try discriminate.
  - reflexivity.
  - destruct b as [|z b]; [now rewrite !dot_nil_r|].
    cbn [zip_with]. rewrite !dot_cons, IH by (now injection Hl). lia.
Qed.

Lemma dot_add_r (a v1 v2 : list Z) :
  length v1 = length v2 -> dot a (zip_with Z.add v1 v2) = dot a v1 + dot a v2.
Proof. intros H. rewrite dot_comm, dot_add_l by exact H. now rewrite !(dot_comm a). Qed.

Lemma dot_opp_r (a b : list Z) : dot a (map Z.opp b) = - dot a b.
Proof. now rewrite dot_comm, dot_opp_l, dot_comm. Qed.

Lemma dot_sub_r (a y b : list Z) :
  length y = length b -> dot a (zip_with Z.sub y b) = dot a y - dot a b.
Proof. intros H. rewrite dot_comm, dot_sub_l by exact H. now rewrite !(dot_comm a). Qed.

(** The triple invariant, as the dealer establishes it. *)
Lemma triple_invariant_expand (a0 a1 b0 b1 : list Z) (n : nat) :
  length a0 = n -> length a1 = n -> length b0 = n -> length b1 = n ->
  dot (zip_with Z.add a0 a1) (zip_with Z.add b0 b1)
  = dot a0 b0 + dot a0 b1 + dot a1 b0 + dot a1 b1.
Proof.
  intros. rewrite dot_add_l by congruence. rewrite !dot_add_r by congruence. lia.
Qed.

(** The two outputs of one cross-term add up to the inner product of
    the X-side input with the Y-side input, whichever role plays the X
    side. *)
Lemma cross_results_sum (rX rY : Party.role) (x y aX bX aY bY : list Z) (cX cY : Z) (n : nat) :
  rX <> rY ->
  length x = n -> length y = n ->
  length aX = n -> length bX = n -> length aY = n -> length bY = n ->
  dot (zip_with Z.add aX aY) (zip_with Z.add bX bY) = cX + cY ->
  Party.cross_result rX (Party.x_side_parts x aX bX) (Party.y_side_parts y aY bY) aX bX cX
  + Party.cross_result rY (Party.y_side_parts y aY bY) (Party.x_side_parts x aX bX) aY bY cY
  = dot x y.
Proof.
  intros Hr Hx Hy HaX HbX HaY HbY Hinv.
  rewrite (triple_invariant_expand aX aY bX bY n) in Hinv by assumption.
  unfold Party.cross_result, Party.x_side_parts, Party.y_side_parts. cbn [fst snd].
  assert (L1 : length (zip_with Z.sub x aX) = n) by (rewrite length_zip_with; lia).
  assert (L2 : length (zip_with Z.sub y bY) = n) by (rewrite length_zip_with; lia).
  assert (L3 : length (map Z.opp aY) = n) by (now rewrite length_map).
  assert (L4 : length (map Z.opp bX) = n) by (now rewrite length_map).
  destruct rX, rY; try congruence;
    repeat (rewrite ?dot_add_l, ?dot_add_r, ?dot_sub_l, ?dot_sub_r, ?dot_opp_l, ?dot_opp_r
              by congruence);
    lia.
Qed.

(** ** One request handled by a party, fault-free *)

Section HandleRuns.

Variable f : nat -> bool.
Hypothesis quiet : forall n, f n = false.

Variables (t : gmap Z (list sock)) (r : list Z).

(** The accumulation loop of WRITE adds [vec] to [A_share] element-wise. *)
Lemma accumulate_ok (mem vec : list Z) n ib ub rb d lg :
  length mem = length vec ->
  for_each (seq 0 (length vec)) (fun i => x <- getitem vec i ;; Party.A_share_iadd i x)
    (World mem t r n ib ub rb d f lg)
  = (Ok tt, World (zip_with Z.add mem vec) t r n ib ub rb d f lg).
Proof.
  intros Hlen.
  assert (H : forall suf vsuf pre vpre,
            vec = vpre ++ vsuf -> length pre = length vpre -> length suf = length vsuf ->
            for_each (seq (length pre) (length vsuf))
              (fun i => x <- getitem vec i ;; Party.A_share_iadd i x)
              (World (pre ++ suf) t r n ib ub rb d f lg)
            = (Ok tt, World (pre ++ zip_with Z.add suf vsuf) t r n ib ub rb d f lg)).
  { induction suf as [|x suf IH]; intros vsuf pre vpre Hv Hp Hs.
    - destruct vsuf; [reflexivity|discriminate].
    - destruct vsuf as [|y vsuf]; [discriminate|].
      cbn [length seq for_each zip_with].
      rewrite bind_assoc. unfold getitem at 1.
      rewrite Hv, list_lookup_middle by congruence. rewrite <- Hv, bind_ret.
      erewrite bind_ok.
      2:{ unfold Party.A_share_iadd. cbn [A_share].
          rewrite list_lookup_middle by reflexivity. unfold set_A_share. cbn.
          rewrite <- (Nat.add_0_r (length pre)), insert_app_r. cbn. reflexivity. }
      specialize (IH vsuf (pre ++ [x + y]) (vpre ++ [y])).
      rewrite length_app in IH. cbn [length] in IH. rewrite Nat.add_1_r in IH.
      rewrite <- !app_assoc in IH. cbn [app] in IH.
      apply IH; [exact Hv| |now injection Hs].
      rewrite length_app. cbn. lia. }
  apply (H mem vec [] []); auto.
Qed.

Lemma handle_write_ok cfg conn (mem vec : list Z) rest n ib ub rb d lg :
  len vec = Party.rows cfg -> Party.rows cfg < 2 ^ 32 ->
  length mem = length vec -> Forall i64 vec ->
  ib !! conn = Some (request OP_WRITE_VEC vec ++ rest) ->
  Party.handle cfg conn (World mem t r n ib ub rb d f lg)
  = (Ok tt, World (zip_with Z.add mem vec) t r n (<[conn := rest]> ib) ub rb d f
              (lg ++ Party.ev_request conn OP_WRITE_VEC vec ++ [EvSend conn OK_bytes])).
Proof.
  intros Hrows Hlt Hmem Fv Hib. unfold Party.handle.
  unfold request in Hib. repeat rewrite <- app_assoc in Hib.
  pose proof (len_nonneg vec) as Hnn.
  run ltac:(apply read_u8_ok; [exact quiet|exact Hib|unfold OP_WRITE_VEC; lia]).
  rewrite Z.eqb_refl.
  run ltac:(apply read_u32_ok; [exact quiet|apply lookup_insert_eq|lia]).
  rewrite insert_insert_eq, Hrows, Z.eqb_refl. cbn [negb].
  run ltac:(apply recv_i64s_ok;
            [exact quiet|rewrite <- Hrows, range_len; apply length_seq|exact Fv
            |apply lookup_insert_eq]).
  rewrite insert_insert_eq.
  rewrite <- Hrows, range_len.
  run ltac:(apply accumulate_ok; exact Hmem).
  rewrite sendall_ok by exact quiet.
  unfold Party.ev_request. rewrite Hrows. repeat rewrite <- app_assoc. reflexivity.
Qed.

Lemma handle_read_run cfg conn (mem e : list Z) sid a_i b_i c_i pe01 pe10
    rest0 rest1 bs1 bs2 r1 r2 n ib ub rb d lg :
  len e = Party.rows cfg -> Party.rows cfg < 2 ^ 32 ->
  length mem = length e -> Forall i64 e ->
  ib !! conn = Some (request OP_READ_SECURE e ++ rest0) ->
  i64 sid -> length a_i = length e -> length b_i = length e ->
  Forall i64 a_i -> Forall i64 b_i -> i64 c_i ->
  length (fst pe01) = length e -> length (snd pe01) = length e ->
  length (fst pe10) = length e -> length (snd pe10) = length e ->
  Forall i64 (fst pe01) -> Forall i64 (snd pe01) ->
  Forall i64 (fst pe10) -> Forall i64 (snd pe10) ->
  Forall i64 (fst (Party.parts01 (Party.cfg_role cfg) mem e a_i b_i)) ->
  Forall i64 (snd (Party.parts01 (Party.cfg_role cfg) mem e a_i b_i)) ->
  Forall i64 (fst (Party.parts10 (Party.cfg_role cfg) mem e a_i b_i)) ->
  Forall i64 (snd (Party.parts10 (Party.cfg_role cfg) mem e a_i b_i)) ->
  exists ib',
    Party.handle cfg conn
      (World mem t r n ib ub
             ((Party.residual_frame sid 1 (fst pe01) (snd pe01) ++ r1)
              :: (Party.residual_frame sid 16 (fst pe10) (snd pe10) ++ r2) :: rb)
             ((share_frame (Party.rows cfg) sid a_i b_i c_i ++ rest1) :: bs1 :: bs2 :: d)
             f lg)
    = if fits_i64 (Party.read_value (Party.cfg_role cfg) mem e a_i b_i c_i pe01 pe10)
      then (Ok tt, World mem t r (S (S (S (S (S n))))) ib' ub rb d f
                     (lg ++ Party.ev_read cfg conn n mem e sid a_i b_i c_i pe01 pe10))
      else (Raise StructError,
            World mem t r (S (S (S (S (S n))))) ib' ub rb d f
                  (lg ++ Party.ev_read_exchanges cfg conn n mem e sid a_i b_i c_i pe01 pe10)).
Proof.
  intros Hrows Hlt Hmem Fe Hib Hsid La Lb Fa Fb Hc L1 L2 L3 L4 F1 F2 F3 F4 P1 P2 P3 P4.
  unfold Party.handle.
  unfold request in Hib. repeat rewrite <- app_assoc in Hib.
  pose proof (len_nonneg e) as Hnn.
  assert (Hla : len a_i = Party.rows cfg) by (unfold len in *; congruence).
  assert (Hlb : len b_i = Party.rows cfg) by (unfold len in *; congruence).
  run ltac:(apply read_u8_ok; [exact quiet|exact Hib|unfold OP_READ_SECURE; lia]).
  change (OP_READ_SECURE =? OP_WRITE_VEC) with false. cbv iota. rewrite Z.eqb_refl.
  run ltac:(apply read_u32_ok; [exact quiet|apply lookup_insert_eq|lia]).
  rewrite insert_insert_eq, Hrows, Z.eqb_refl. cbn [negb].
  run ltac:(apply recv_i64s_ok;
            [exact quiet|rewrite <- Hrows, range_len; apply length_seq|exact Fe
            |apply lookup_insert_eq]).
  rewrite insert_insert_eq.
  run ltac:(apply fetch_share_ok; [exact quiet|lia|exact Hla|exact Hlb|exact Hsid
                                  |exact Fa|exact Fb|exact Hc]).
  cbn [fst snd].
  rewrite bind_get_A_share. cbn [A_share].
  destruct pe01 as [u1 v1], pe10 as [u2 v2]. cbn [fst snd] in *.
  assert (Hin : forall b : bool, len (if b then mem else e) < 2 ^ 32).
  { intros []; unfold len in *; rewrite ?Hmem; lia. }
  assert (Hil : forall b : bool, length (if b then mem else e) = length e).
  { intros []; congruence. }
  run ltac:(apply dta_cross_ok;
            [exact quiet|exact Hsid|lia|apply Hin|rewrite Hil; exact La|rewrite Hil; exact Lb
            |rewrite Hil; exact L1|rewrite Hil; exact L2|exact F1|exact F2|exact P1|exact P2]).
  rewrite bind_get_A_share. cbn [A_share].
  run ltac:(apply dta_cross_ok;
            [exact quiet|exact Hsid|lia|apply Hin|rewrite Hil; exact La|rewrite Hil; exact Lb
            |rewrite Hil; exact L3|rewrite Hil; exact L4|exact F3|exact F4|exact P3|exact P4]).
  rewrite bind_get_A_share. cbn [A_share].
  eexists.
  unfold Party.ev_read, Party.ev_read_exchanges, Party.ev_dta_cross, Party.ev_request,
    Party.read_value, Party.parts01, Party.parts10.
  rewrite Hrows. unfold bind at 1. rewrite pack_i64_run.
  match goal with |- context [fits_i64 ?v] => destruct (fits_i64 v) end.
  - rewrite sendall_ok by exact quiet. repeat rewrite <- app_assoc. reflexivity.
  - repeat rewrite <- app_assoc. reflexivity.
Qed.



End HandleRuns.

(** ** The serving loop *)

Lemma try_finally_ok {A : Type} (body : M A) (fin : M unit) (w w1 w2 : world) (x : A) :
  body w = (Ok x, w1) -> fin w1 = (Ok tt, w2) -> try_finally body fin w = (Ok x, w2).
Proof. unfold try_finally. intros -> H. unfold bind. now rewrite H. Qed.

Lemma try_finally_raise {A : Type} (body : M A) (fin : M unit) (w w1 w2 : world) (e : exn) :
  body w = (Raise e, w1) -> fin w1 = (Ok tt, w2) -> try_finally body fin w = (Raise e, w2).
Proof. unfold try_finally. intros -> H. unfold bind. now rewrite H. Qed.

Section ServeRuns.

Variable f : nat -> bool.
Hypothesis quiet : forall n, f n = false.

Variables (t : gmap Z (list sock)) (r : list Z).

Lemma serve_loop_step cfg k req (mem mem' : list Z) n n' ib ib' ub rb rb' d d' lg evs :
  Party.handle cfg n
    (World mem t r (S n) (<[n := req]> ib) ub rb d f (lg ++ [EvAccept user_ls n]))
  = (Ok tt, World mem' t r n' ib' ub rb' d' f (lg ++ [EvAccept user_ls n] ++ evs)) ->
  Party.serve_loop (S k) cfg (World mem t r n ib (req :: ub) rb d f lg)
  = Party.serve_loop k cfg
      (World mem' t r n' ib' ub rb' d' f (lg ++ [EvAccept user_ls n] ++ evs ++ [EvClose n])).
Proof.
  intros H. cbn [Party.serve_loop].
  run ltac:(apply accept_user_ok).
  erewrite bind_ok.
  2:{ eapply try_finally_ok; [exact H|apply close_ok]. }
  repeat rewrite <- app_assoc. reflexivity.
Qed.


Lemma serve_writes_ok cfg (vecs : list (list Z)) k (mem : list Z) n ib ub rb d lg :
  Party.rows cfg < 2 ^ 32 -> len mem = Party.rows cfg ->
  Forall (fun v => len v = Party.rows cfg /\ Forall i64 v) vecs ->
  exists ib',
    Party.serve_loop (length vecs + k)%nat cfg
      (World mem t r n ib (map (request OP_WRITE_VEC) vecs ++ ub) rb d f lg)
    = Party.serve_loop k cfg
        (World (Party.mem_after mem vecs) t r (length vecs + n)%nat ib' ub rb d f
               (lg ++ Party.ev_writes n vecs)).
Proof.
  intros Hlt Hmem Hv. revert mem n ib lg Hmem.
  induction Hv as [|v vs [Hlv Fv] Hvs IH]; intros mem n ib lg Hmem.
  - exists ib. cbn. now rewrite app_nil_r.
  - cbn [length map app Nat.add].
    assert (Hlen : length mem = length v).
    { unfold len in *. lia. }
    erewrite serve_loop_step.
    2:{ rewrite handle_write_ok with (vec := v) (rest := []);
          [rewrite <- app_assoc; reflexivity
          |exact quiet|exact Hlv|exact Hlt|exact Hlen|exact Fv|].
        rewrite app_nil_r. apply lookup_insert_eq. }
    destruct (IH (zip_with Z.add mem v) (S n) (<[n:=[]]> (<[n:=request OP_WRITE_VEC v]> ib))
                 (lg ++ [EvAccept user_ls n]
                     ++ (Party.ev_request n OP_WRITE_VEC v ++ [EvSend n OK_bytes])
                     ++ [EvClose n])) as [ib' E].
    { unfold len in *. rewrite length_zip_with. lia. }
    exists ib'. rewrite E. cbn [Party.mem_after fold_left Party.ev_writes].
    rewrite Nat.add_succ_r. repeat rewrite <- app_assoc. reflexivity.
Qed.

End ServeRuns.

(** ** Randomness and the coordinator's shares *)

Lemma length_entropy (n : nat) (tape : list Z) : length (entropy n tape) = n.
Proof.
  revert tape. induction n as [|n IH]; intros tape; [reflexivity|].
  destruct tape; cbn; now rewrite IH.
Qed.

Lemma length_random_vec (n : nat) (tape : list Z) : length (random_vec n tape) = n.
Proof. unfold random_vec. now rewrite length_map, length_entropy. Qed.

Lemma random_vec_range (n : nat) (tape : list Z) :
  Forall (fun x => 1 <= x <= 1024) (random_vec n tape).
Proof.
  unfold random_vec. apply Forall_map, Forall_forall. intros x _. cbn.
  pose proof (Z.mod_pos_bound x 1024 ltac:(lia)). lia.
Qed.

Lemma randint_run lo hi a t tape n ib ub rb d f lg :
  randint lo hi (World a t tape n ib ub rb d f lg)
  = (Ok (lo + hd 0 tape mod (hi - lo + 1)),
     World a t (drop 1 tape) n ib ub rb d f lg).
Proof. unfold randint, bind, draw. destruct tape; reflexivity. Qed.

Lemma getrandbits_run k a t tape n ib ub rb d f lg :
  getrandbits k (World a t tape n ib ub rb d f lg)
  = (Ok (hd 0 tape mod 2 ^ k), World a t (drop 1 tape) n ib ub rb d f lg).
Proof. unfold getrandbits, bind, draw. destruct tape; reflexivity. Qed.

Lemma entropy_S (n : nat) (tape : list Z) :
  entropy (S n) tape = hd 0 tape :: entropy n (drop 1 tape).
Proof. destruct tape; reflexivity. Qed.

Lemma rand_vec_run (l : list nat) a t tape n ib ub rb d f lg :
  for_list l (fun _ => randint 1 1024) (World a t tape n ib ub rb d f lg)
  = (Ok (random_vec (length l) tape),
     World a t (drop (length l) tape) n ib ub rb d f lg).
Proof.
  revert tape. induction l as [|i l IH]; intros tape.
  - cbn. now rewrite drop_0.
  - cbn [for_list length].
    erewrite bind_ok by apply randint_run.
    erewrite bind_ok by apply IH.
    unfold ret. rewrite drop_drop. unfold random_vec. rewrite entropy_S. reflexivity.
Qed.

Lemma range_length (n : Z) : length (range n) = Z.to_nat n.
Proof. unfold range. apply length_seq. Qed.

Lemma insert_middle {A : Type} (pre suf : list A) (x z : A) :
  <[length pre := z]> (pre ++ x :: suf) = pre ++ z :: suf.
Proof. rewrite insert_app_r_alt by lia. now rewrite Nat.sub_diag. Qed.

(** The loop [for i in range(dim): e[i] -= f[i]]. *)
Lemma subtract_ok (e fv : list Z) (w : world) :
  length e = length fv ->
  Coordinator.for_fold (seq 0 (length fv))
    (fun i e => x <- getitem e i ;; y <- getitem fv i ;; ret (<[i := x - y]> e)) e w
  = (Ok (zip_with Z.sub e fv), w).
Proof.
  intros Hlen.
  assert (H : forall suf fsuf pre fpre,
            fv = fpre ++ fsuf -> length pre = length fpre -> length suf = length fsuf ->
            Coordinator.for_fold (seq (length pre) (length fsuf))
              (fun i e => x <- getitem e i ;; y <- getitem fv i ;; ret (<[i := x - y]> e))
              (pre ++ suf) w
            = (Ok (pre ++ zip_with Z.sub suf fsuf), w)).
  { induction suf as [|x suf IH]; intros fsuf pre fpre Hf Hp Hs.
    - destruct fsuf; [reflexivity|discriminate].
    - destruct fsuf as [|y fsuf]; [discriminate|].
      cbn [length seq Coordinator.for_fold zip_with].
      rewrite bind_assoc. unfold getitem at 1.
      rewrite list_lookup_middle by reflexivity. rewrite bind_ret.
      rewrite bind_assoc. unfold getitem at 1.
      rewrite Hf, list_lookup_middle by congruence. rewrite <- Hf, !bind_ret.
      rewrite insert_middle.
      specialize (IH fsuf (pre ++ [x - y]) (fpre ++ [y])).
      rewrite length_app in IH. cbn [length] in IH. rewrite Nat.add_1_r in IH.
      rewrite <- !app_assoc in IH. cbn [app] in IH.
      apply IH; [exact Hf| |now injection Hs].
      rewrite !length_app. cbn. lia. }
  apply (H e fv [] []); auto.
Qed.

Lemma make_standard_basis_share_ok dim idx val a t tape n ib ub rb d f lg :
  0 <= idx < dim ->
  Coordinator.make_standard_basis_share dim idx val (World a t tape n ib ub rb d f lg)
  = (Ok (Coordinator.basis_share dim idx val tape),
     World a t (drop (Z.to_nat dim) tape) n ib ub rb d f lg).
Proof.
  intros Hidx. unfold Coordinator.make_standard_basis_share, Coordinator.setitem.
  assert (Hl : len (replicate (Z.to_nat dim) 0) = dim).
  { unfold len. rewrite length_replicate. lia. }
  rewrite Hl.
  destruct (Z.ltb_spec idx 0) as [?|_]; [lia|].
  destruct (Z.leb_spec 0 idx) as [_|?]; [|lia].
  destruct (Z.ltb_spec idx dim) as [_|?]; [|lia].
  cbn [andb]. rewrite bind_ret.
  unfold Coordinator.rand_vec.
  erewrite bind_ok by apply rand_vec_run.
  rewrite range_length.
  unfold range.
  rewrite <- (length_random_vec (Z.to_nat dim) tape) at 1.
  erewrite bind_ok.
  2:{ apply subtract_ok. now rewrite length_insert, length_replicate, length_random_vec. }
  reflexivity.
Qed.

(** ** What was sent on a connection *)

Lemma sent_app (s : sock) (l1 l2 : list event) : sent s (l1 ++ l2) = sent s l1 ++ sent s l2.
Proof.
  induction l1 as [|ev l1 IH]; [reflexivity|].
  destruct ev; cbn [app sent]; try exact IH.
  destruct (Nat.eqb s0 s); [rewrite IH; apply app_assoc|exact IH].
Qed.

Lemma sent_sends (s : sock) (xs : list Z) :
  sent s (map (fun x => EvSend s (enc_i64 x)) xs) = enc_vec xs.
Proof.
  induction xs as [|x xs IH]; [reflexivity|].
  cbn [map sent]. rewrite Nat.eqb_refl, IH. reflexivity.
Qed.

Lemma sent_sends_other (s s' : sock) (xs : list Z) :
  s' <> s -> sent s (map (fun x => EvSend s' (enc_i64 x)) xs) = [].
Proof.
  intros Hne. induction xs as [|x xs IH]; [reflexivity|].
  cbn [map sent]. destruct (Nat.eqb_spec s' s); [congruence|exact IH].
Qed.

Lemma sent_recvs (s s' : sock) (xs : list Z) :
  sent s (map (fun x => EvRecv s' (enc_i64 x)) xs) = [].
Proof. induction xs as [|x xs IH]; [reflexivity|exact IH]. Qed.

Lemma sent_ev_send_two_vecs host port (s : sock) sid tag u v :
  sent s (Party.ev_send_two_vecs host port s sid tag u v) = Party.residual_frame sid tag u v.
Proof.
  unfold Party.ev_send_two_vecs, Party.residual_frame.
  repeat (progress (cbn [app sent];
                    rewrite ?Nat.eqb_refl, ?sent_app, ?sent_sends, ?app_nil_r)).
  reflexivity.
Qed.

Lemma sent_ev_send_two_vecs_other host port (s s' : sock) sid tag u v :
  s' <> s -> sent s (Party.ev_send_two_vecs host port s' sid tag u v) = [].
Proof.
  intros Hne. unfold Party.ev_send_two_vecs.
  assert (E : Nat.eqb s' s = false) by (now apply Nat.eqb_neq).
  repeat (progress (cbn [app sent];
                    rewrite ?E, ?sent_app, ?sent_sends_other by exact Hne)).
  reflexivity.
Qed.

Lemma sent_ev_recv_two_vecs l (s s' : sock) sid tag u v :
  sent s (Party.ev_recv_two_vecs l s' sid tag u v) = [].
Proof.
  unfold Party.ev_recv_two_vecs.
  repeat (progress (cbn [app sent]; rewrite ?sent_app, ?sent_recvs)).
  reflexivity.
Qed.

Lemma sent_ev_send_request hp (s : sock) op vec :
  sent s (Coordinator.ev_send_request hp s op vec) = request op vec.
Proof.
  unfold Coordinator.ev_send_request, request. cbn [app sent]. rewrite !Nat.eqb_refl.
  rewrite sent_sends. reflexivity.
Qed.

Lemma sent_ev_send_request_other hp (s s' : sock) op vec :
  s' <> s -> sent s (Coordinator.ev_send_request hp s' op vec) = [].
Proof.
  intros Hne. unfold Coordinator.ev_send_request. cbn [app sent].
  destruct (Nat.eqb_spec s' s) as [?|_]; [congruence|].
  now apply sent_sends_other.
Qed.

(** ** The coordinator's requests, fault-free *)

Section CoordinatorRuns.

Variable f : nat -> bool.
Hypothesis quiet : forall n, f n = false.

Variables (a : list Z) (t : gmap Z (list sock)) (r : list Z).

Lemma send_request_ok (hp : string * Z) op vec bs n ib ub rb d lg {B : Type}
    (k : sock -> M B) :
  0 <= op <= 255 -> len vec < 2 ^ 32 -> Forall i64 vec ->
  (s <- connect (fst hp) (snd hp) ;;
   b <- pack_u8 op ;; sendall s b ;;
   b <- pack_u32 (len vec) ;; sendall s b ;;
   for_each vec (fun v => b <- pack_i64 v ;; sendall s b) ;;
   k s) (World a t r n ib ub rb (bs :: d) f lg)
  = k n (World a t r (S n) (<[n := bs]> ib) ub rb d f
               (lg ++ Coordinator.ev_send_request hp n op vec)).
Proof.
  intros Hop Hlen Fv.
  run ltac:(apply connect_ok; exact quiet).
  run ltac:(apply pack_u8_ok; exact Hop).
  run ltac:(apply sendall_ok; exact quiet).
  run ltac:(apply pack_u32_ok).
  run ltac:(apply sendall_ok; exact quiet).
  run ltac:(apply send_i64s_ok; [exact quiet|exact Fv]).
  pose proof (len_nonneg vec). rewrite Z.mod_small by lia.
  unfold Coordinator.ev_send_request. repeat rewrite <- app_assoc. reflexivity.
Qed.

Lemma write_vec_ok hp vec ok rest n ib ub rb d lg :
  len vec < 2 ^ 32 -> Forall i64 vec -> length ok = 2%nat ->
  Coordinator.write_vec hp vec (World a t r n ib ub rb ((ok ++ rest) :: d) f lg)
  = (Ok tt, World a t r (S n) (<[n := rest]> ib) ub rb d f
              (lg ++ Coordinator.ev_write_vec hp n vec ok)).
Proof.
  intros Hlen Fv Hok. unfold Coordinator.write_vec.
  rewrite send_request_ok by (unfold OP_WRITE_VEC; auto; lia).
  run ltac:(apply recv_exact_ok; [exact quiet|apply lookup_insert_eq|exact Hok|discriminate]).
  rewrite insert_insert_eq, close_ok.
  unfold Coordinator.ev_write_vec. repeat rewrite <- app_assoc. reflexivity.
Qed.

Lemma read_share_ok hp vec share rest n ib ub rb d lg :
  len vec < 2 ^ 32 -> Forall i64 vec -> i64 share ->
  Coordinator.read_share hp vec (World a t r n ib ub rb ((enc_i64 share ++ rest) :: d) f lg)
  = (Ok share, World a t r (S n) (<[n := rest]> ib) ub rb d f
                 (lg ++ Coordinator.ev_read_share hp n vec share)).
Proof.
  intros Hlen Fv Hs. unfold Coordinator.read_share.
  rewrite send_request_ok by (unfold OP_READ_SECURE; auto; lia).
  run ltac:(apply read_i64_ok; [exact quiet|apply lookup_insert_eq|exact Hs]).
  rewrite insert_insert_eq.
  run ltac:(apply close_ok).
  unfold ret, Coordinator.ev_read_share. repeat rewrite <- app_assoc. reflexivity.
Qed.

End CoordinatorRuns.


(** ** Memory shares as vectors *)



Lemma at_index_zip_add (m v : list Z) (j : nat) :
  length m = length v ->
  at_index (zip_with Z.add m v) j = at_index m j + at_index v j.
Proof.
  unfold at_index. revert v j. induction m as [|x m IH]; intros [|y v] j Hl; try discriminate.
  - reflexivity.
  - destruct j as [|j]; [reflexivity|]. cbn. apply IH. now injection Hl.
Qed.

Lemma at_index_zip_sub (m v : list Z) (j : nat) :
  length m = length v ->
  at_index (zip_with Z.sub m v) j = at_index m j - at_index v j.
Proof.
  unfold at_index. revert v j. induction m as [|x m IH]; intros [|y v] j Hl; try discriminate.
  - reflexivity.
  - destruct j as [|j]; [reflexivity|]. cbn. apply IH. now injection Hl.
Qed.


Lemma at_index_mem_after (vecs : list (list Z)) (m : list Z) (j : nat) :
  Forall (fun v => length v = length m) vecs ->
  at_index (Party.mem_after m vecs) j
  = at_index m j + sum (map (fun v => at_index v j) vecs).
Proof.
  unfold Party.mem_after. intros H. revert m H.
  induction vecs as [|v vs IH]; intros m H.
  - cbn. unfold sum. cbn. lia.
  - inversion H as [|? ? Hv Hvs]; subst. cbn [fold_left map].
    rewrite sum_cons, IH.
    + rewrite at_index_zip_add by congruence. lia.
    + eapply Forall_impl; [exact Hvs|]. cbn. intros l Hl.
      rewrite length_zip_with. lia.
Qed.

Lemma at_index_zeros (n j : nat) : at_index (replicate n 0) j = 0.
Proof.
  unfold at_index. destruct (replicate n 0 !! j) as [z|] eqn:E; [|reflexivity].
  apply lookup_replicate in E. cbn. tauto.
Qed.

Lemma zip_sub_add (u fv : list Z) :
  length u = length fv -> zip_with Z.add (zip_with Z.sub u fv) fv = u.
Proof.
  revert fv. induction u as [|x u IH]; intros [|y fv] Hl; try discriminate; [reflexivity|].
  cbn [zip_with]. rewrite IH by (now injection Hl). f_equal. lia.
Qed.

(** ** A run of the party: WRITE requests followed by one READ *)

Section ServeReadAfterWrites.

Variable f : nat -> bool.
Hypothesis quiet : forall n, f n = false.

Variables (t : gmap Z (list sock)) (r : list Z).


End ServeReadAfterWrites.

(** ** What a party sends during a READ *)

Lemma sent_send_eq (s : sock) (bs : list byte) : sent s [EvSend s bs] = bs.
Proof. cbn. rewrite Nat.eqb_refl. apply app_nil_r. Qed.

Lemma sent_send_ne (s s' : sock) (bs : list byte) : s' <> s -> sent s [EvSend s' bs] = [].
Proof. intros H. cbn. now destruct (Nat.eqb_spec s' s). Qed.

Lemma sent_ev_request (s conn : sock) op vec : sent s (Party.ev_request conn op vec) = [].
Proof. unfold Party.ev_request. cbn [app sent]. apply sent_recvs. Qed.

Lemma sent_ev_fetch_share host port (s : sock) dim sid a_i b_i c_i :
  sent s (Party.ev_fetch_share host port s dim sid a_i b_i c_i)
  = enc_u8 OP_REQUEST ++ enc_u32 dim.
Proof.
  unfold Party.ev_fetch_share. cbn [app sent]. rewrite !Nat.eqb_refl.
  rewrite !sent_app, !sent_recvs. cbn [sent app]. now rewrite app_nil_r.
Qed.

Lemma sent_ev_fetch_share_other host port (s s' : sock) dim sid a_i b_i c_i :
  s' <> s -> sent s (Party.ev_fetch_share host port s' dim sid a_i b_i c_i) = [].
Proof.
  intros Hne. unfold Party.ev_fetch_share. cbn [app sent].
  destruct (Nat.eqb_spec s' s) as [?|_]; [congruence|].
  rewrite !sent_app, !sent_recvs. reflexivity.
Qed.

Lemma sent_ev_writes (s n : sock) (vecs : list (list Z)) :
  (s < n \/ length vecs + n <= s)%nat -> sent s (Party.ev_writes n vecs) = [].
Proof.
  revert n. induction vecs as [|v vs IH]; intros n Hs; [reflexivity|].
  cbn [Party.ev_writes length] in *. rewrite !sent_app, sent_ev_request.
  cbn [sent app]. destruct (Nat.eqb_spec n s) as [?|_]; [lia|].
  apply IH. lia.
Qed.

Ltac sent_simpl :=
  repeat first
    [ rewrite sent_app
    | rewrite sent_ev_send_two_vecs
    | rewrite sent_ev_send_two_vecs_other by lia
    | rewrite sent_ev_recv_two_vecs
    | rewrite sent_ev_request
    | rewrite sent_ev_fetch_share
    | rewrite sent_ev_fetch_share_other by lia
    | rewrite sent_ev_writes by lia
    | rewrite sent_send_eq
    | rewrite sent_send_ne by lia
    | rewrite sent_ev_send_request
    | rewrite sent_ev_send_request_other by lia
    | rewrite app_nil_r
    | progress cbn [sent app] ].


(** ** The shares built by the coordinator *)

Lemma Forall_zip_with2 {A B C : Type} (P : A -> Prop) (Q : B -> Prop) (R : C -> Prop)
    (g : A -> B -> C) (l : list A) (k : list B) :
  (forall x y, P x -> Q y -> R (g x y)) ->
  Forall P l -> Forall Q k -> Forall R (zip_with g l k).
Proof.
  intros Hg Hl. revert k. induction Hl as [|x l Hx Hl IH]; intros k Hk; [constructor|].
  destruct Hk as [|y k Hy Hk]; cbn [zip_with]; constructor; auto.
Qed.

Lemma i64_small (x : Z) : -1024 <= x <= 1024 -> i64 x.
Proof. unfold i64, i64_min, i64_max. lia. Qed.

Lemma basis_share_lengths dim idx val tape :
  length (fst (Coordinator.basis_share dim idx val tape)) = Z.to_nat dim
  /\ length (snd (Coordinator.basis_share dim idx val tape)) = Z.to_nat dim.
Proof.
  unfold Coordinator.basis_share. cbn [fst snd].
  rewrite length_zip_with, length_insert, length_replicate, length_random_vec. lia.
Qed.

Lemma basis_share_f_range dim idx val tape :
  Forall i64 (snd (Coordinator.basis_share dim idx val tape)).
Proof.
  unfold Coordinator.basis_share. cbn [snd].
  eapply Forall_impl; [apply random_vec_range|]. cbn. intros x Hx. apply i64_small. lia.
Qed.

Lemma basis_share_unit_range dim idx tape :
  Forall i64 (fst (Coordinator.basis_share dim idx 1 tape)).
Proof.
  unfold Coordinator.basis_share. cbn [fst].
  apply (Forall_zip_with2 (fun x => 0 <= x <= 1) (fun y => 1 <= y <= 1024)).
  - intros x y Hx Hy. apply i64_small. lia.
  - apply Forall_insert; [apply Forall_replicate|]; lia.
  - apply random_vec_range.
Qed.

Lemma basis_share_sum dim idx val tape :
  zip_with Z.add (fst (Coordinator.basis_share dim idx val tape))
                 (snd (Coordinator.basis_share dim idx val tape))
  = <[Z.to_nat idx := val]> (replicate (Z.to_nat dim) 0).
Proof.
  unfold Coordinator.basis_share. cbn [fst snd]. apply zip_sub_add.
  now rewrite length_insert, length_replicate, length_random_vec.
Qed.



(** ** The coordinator's [main], fault-free *)

Lemma thread_ok {A : Type} (body : M A) (w w' : world) (x : A) :
  body w = (Ok x, w') -> Coordinator.thread body w = (Ok (Some x), w').
Proof.
  intros H. unfold Coordinator.thread, try_except.
  erewrite bind_ok by exact H. reflexivity.
Qed.

Section MainRuns.

Variable f : nat -> bool.
Hypothesis quiet : forall n, f n = false.

Variables (a : list Z) (t : gmap Z (list sock)).



End MainRuns.

(** ** The value a READ reconstructs *)

Section Reconstruction.

Variables (dim : Z) (j : Z).
Hypothesis Hj : 0 <= j < dim.

Let n : nat := Z.to_nat dim.

Let basis_shares := Coordinator.basis_shares dim.



End Reconstruction.


(** ** The dealer *)

Lemma sent_ev_send_share (s : sock) dim sid a_i b_i c_i :
  sent s (Dealer.ev_send_share s dim sid a_i b_i c_i) = share_frame dim sid a_i b_i c_i.
Proof.
  unfold Dealer.ev_send_share, share_frame.
  repeat (progress (cbn [app sent];
                    rewrite ?Nat.eqb_refl, ?sent_app, ?sent_sends, ?app_nil_r)).
  reflexivity.
Qed.

Lemma sent_ev_send_share_other (s s' : sock) dim sid a_i b_i c_i :
  s' <> s -> sent s (Dealer.ev_send_share s' dim sid a_i b_i c_i) = [].
Proof.
  intros Hne. unfold Dealer.ev_send_share.
  assert (E : Nat.eqb s' s = false) by (now apply Nat.eqb_neq).
  repeat (progress (cbn [app sent];
                    rewrite ?E, ?sent_app, ?sent_sends_other by exact Hne)).
  reflexivity.
Qed.

Lemma dot_bounds (a b : list Z) (k : Z) :
  0 <= k ->
  Forall (fun x => 0 <= x <= k) a -> Forall (fun x => 0 <= x <= k) b ->
  0 <= dot a b <= Z.of_nat (length a) * (k * k).
Proof.
  intros Hk Ha. revert b. induction Ha as [|x a Hx Ha IH]; intros b Hb.
  - rewrite dot_nil_l. cbn. lia.
  - destruct Hb as [|y b Hy Hb]; [rewrite dot_nil_r; cbn [length]; nia|].
    rewrite dot_cons. specialize (IH b Hb). cbn [length]. nia.
Qed.

Lemma triple_of_facts (dim : Z) (tape : list Z) :
  0 <= dim < 2 ^ 32 ->
  let t := Dealer.triple_of dim tape in
  0 <= Dealer.t_sid t < 2 ^ 63
  /\ len (Dealer.t_a0 t) = dim /\ len (Dealer.t_b0 t) = dim
  /\ len (Dealer.t_a1 t) = dim /\ len (Dealer.t_b1 t) = dim
  /\ dot (zip_with Z.add (Dealer.t_a0 t) (Dealer.t_a1 t))
         (zip_with Z.add (Dealer.t_b0 t) (Dealer.t_b1 t))
     = Dealer.t_c0 t + Dealer.t_c1 t
  /\ Forall i64 (Dealer.t_a0 t) /\ Forall i64 (Dealer.t_b0 t) /\ i64 (Dealer.t_c0 t)
  /\ Forall i64 (Dealer.t_a1 t) /\ Forall i64 (Dealer.t_b1 t) /\ i64 (Dealer.t_c1 t)
  /\ i64 (Dealer.t_sid t).
Proof.
  intros Hdim t. unfold t, Dealer.triple_of.
  cbn [Dealer.t_sid Dealer.t_a0 Dealer.t_b0 Dealer.t_c0 Dealer.t_a1 Dealer.t_b1 Dealer.t_c1].
  set (n := Z.to_nat dim).
  set (a0 := random_vec n tape). set (a1 := random_vec n (drop n tape)).
  set (b0 := random_vec n (drop n (drop n tape))).
  set (b1 := random_vec n (drop n (drop n (drop n tape)))).
  set (tape4 := drop n (drop n (drop n (drop n tape)))).
  assert (Hs : 0 <= hd 0 (drop 1 tape4) mod 2 ^ 63 < 2 ^ 63) by (apply Z.mod_pos_bound; lia).
  assert (Hc0 : 1 <= 1 + hd 0 tape4 mod (1024 - 1 + 1) <= 1024).
  { pose proof (Z.mod_pos_bound (hd 0 tape4) (1024 - 1 + 1) ltac:(lia)). lia. }
  assert (Hl : forall tp, len (random_vec n tp) = dim).
  { intros tp. unfold len. rewrite length_random_vec. unfold n. lia. }
  assert (Hr : forall tp, Forall i64 (random_vec n tp)).
  { intros tp. eapply Forall_impl; [apply random_vec_range|]. cbn. intros x Hx.
    apply i64_small. lia. }
  assert (Hsum : forall tp tp', Forall (fun x => 0 <= x <= 2048)
                                  (zip_with Z.add (random_vec n tp) (random_vec n tp'))).
  { intros tp tp'.
    apply (Forall_zip_with2 (fun x => 1 <= x <= 1024) (fun y => 1 <= y <= 1024));
      [intros; lia|apply random_vec_range|apply random_vec_range]. }
  pose proof (dot_bounds (zip_with Z.add a0 a1) (zip_with Z.add b0 b1) 2048 ltac:(lia)
                (Hsum _ _) (Hsum _ _)) as Hdot.
  assert (Hlz : length (zip_with Z.add a0 a1) = n).
  { unfold a0, a1. rewrite length_zip_with, !length_random_vec. lia. }
  rewrite Hlz in Hdot.
  assert (Hn : Z.of_nat n = dim) by (unfold n; lia). rewrite Hn in Hdot.
  repeat split; try apply Hl; try apply Hr; try lia;
    unfold i64, i64_min, i64_max; try lia.
Qed.

Section DealerRuns.

Variable f : nat -> bool.
Hypothesis quiet : forall n, f n = false.

Variables (a : list Z).

Lemma generate_ok dim t tape n ib ub rb d lg :
  Dealer.generate dim (World a t tape n ib ub rb d f lg)
  = (Ok (Dealer.triple_of dim tape),
     World a t (drop 1 (drop 1 (drop (Z.to_nat dim) (drop (Z.to_nat dim)
                  (drop (Z.to_nat dim) (drop (Z.to_nat dim) tape))))))
           n ib ub rb d f lg).
Proof.
  unfold Dealer.generate, Dealer.rand_vec, Dealer.rand_elem.
  do 4 (erewrite bind_ok by apply rand_vec_run; rewrite range_length).
  erewrite bind_ok by apply randint_run.
  erewrite bind_ok by apply getrandbits_run.
  reflexivity.
Qed.

Lemma send_share_ok s dim sid a_i b_i c_i t r n ib ub rb d lg :
  0 <= dim < 2 ^ 32 -> i64 sid -> Forall i64 a_i -> Forall i64 b_i -> i64 c_i ->
  Dealer.send_share s dim sid a_i b_i c_i (World a t r n ib ub rb d f lg)
  = (Ok tt, World a t r n ib ub rb d f (lg ++ Dealer.ev_send_share s dim sid a_i b_i c_i)).
Proof.
  intros Hdim Hsid Fa Fb Hc. unfold Dealer.send_share.
  run ltac:(apply pack_u8_ok; unfold OP_RESPONSE; lia).
  run ltac:(apply sendall_ok; exact quiet).
  run ltac:(apply pack_u32_ok).
  run ltac:(apply sendall_ok; exact quiet).
  run ltac:(apply pack_i64_ok; exact Hsid).
  run ltac:(apply sendall_ok; exact quiet).
  run ltac:(apply send_i64s_ok; [exact quiet|exact Fa]).
  run ltac:(apply send_i64s_ok; [exact quiet|exact Fb]).
  run ltac:(apply pack_i64_ok; exact Hc).
  rewrite sendall_ok by exact quiet.
  rewrite Z.mod_small by lia.
  unfold Dealer.ev_send_share. repeat rewrite <- app_assoc. reflexivity.
Qed.

End DealerRuns.

Lemma try_except_ok {A : Type} (body : M A) (h : exn -> M A) (w w' : world) (x : A) :
  body w = (Ok x, w') -> try_except body h w = (Ok x, w').
Proof. unfold try_except. intros ->. reflexivity. Qed.

Lemma try_pass_ok (body : M unit) (w w' : world) :
  body w = (Ok tt, w') -> try_pass body w = (Ok tt, w').
Proof. apply try_except_ok. Qed.

Section DealerPairing.

Variable f : nat -> bool.
Hypothesis quiet : forall n, f n = false.

Variables (a : list Z).

Lemma shutdown_ok s t r n ib ub rb d lg :
  shutdown s (World a t r n ib ub rb d f lg)
  = (Ok tt, World a t r n ib ub rb d f (lg ++ [EvShutdown s])).
Proof. unfold shutdown, faulty. cbn. now rewrite quiet. Qed.

Lemma pair_or_wait_paired dim conn peer (t : gmap Z (list sock)) r n ib ub rb d lg :
  t !! dim = Some [peer] ->
  Dealer.pair_or_wait dim conn (World a t r n ib ub rb d f lg)
  = (Ok (Some peer),
     World a (delete dim (<[dim := []]> t)) r n ib ub rb d f
           (lg ++ [EvWaiting (<[dim := []]> t); EvWaiting (delete dim (<[dim := []]> t))])).
Proof.
  intros Ht. unfold Dealer.pair_or_wait.
  erewrite bind_ok.
  2:{ unfold Dealer.waiting_getitem. cbn [waiting]. rewrite Ht. reflexivity. }
  cbv beta iota.
  erewrite bind_ok.
  2:{ unfold Dealer.popleft. cbn [waiting]. rewrite Ht. reflexivity. }
  erewrite bind_ok.
  2:{ unfold Dealer.deque_of, set_waiting. cbn [waiting]. rewrite lookup_insert_eq.
      reflexivity. }
  cbn [default from_option id]. cbv beta iota.
  erewrite bind_ok by reflexivity.
  unfold ret, set_waiting. cbn. rewrite <- app_assoc. reflexivity.
Qed.

Lemma pair_or_wait_first dim conn (t : gmap Z (list sock)) r n ib ub rb d lg :
  t !! dim = None ->
  Dealer.pair_or_wait dim conn (World a t r n ib ub rb d f lg)
  = (Ok None,
     World a (<[dim := [conn]]> (<[dim := []]> t)) r n ib ub rb d f
           (lg ++ [EvWaiting (<[dim := []]> t);
                   EvWaiting (<[dim := [conn]]> (<[dim := []]> t))])).
Proof.
  intros Ht. unfold Dealer.pair_or_wait.
  erewrite bind_ok.
  2:{ unfold Dealer.waiting_getitem. cbn [waiting]. rewrite Ht. reflexivity. }
  cbv beta iota.
  erewrite bind_ok.
  2:{ unfold Dealer.append, set_waiting. cbn [waiting]. rewrite lookup_insert_eq.
      reflexivity. }
  unfold ret. cbn. rewrite <- app_assoc. reflexivity.
Qed.

(** The socket calls and table states of a pairing arrival. *)
Lemma handle_one_paired_ok dim conn peer rest (t : gmap Z (list sock)) tape n ib ub rb d lg :
  1 <= dim < 2 ^ 32 ->
  t !! dim = Some [peer] ->
  ib !! conn = Some (enc_u8 OP_REQUEST ++ enc_u32 dim ++ rest) ->
  let tr := Dealer.triple_of dim tape in
  exists tape',
    Dealer.handle_one conn (World a t tape n ib ub rb d f lg)
    = (Ok tt,
       World a (delete dim (<[dim := []]> t)) tape' n (<[conn := rest]> ib) ub rb d f
             (lg ++ [EvRecv conn (enc_u8 OP_REQUEST); EvRecv conn (enc_u32 dim);
                     EvWaiting (<[dim := []]> t);
                     EvWaiting (delete dim (<[dim := []]> t))]
                 ++ Dealer.ev_send_share peer dim (Dealer.t_sid tr) (Dealer.t_a0 tr)
                      (Dealer.t_b0 tr) (Dealer.t_c0 tr)
                 ++ [EvShutdown peer; EvClose peer]
                 ++ Dealer.ev_send_share conn dim (Dealer.t_sid tr) (Dealer.t_a1 tr)
                      (Dealer.t_b1 tr) (Dealer.t_c1 tr)
                 ++ [EvShutdown conn; EvClose conn])).
Proof.
  intros Hdim Ht Hib tr.
  destruct (triple_of_facts dim tape ltac:(lia))
    as (Hsid & La0 & Lb0 & La1 & Lb1 & Hinv & Fa0 & Fb0 & Fc0 & Fa1 & Fb1 & Fc1 & Fsid).
  fold tr in Hsid, La0, Lb0, La1, Lb1, Hinv, Fa0, Fb0, Fc0, Fa1, Fb1, Fc1, Fsid.
  eexists. unfold Dealer.handle_one.
  apply try_except_ok.
  run ltac:(apply read_u8_ok; [exact quiet|exact Hib|unfold OP_REQUEST; lia]).
  rewrite Z.eqb_refl. cbn [negb].
  run ltac:(apply read_u32_ok; [exact quiet|apply lookup_insert_eq|lia]).
  rewrite insert_insert_eq.
  destruct (Z.eqb_spec dim 0) as [?|_]; [lia|].
  run ltac:(apply pair_or_wait_paired; exact Ht).
  cbv iota.
  run ltac:(apply generate_ok).
  fold tr.
  erewrite bind_ok.
  2:{ eapply try_finally_ok.
      - apply send_share_ok; [exact quiet|lia|assumption..].
      - erewrite bind_ok by (apply try_pass_ok, shutdown_ok). apply close_ok. }
  eapply try_finally_ok.
  - apply send_share_ok; [exact quiet|lia|assumption..].
  - erewrite bind_ok by (apply try_pass_ok, shutdown_ok).
    rewrite close_ok. repeat rewrite <- app_assoc. reflexivity.
Qed.

End DealerPairing.

(** ** The pairing table *)

Lemma at_most_one_empty : Dealer.at_most_one ∅.
Proof. intros dim dq H. rewrite lookup_empty in H. discriminate. Qed.

Lemma at_most_one_insert (t : gmap Z (list sock)) (dim : Z) (dq : list sock) :
  Dealer.at_most_one t -> (length dq <= 1)%nat -> Dealer.at_most_one (<[dim := dq]> t).
Proof.
  intros Ht Hdq dim' dq' H. destruct (decide (dim = dim')) as [->|Hne].
  - rewrite lookup_insert_eq in H. now injection H as <-.
  - rewrite lookup_insert_ne in H by exact Hne. eapply Ht; eauto.
Qed.

Lemma at_most_one_delete (t : gmap Z (list sock)) (dim : Z) :
  Dealer.at_most_one t -> Dealer.at_most_one (delete dim t).
Proof.
  intros Ht dim' dq' H. destruct (decide (dim = dim')) as [->|Hne].
  - rewrite lookup_delete_eq in H. discriminate.
  - rewrite lookup_delete_ne in H by exact Hne. eapply Ht; eauto.
Qed.

Lemma pair_or_wait_inv (dim : Z) (conn : sock) (w : world) :
  Dealer.dealer_inv w -> Dealer.dealer_inv (snd (Dealer.pair_or_wait dim conn w)).
Proof.
  destruct w as [a t r n ib ub rb d f lg]. unfold Dealer.dealer_inv. cbn [waiting log].
  intros [Ht Hlg].
  assert (H0 : Dealer.at_most_one (<[dim := []]> t)).
  { apply at_most_one_insert; [exact Ht|cbn; lia]. }
  assert (H1 : forall t', Dealer.at_most_one t' -> Dealer.at_most_one (<[dim := [conn]]> t')).
  { intros t' Ht'. apply at_most_one_insert; [exact Ht'|cbn; lia]. }
  assert (Hsnap : forall t', Dealer.at_most_one t' -> Dealer.snapshot_ok (EvWaiting t')).
  { intros t' Ht'. exact Ht'. }
  destruct (t !! dim) as [[|p dq]|] eqn:E.
  - (* an empty deque is stored: the connection is appended *)
    assert (R : Dealer.pair_or_wait dim conn (World a t r n ib ub rb d f lg)
                = (Ok None, World a (<[dim := [conn]]> t) r n ib ub rb d f
                              (lg ++ [EvWaiting (<[dim := [conn]]> t)]))).
    { unfold Dealer.pair_or_wait, bind, Dealer.waiting_getitem. cbn [waiting].
      rewrite E. unfold Dealer.append, set_waiting. cbn [waiting]. rewrite E. reflexivity. }
    rewrite R. cbn [snd waiting log]. split; [now apply H1|].
    apply Forall_app. split; [exact Hlg|]. constructor; [|constructor].
    apply Hsnap. now apply H1.
  - (* a waiter: it is taken, and the key removed if the deque is empty *)
    pose proof (Ht dim (p :: dq) E) as Hlen.
    destruct dq as [|q dq]; [|cbn in Hlen; lia].
    erewrite pair_or_wait_paired by exact E.
    cbn [snd waiting log]. split; [now apply at_most_one_delete|].
    apply Forall_app. split; [exact Hlg|].
    constructor; [now apply Hsnap|]. constructor; [|constructor].
    apply Hsnap. now apply at_most_one_delete.
  - (* no entry: the default deque is created, then the connection appended *)
    erewrite pair_or_wait_first by exact E.
    cbn [snd waiting log]. split; [now apply H1|].
    apply Forall_app. split; [exact Hlg|].
    constructor; [now apply Hsnap|]. constructor; [|constructor].
    apply Hsnap. now apply H1.
Qed.

Lemma critical_regions_inv (arrivals : list (Z * sock)) (w : world) :
  Dealer.dealer_inv w -> Dealer.dealer_inv (snd (Dealer.critical_regions arrivals w)).
Proof.
  unfold Dealer.critical_regions. revert w.
  induction arrivals as [|[dim conn] ars IH]; intros w Hw; [exact Hw|].
  cbn [for_each fst snd].
  pose proof (pair_or_wait_inv dim conn w Hw) as H1.
  unfold bind at 1. unfold bind at 1.
  destruct (Dealer.pair_or_wait dim conn w) as [[o|e|] w1]; cbn [snd] in *; auto.
  unfold ret. apply IH. exact H1.
Qed.

(** ** A READ from its setup *)

Lemma sent_ev_read_exchanges_old cfg (s conn n : sock) mem e sid a_i b_i c_i pe01 pe10 :
  (s < n)%nat ->
  sent s (Party.ev_read_exchanges cfg conn n mem e sid a_i b_i c_i pe01 pe10) = [].
Proof.
  intros Hlt. unfold Party.ev_read_exchanges, Party.ev_dta_cross.
  destruct (Party.is_A (Party.cfg_role cfg)), (Party.is_B (Party.cfg_role cfg));
    sent_simpl; reflexivity.
Qed.

Lemma handle_read_setup cfg conn (w : world) e sid a_i b_i c_i pe01 pe10 :
  Party.read_setup cfg conn w e sid a_i b_i c_i pe01 pe10 ->
  let v := Party.read_value (Party.cfg_role cfg) (A_share w) e a_i b_i c_i pe01 pe10 in
  exists w',
    Party.handle cfg conn w = (if fits_i64 v then Ok tt else Raise StructError, w')
    /\ A_share w' = A_share w
    /\ log w'
       = log w
         ++ Party.ev_read_exchanges cfg conn (next_sock w) (A_share w) e sid a_i b_i c_i
              pe01 pe10
         ++ (if fits_i64 v then [EvSend conn (enc_i64 v)] else []).
Proof.
  intros (Q & Hrows & Hlt & Hmem & Fe & Hib & [d Hd] & [rb Hrb] & Hsid & La & Lb & Fa & Fb
          & Hc & L1 & L2 & L3 & L4 & F1 & F2 & F3 & F4 & P1 & P2 & P3 & P4 & Hfresh) v.
  destruct w as [mem t r n ib ub rb0 d0 f lg]. unfold quiet in Q.
  cbn [A_share inbox dials res_backlog fault log next_sock] in *. subst d0 rb0.
  destruct (handle_read_run f Q t r cfg conn mem e sid a_i b_i c_i pe01 pe10
              [] [] [] [] [] [] n ib ub rb d lg) as [ib' E]; auto.
  { now rewrite app_nil_r. }
  rewrite !app_nil_r in E. rewrite E. fold v.
  destruct (fits_i64 v); eexists; (split; [reflexivity|]); cbn [A_share log];
    (split; [reflexivity|]); unfold Party.ev_read; now rewrite ?app_nil_r.
Qed.

(** ** Computations that do not touch the memory share *)

Section Keeps.

Lemma keeps_ret {A : Type} (x : A) : keeps_A_share (ret x).
Proof. intros w. reflexivity. Qed.

Lemma keeps_raise {A : Type} (e : exn) : keeps_A_share (@raise A e).
Proof. intros w. reflexivity. Qed.

Lemma keeps_lift {A : Type} (r : result A) : keeps_A_share (lift r).
Proof. intros w. reflexivity. Qed.

Lemma keeps_bind {A B : Type} (m : M A) (k : A -> M B) :
  keeps_A_share m -> (forall x, keeps_A_share (k x)) -> keeps_A_share (bind m k).
Proof.
  intros Hm Hk w. unfold bind. specialize (Hm w).
  destruct (m w) as [[x|e|] w1]; cbn [snd] in *; auto.
  now rewrite Hk.
Qed.

Lemma keeps_if {A : Type} (b : bool) (m1 m2 : M A) :
  keeps_A_share m1 -> keeps_A_share m2 -> keeps_A_share (if b then m1 else m2).
Proof. destruct b; auto. Qed.

Lemma keeps_try_finally {A : Type} (body : M A) (fin : M unit) :
  keeps_A_share body -> keeps_A_share fin -> keeps_A_share (try_finally body fin).
Proof.
  intros Hb Hf w. unfold try_finally. specialize (Hb w).
  destruct (body w) as [[x|e|] w1]; cbn [snd] in *; auto.
  - rewrite <- Hb. apply keeps_bind; [exact Hf|intros; apply keeps_ret].
  - rewrite <- Hb. apply keeps_bind; [exact Hf|intros; apply keeps_raise].
Qed.

Lemma keeps_for_each {A : Type} (l : list A) (g : A -> M unit) :
  (forall x, keeps_A_share (g x)) -> keeps_A_share (for_each l g).
Proof.
  intros Hg. induction l as [|x l IH]; cbn [for_each]; [apply keeps_ret|].
  apply keeps_bind; auto.
Qed.

Lemma keeps_for_list {A B : Type} (l : list A) (g : A -> M B) :
  (forall x, keeps_A_share (g x)) -> keeps_A_share (for_list l g).
Proof.
  intros Hg. induction l as [|x l IH]; cbn [for_list]; [apply keeps_ret|].
  apply keeps_bind; [auto|]. intros y. apply keeps_bind; [exact IH|].
  intros ys. apply keeps_ret.
Qed.

Lemma keeps_accept l : keeps_A_share (accept l).
Proof. intros w. unfold accept. destruct (backlog w l); reflexivity. Qed.

Lemma keeps_connect host port : keeps_A_share (connect host port).
Proof.
  intros w. unfold connect. destruct (faulty w); [reflexivity|].
  destruct (dials w); reflexivity.
Qed.

Lemma keeps_sendall s bs : keeps_A_share (sendall s bs).
Proof. intros w. unfold sendall. destruct (faulty w); reflexivity. Qed.

Lemma keeps_close s : keeps_A_share (close s).
Proof. intros w. reflexivity. Qed.

Lemma keeps_recv_exact s n : keeps_A_share (recv_exact s n).
Proof.
  intros w. unfold recv_exact. destruct n; [reflexivity|].
  destruct (faulty w); [reflexivity|].
  destruct (_ <? _)%nat; reflexivity.
Qed.

Lemma keeps_getitem l i : keeps_A_share (getitem l i).
Proof. unfold getitem. destruct (l !! i); [apply keeps_ret|apply keeps_raise]. Qed.

Lemma keeps_get_A_share : keeps_A_share Party.get_A_share.
Proof. intros w. reflexivity. Qed.

End Keeps.

Ltac keeps :=
  repeat first
    [ apply keeps_ret | apply keeps_raise | apply keeps_lift
    | apply keeps_accept | apply keeps_connect | apply keeps_sendall | apply keeps_close
    | apply keeps_recv_exact | apply keeps_getitem | apply keeps_get_A_share
    | apply keeps_for_each; intros ?
    | apply keeps_for_list; intros ?
    | apply keeps_if
    | apply keeps_try_finally
    | apply keeps_bind; [|intros ?]
    | progress cbv zeta
    | match goal with |- keeps_A_share (match ?r with Party.RoleA => _ | Party.RoleB => _ end) =>
        destruct r end ].

Lemma keeps_read_u8 s : keeps_A_share (read_u8 s).
Proof. unfold read_u8. keeps. Qed.

Lemma keeps_read_u32 s : keeps_A_share (read_u32 s).
Proof. unfold read_u32. keeps. Qed.

Lemma keeps_read_i64 s : keeps_A_share (read_i64 s).
Proof. unfold read_i64. keeps. Qed.

Lemma keeps_send_two_vecs host port sid tag u v :
  keeps_A_share (Party.send_two_vecs host port sid tag u v).
Proof. unfold Party.send_two_vecs, pack_i64, pack_u8, pack_u32. keeps. Qed.

Lemma keeps_recv_two_vecs l sid tag dim : keeps_A_share (Party.recv_two_vecs l sid tag dim).
Proof. unfold Party.recv_two_vecs, read_i64, read_u8, read_u32. keeps. Qed.

Lemma keeps_dta_cross r l host port sid tag x my a_i b_i c_i :
  keeps_A_share (Party.dta_cross r l host port sid tag x my a_i b_i c_i).
Proof.
  unfold Party.dta_cross. cbv zeta.
  apply keeps_bind.
  - destruct x; keeps; first [apply keeps_send_two_vecs|apply keeps_recv_two_vecs].
  - intros parts. keeps.
Qed.

Lemma keeps_fetch_share host port dim : keeps_A_share (Party.fetch_share host port dim).
Proof.
  unfold Party.fetch_share, pack_u8, pack_u32, read_u8, read_u32, read_i64. keeps.
Qed.

(** Reading the op byte: what is returned is the first byte delivered. *)
Lemma read_u8_inv s (w w1 : world) (op : Z) :
  read_u8 s w = (Ok op, w1) ->
  exists b rest, inbox w !! s = Some (b :: rest) /\ op = Z_of_byte b.
Proof.
  unfold read_u8, bind, recv_exact. destruct (faulty w); [discriminate|].
  destruct (inbox w !! s) as [[|b rest]|]; cbn; try discriminate.
  intros H. injection H as <- _. exists b, rest. split; [reflexivity|].
  unfold struct_unpack_unsigned, be_value. cbn. lia.
Qed.

Lemma byte_of_Z_of_byte (b : byte) : byte_of_Z (Z_of_byte b) = b.
Proof.
  unfold byte_of_Z. pose proof (Z_of_byte_range b) as Hr.
  rewrite Z.mod_small by lia. unfold Z_of_byte. rewrite N2Z.id, Byte.of_to_N. reflexivity.
Qed.

(** ** A mismatching residual frame *)

Lemma sent_recvs_on (s rs : sock) (evs : list event) :
  Forall (fun ev => exists bs, ev = EvRecv rs bs) evs -> sent s evs = [].
Proof.
  induction 1 as [|ev evs [bs ->] _ IH]; [reflexivity|exact IH].
Qed.

Lemma recvs_on_map (rs : sock) (xs : list Z) :
  Forall (fun ev => exists bs, ev = EvRecv rs bs) (map (fun x => EvRecv rs (enc_i64 x)) xs).
Proof. apply Forall_map, Forall_forall. intros x _. now eexists. Qed.

Section Mismatch.

Variable f : nat -> bool.
Hypothesis quiet : forall n, f n = false.

Variables (a : list Z) (t : gmap Z (list sock)) (r : list Z).

Lemma recv_two_vecs_bad sid tag dim bs n ib ub rb d lg :
  i64 sid -> 0 <= tag <= 255 -> 0 <= dim < 2 ^ 32 ->
  Party.bad_residual sid tag dim bs ->
  exists msg ib' recvs,
    Party.recv_two_vecs res_ls sid tag dim (World a t r n ib ub (bs :: rb) d f lg)
    = (Raise (RuntimeError msg),
       World a t r (S n) ib' ub rb d f (lg ++ [EvAccept res_ls n] ++ recvs ++ [EvClose n]))
    /\ Forall (fun ev => exists bs, ev = EvRecv n bs) recvs.
Proof.
  intros Hsid0 Htag0 Hdim0
         [(sid' & tag' & dim1 & rest & -> & Hsid & Htag & Hdim & Hne)
         |(u & dim2 & rest & -> & Hu & Fu & Hdim2 & Hne)].
  - exists "peer residual header mismatch (u_part)"%string. eexists.
    exists [EvRecv n (enc_i64 sid'); EvRecv n (enc_u8 tag'); EvRecv n (enc_u32 dim1)].
    split; [|repeat constructor; now eexists].
    unfold Party.recv_two_vecs.
    run ltac:(apply accept_res_ok).
    run ltac:(apply read_i64_ok; [exact quiet|apply lookup_insert_eq|exact Hsid]).
    run ltac:(apply read_u8_ok; [exact quiet|apply lookup_insert_eq|lia]).
    run ltac:(apply read_u32_ok; [exact quiet|apply lookup_insert_eq|lia]).
    assert (Hc : negb (sid' =? sid) || negb (tag' =? tag) || negb (dim1 =? dim) = true).
    { destruct (Z.eqb_spec sid' sid), (Z.eqb_spec tag' tag), (Z.eqb_spec dim1 dim);
        cbn; try reflexivity. destruct Hne as [?|[?|?]]; contradiction. }
    rewrite Hc.
    run ltac:(apply close_ok).
    unfold raise. repeat rewrite <- app_assoc. reflexivity.
  - exists "peer residual header mismatch (v_part)"%string. eexists.
    exists ([EvRecv n (enc_i64 sid); EvRecv n (enc_u8 tag); EvRecv n (enc_u32 dim)]
            ++ map (fun x => EvRecv n (enc_i64 x)) u ++ [EvRecv n (enc_u32 dim2)]).
    split.
    2:{ repeat (constructor; [now eexists|]).
        apply Forall_app. split; [apply recvs_on_map|].
        repeat constructor. now eexists. }
    unfold Party.recv_two_vecs.
    run ltac:(apply accept_res_ok).
    run ltac:(apply read_i64_ok; [exact quiet|apply lookup_insert_eq|exact Hsid0]).
    run ltac:(apply read_u8_ok; [exact quiet|apply lookup_insert_eq|lia]).
    run ltac:(apply read_u32_ok; [exact quiet|apply lookup_insert_eq|lia]).
    rewrite !Z.eqb_refl. cbn [negb orb].
    run ltac:(apply recv_i64s_ok;
              [exact quiet|rewrite <- Hu, range_len; apply length_seq|exact Fu|apply lookup_insert_eq]).
    run ltac:(apply read_u32_ok; [exact quiet|apply lookup_insert_eq|lia]).
    assert (Hc : negb (dim2 =? dim) = true).
    { destruct (Z.eqb_spec dim2 dim); [contradiction|reflexivity]. }
    rewrite Hc.
    run ltac:(apply close_ok).
    unfold raise. repeat rewrite <- app_assoc. reflexivity.
Qed.

(** A cross-term whose incoming frame mismatches raises right after
    closing the socket it accepted, having sent nothing on any older
    socket. *)
Lemma dta_cross_bad role host port sid tag (x_side : bool) my a_i b_i c_i
    bad bs n ib ub rb d lg :
  i64 sid -> 0 <= tag <= 255 -> len my < 2 ^ 32 ->
  length a_i = length my -> length b_i = length my ->
  Forall i64 (fst (Party.my_parts x_side my a_i b_i)) ->
  Forall i64 (snd (Party.my_parts x_side my a_i b_i)) ->
  Party.bad_residual sid tag (len my) bad ->
  exists msg n' ib' d' pre rs recvs,
    Party.dta_cross role res_ls host port sid tag x_side my a_i b_i c_i
      (World a t r n ib ub (bad :: rb) (bs :: d) f lg)
    = (Raise (RuntimeError msg),
       World a t r n' ib' ub rb d' f
             (lg ++ pre ++ [EvAccept res_ls rs] ++ recvs ++ [EvClose rs]))
    /\ Forall (fun ev => exists bs, ev = EvRecv rs bs) recvs
    /\ (n <= rs)%nat
    /\ (forall s, (s < n)%nat -> sent s pre = []).
Proof.
  intros Hsid Htag Hdim Ha Hb Fme1 Fme2 Hbad.
  pose proof (len_nonneg my) as Hnn.
  unfold Party.dta_cross. rewrite range_len.
  destruct x_side; cbn [Party.my_parts Party.x_side_parts Party.y_side_parts fst snd] in *.
  - rewrite bind_assoc.
    run ltac:(apply comprehension2; congruence).
    rewrite bind_assoc.
    run ltac:(apply comprehension1; congruence).
    rewrite bind_assoc.
    run ltac:(apply send_two_vecs_ok;
              [exact quiet|exact Hsid|exact Htag| | |exact Fme1|exact Fme2];
              unfold len in *; rewrite ?length_zip_with, ?length_map; lia).
    rewrite bind_assoc.
    edestruct (recv_two_vecs_bad sid tag (len my) bad (S n)) as (msg & ib' & evs & E & Hev);
      [exact Hsid|exact Htag|lia|exact Hbad|].
    erewrite bind_raise by (apply E).
    exists msg. do 3 eexists.
    eexists (Party.ev_send_two_vecs host port n sid tag _ _), (S n), evs.
    split; [rewrite <- app_assoc; reflexivity|].
    split; [exact Hev|]. split; [lia|].
    intros s Hs. apply sent_ev_send_two_vecs_other. lia.
  - rewrite bind_assoc.
    run ltac:(apply comprehension1; congruence).
    rewrite bind_assoc.
    run ltac:(apply comprehension2; congruence).
    rewrite bind_assoc.
    edestruct (recv_two_vecs_bad sid tag (len my) bad n) as (msg & ib' & evs & E & Hev);
      [exact Hsid|exact Htag|lia|exact Hbad|].
    erewrite bind_raise by (apply E).
    exists msg. do 3 eexists.
    exists [], n, evs.
    split; [reflexivity|].
    split; [exact Hev|]. split; [lia|].
    intros s Hs. reflexivity.
Qed.

End Mismatch.

Section MismatchHandle.

Variable f : nat -> bool.
Hypothesis quiet : forall n, f n = false.

Variables (t : gmap Z (list sock)) (r : list Z).

Lemma handle_read_bad cfg conn (mem e : list Z) sid a_i b_i c_i
    rest0 rest1 bs1 bs2 n ib ub rbk d lg :
  len e = Party.rows cfg -> Party.rows cfg < 2 ^ 32 ->
  length mem = length e -> Forall i64 e ->
  ib !! conn = Some (request OP_READ_SECURE e ++ rest0) ->
  i64 sid -> length a_i = length e -> length b_i = length e ->
  Forall i64 a_i -> Forall i64 b_i -> i64 c_i ->
  Forall i64 (fst (Party.parts01 (Party.cfg_role cfg) mem e a_i b_i)) ->
  Forall i64 (snd (Party.parts01 (Party.cfg_role cfg) mem e a_i b_i)) ->
  Forall i64 (fst (Party.parts10 (Party.cfg_role cfg) mem e a_i b_i)) ->
  Forall i64 (snd (Party.parts10 (Party.cfg_role cfg) mem e a_i b_i)) ->
  (conn < n)%nat ->
  (exists bad rb, rbk = bad :: rb /\ Party.bad_residual sid 1 (Party.rows cfg) bad)
  \/ (exists u v r1 bad rb,
        rbk = (Party.residual_frame sid 1 u v ++ r1) :: bad :: rb
        /\ length u = length e /\ length v = length e /\ Forall i64 u /\ Forall i64 v
        /\ Party.bad_residual sid 16 (Party.rows cfg) bad) ->
  exists msg n' ib' rb' d' pre rs recvs,
    Party.handle cfg conn
      (World mem t r n ib ub rbk
             ((share_frame (Party.rows cfg) sid a_i b_i c_i ++ rest1) :: bs1 :: bs2 :: d)
             f lg)
    = (Raise (RuntimeError msg),
       World mem t r n' ib' ub rb' d' f
             (lg ++ pre ++ [EvAccept res_ls rs] ++ recvs ++ [EvClose rs]))
    /\ Forall (fun ev => exists bs, ev = EvRecv rs bs) recvs
    /\ (n < rs)%nat
    /\ sent conn pre = [].
Proof.
  intros Hrows Hlt Hmem Fe Hib Hsid La Lb Fa Fb Hc P1 P2 P3 P4 Hconn Hbk.
  unfold Party.handle.
  unfold request in Hib. repeat rewrite <- app_assoc in Hib.
  pose proof (len_nonneg e) as Hnn.
  assert (Hla : len a_i = Party.rows cfg) by (unfold len in *; congruence).
  assert (Hlb : len b_i = Party.rows cfg) by (unfold len in *; congruence).
  run ltac:(apply read_u8_ok; [exact quiet|exact Hib|unfold OP_READ_SECURE; lia]).
  change (OP_READ_SECURE =? OP_WRITE_VEC) with false. cbv iota. rewrite Z.eqb_refl.
  run ltac:(apply read_u32_ok; [exact quiet|apply lookup_insert_eq|lia]).
  rewrite insert_insert_eq, Hrows, Z.eqb_refl. cbn [negb].
  run ltac:(apply recv_i64s_ok;
            [exact quiet|rewrite <- Hrows, range_len; apply length_seq|exact Fe
            |apply lookup_insert_eq]).
  rewrite insert_insert_eq.
  run ltac:(apply fetch_share_ok; [exact quiet|lia|exact Hla|exact Hlb|exact Hsid
                                  |exact Fa|exact Fb|exact Hc]).
  cbn [fst snd].
  rewrite bind_get_A_share. cbn [A_share].
  assert (Hin : forall b : bool, len (if b then mem else e) < 2 ^ 32).
  { intros []; unfold len in *; rewrite ?Hmem; lia. }
  assert (Hil : forall b : bool, length (if b then mem else e) = length e).
  { intros []; congruence. }
  assert (Hll : forall b : bool, len (if b then mem else e) = Party.rows cfg).
  { intros b. unfold len in *. rewrite Hil. exact Hrows. }
  destruct Hbk as [(bad & rb & -> & Hbad)|(u & v & r1 & bad & rb & -> & Lu & Lv & Fu & Fv & Hbad)].
  - edestruct (dta_cross_bad f quiet mem t r (Party.cfg_role cfg) (Party.peer_host cfg) (Party.peer_port cfg)
                 sid 1 (Party.is_A (Party.cfg_role cfg))
                 (if Party.is_A (Party.cfg_role cfg) then mem else e) a_i b_i c_i bad)
      as (msg & n' & ib' & d' & pre & rs & recvs & E & Hrecvs & Hrs & Hpre);
      [exact Hsid|lia|apply Hin|rewrite Hil; exact La|rewrite Hil; exact Lb
      |exact P1|exact P2|rewrite Hll; exact Hbad|].
    erewrite bind_raise by (apply E).
    repeat rewrite <- app_assoc.
    match goal with
    | |- context [World _ _ _ _ _ _ _ _ _ (lg ++ ?x1 ++ ?x2 ++ ?x3 ++ ?x4 ++ pre ++ _)] =>
        exists msg; do 4 eexists; exists (x1 ++ x2 ++ x3 ++ x4 ++ pre), rs, recvs
    end.
    split; [repeat rewrite <- app_assoc; reflexivity|].
    split; [exact Hrecvs|]. split; [lia|].
    repeat rewrite sent_app.
    rewrite Hpre, sent_ev_fetch_share_other by lia.
    rewrite (sent_recvs_on conn conn (map _ e)) by apply recvs_on_map.
    reflexivity.
  - run ltac:(apply dta_cross_ok;
              [exact quiet|exact Hsid|lia|apply Hin|rewrite Hil; exact La|rewrite Hil; exact Lb
              |rewrite Hil; exact Lu|rewrite Hil; exact Lv|exact Fu|exact Fv|exact P1|exact P2]).
    rewrite bind_get_A_share. cbn [A_share].
    edestruct (dta_cross_bad f quiet mem t r (Party.cfg_role cfg) (Party.peer_host cfg) (Party.peer_port cfg)
                 sid 16 (Party.is_B (Party.cfg_role cfg))
                 (if Party.is_B (Party.cfg_role cfg) then mem else e) a_i b_i c_i bad)
      as (msg & n' & ib' & d' & pre & rs & recvs & E & Hrecvs & Hrs & Hpre);
      [exact Hsid|lia|apply Hin|rewrite Hil; exact La|rewrite Hil; exact Lb
      |exact P3|exact P4|rewrite Hll; exact Hbad|].
    erewrite bind_raise by (apply E).
    repeat rewrite <- app_assoc.
    match goal with
    | |- context [World _ _ _ _ _ _ _ _ _
                    (lg ++ ?x1 ++ ?x2 ++ ?x3 ++ ?x4 ++ ?x5 ++ pre ++ _)] =>
        exists msg; do 4 eexists; exists (x1 ++ x2 ++ x3 ++ x4 ++ x5 ++ pre), rs, recvs
    end.
    split; [repeat rewrite <- app_assoc; reflexivity|].
    split; [exact Hrecvs|]. split; [lia|].
    repeat rewrite sent_app.
    rewrite Hpre, sent_ev_fetch_share_other by lia.
    rewrite (sent_recvs_on conn conn (map _ e)) by apply recvs_on_map.
    destruct (Party.is_A (Party.cfg_role cfg));
      rewrite sent_app, sent_ev_send_two_vecs_other, sent_ev_recv_two_vecs by lia;
      reflexivity.
Qed.

End MismatchHandle.

(** ** The order of sends and receives in an exchange *)

Lemma all_before_app (p q : event -> bool) (l1 l2 : list event) :
  Forall (fun ev => q ev = false) l1 -> Forall (fun ev => p ev = false) l2 ->
  all_before p q (l1 ++ l2).
Proof.
  intros H1 H2 i j x y Hi Hj Hp Hq.
  destruct (Nat.lt_ge_cases i (length l1)) as [Li|Li].
  - destruct (Nat.lt_ge_cases j (length l1)) as [Lj|Lj]; [|lia].
    rewrite lookup_app_l in Hj by exact Lj.
    rewrite Forall_forall in H1.
    rewrite (H1 y) in Hq; [discriminate|].
    eapply list_elem_of_lookup_2. exact Hj.
  - rewrite lookup_app_r in Hi by exact Li.
    rewrite Forall_forall in H2.
    rewrite (H2 x) in Hp; [discriminate|].
    eapply list_elem_of_lookup_2. exact Hi.
Qed.

Lemma no_recv_ev_send_two_vecs host port s sid tag u v :
  Forall (fun ev => is_recv ev = false) (Party.ev_send_two_vecs host port s sid tag u v).
Proof.
  unfold Party.ev_send_two_vecs.
  repeat first [apply Forall_app; split | apply Forall_cons; split | apply Forall_nil
               | reflexivity | (apply Forall_map, Forall_forall; intros; reflexivity)].
Qed.

Lemma no_send_ev_recv_two_vecs l s sid tag u v :
  Forall (fun ev => is_send ev = false) (Party.ev_recv_two_vecs l s sid tag u v).
Proof.
  unfold Party.ev_recv_two_vecs.
  repeat first [apply Forall_app; split | apply Forall_cons; split | apply Forall_nil
               | reflexivity | (apply Forall_map, Forall_forall; intros; reflexivity)].
Qed.

(** In the events of one cross-term the X side sends everything before
    it receives anything, and the Y side receives everything before it
    sends anything; either side does both. *)
Lemma ev_dta_cross_order host port n sid tag (x_side : bool) me pe :
  (if x_side
   then all_before is_send is_recv (Party.ev_dta_cross host port n sid tag x_side me pe)
   else all_before is_recv is_send (Party.ev_dta_cross host port n sid tag x_side me pe))
  /\ existsb is_send (Party.ev_dta_cross host port n sid tag x_side me pe) = true
  /\ existsb is_recv (Party.ev_dta_cross host port n sid tag x_side me pe) = true.
Proof.
  unfold Party.ev_dta_cross. destruct x_side.
  - split; [apply all_before_app;
            [apply no_recv_ev_send_two_vecs|apply no_send_ev_recv_two_vecs]|].
    rewrite !existsb_app. unfold Party.ev_send_two_vecs, Party.ev_recv_two_vecs.
    cbn. rewrite !orb_true_r. split; reflexivity.
  - split; [apply all_before_app;
            [apply no_send_ev_recv_two_vecs|apply no_recv_ev_send_two_vecs]|].
    rewrite !existsb_app. unfold Party.ev_send_two_vecs, Party.ev_recv_two_vecs.
    cbn. rewrite !orb_true_r. split; reflexivity.
Qed.

(** ** Closed connections *)

Lemma is_closed_last (s : sock) (l : list event) : is_closed s (l ++ [EvClose s]) = true.
Proof.
  unfold is_closed. rewrite existsb_app. cbn. rewrite Nat.eqb_refl.
  now rewrite orb_true_r.
Qed.

Lemma is_closed_app (s : sock) (l1 l2 : list event) :
  is_closed s (l1 ++ l2) = is_closed s l1 || is_closed s l2.
Proof. unfold is_closed. apply existsb_app. Qed.

(** ** Streams that end early *)

Section Truncated.

Variable f : nat -> bool.
Hypothesis quiet : forall n, f n = false.

Variables (a : list Z) (t : gmap Z (list sock)) (r : list Z).

Lemma read_i64_eof s short n ib ub rb d lg :
  ib !! s = Some short -> (length short < 8)%nat ->
  read_i64 s (World a t r n ib ub rb d f lg)
  = (Raise (ConnectionError "eof"),
     World a t r n (<[s := []]> ib) ub rb d f (lg ++ [EvRecv s short])).
Proof.
  intros Hib Hs. unfold read_i64.
  erewrite bind_raise; [reflexivity|].
  apply recv_exact_eof; assumption.
Qed.

Lemma recv_i64s_eof s xs short (l : list nat) n ib ub rb d lg :
  (length xs < length l)%nat -> Forall i64 xs -> (length short < 8)%nat ->
  ib !! s = Some (enc_vec xs ++ short) ->
  for_list l (fun _ => read_i64 s) (World a t r n ib ub rb d f lg)
  = (Raise (ConnectionError "eof"),
     World a t r n (<[s := []]> ib) ub rb d f
           (lg ++ map (fun x => EvRecv s (enc_i64 x)) xs ++ [EvRecv s short])).
Proof.
  intros Hl Hxs Hs. revert l Hl ib lg.
  induction Hxs as [|x xs Hx Hxs IH]; intros l Hl ib lg Hib.
  - destruct l as [|i l]; [cbn in Hl; lia|]. cbn [for_list map app].
    cbn in Hib.
    erewrite bind_raise; [reflexivity|].
    apply read_i64_eof; assumption.
  - destruct l as [|i l]; [cbn in Hl; lia|]. cbn [for_list map].
    unfold enc_vec in Hib. cbn [map concat] in Hib. rewrite <- app_assoc in Hib.
    erewrite bind_ok by (eapply read_i64_ok; [exact quiet|exact Hib|exact Hx]).
    erewrite bind_raise.
    2:{ apply IH; [cbn in Hl; lia|]. apply lookup_insert_eq. }
    rewrite insert_insert_eq, <- app_assoc. reflexivity.
Qed.

End Truncated.

(** ** Sums of vectors *)

Lemma zip_add_swap (m x y : list Z) :
  zip_with Z.add (zip_with Z.add m x) y = zip_with Z.add (zip_with Z.add m y) x.
Proof.
  revert x y. induction m as [|a m IH]; intros [|b x] [|c y]; cbn; try reflexivity.
  rewrite IH. f_equal. lia.
Qed.

Lemma mem_after_perm (vecs vecs' : list (list Z)) (mem : list Z) :
  Permutation vecs vecs' -> Party.mem_after mem vecs = Party.mem_after mem vecs'.
Proof.
  unfold Party.mem_after. intros H. revert mem.
  induction H as [|x l l' _ IH|x y l|l l' l'' _ IH1 _ IH2]; intros mem; cbn [fold_left].
  - reflexivity.
  - apply IH.
  - now rewrite zip_add_swap.
  - now rewrite IH1.
Qed.

(** ** Computations that keep the length of the memory share *)

Lemma keeps_length_of_keeps {A : Type} (m : M A) : keeps_A_share m -> keeps_length m.
Proof. intros H w. now rewrite H. Qed.

Lemma keeps_length_bind {A B : Type} (m : M A) (k : A -> M B) :
  keeps_length m -> (forall x, keeps_length (k x)) -> keeps_length (bind m k).
Proof.
  intros Hm Hk w. unfold bind. specialize (Hm w).
  destruct (m w) as [[x|e|] w1]; cbn [snd] in *; auto.
  rewrite <- Hm. apply Hk.
Qed.

Lemma keeps_length_for_each {A : Type} (l : list A) (g : A -> M unit) :
  (forall x, keeps_length (g x)) -> keeps_length (for_each l g).
Proof.
  intros Hg. induction l as [|x l IH]; cbn [for_each].
  - intros w. reflexivity.
  - apply keeps_length_bind; [apply Hg|intros _; exact IH].
Qed.

Lemma keeps_length_try_finally {A : Type} (body : M A) (fin : M unit) :
  keeps_length body -> keeps_length fin -> keeps_length (try_finally body fin).
Proof.
  intros Hb Hf w. unfold try_finally. specialize (Hb w).
  destruct (body w) as [[x|e|] w1]; cbn [snd] in *; auto.
  - rewrite <- Hb. apply keeps_length_bind; [exact Hf|intros ? ?; reflexivity].
  - rewrite <- Hb. apply keeps_length_bind; [exact Hf|intros ? ?; reflexivity].
Qed.

Lemma keeps_length_A_share_iadd (i : nat) (d : Z) : keeps_length (Party.A_share_iadd i d).
Proof.
  intros w. unfold Party.A_share_iadd.
  destruct (A_share w !! i); cbn [snd set_A_share A_share]; [|reflexivity].
  apply length_insert.
Qed.

Lemma keeps_length_handle (cfg : Party.config) (conn : sock) :
  keeps_length (Party.handle cfg conn).
Proof.
  unfold Party.handle.
  apply keeps_length_bind; [apply keeps_length_of_keeps, keeps_read_u8|intros op].
  destruct (op =? OP_WRITE_VEC).
  - apply keeps_length_bind; [apply keeps_length_of_keeps, keeps_read_u32|intros dim].
    destruct (negb (dim =? Party.rows cfg)); [intros w; reflexivity|].
    apply keeps_length_bind.
    { apply keeps_length_of_keeps, keeps_for_list. intros _. apply keeps_read_i64. }
    intros vec.
    apply keeps_length_bind.
    { apply keeps_length_for_each. intros i.
      apply keeps_length_bind; [apply keeps_length_of_keeps, keeps_getitem|intros d].
      apply keeps_length_A_share_iadd. }
    intros _. apply keeps_length_of_keeps, keeps_sendall.
  - destruct (op =? OP_READ_SECURE); [|intros w; reflexivity].
    apply keeps_length_of_keeps.
    unfold read_u32, read_i64, pack_i64. keeps;
      first [apply keeps_fetch_share|apply keeps_dta_cross].
Qed.

Lemma keeps_length_serve_loop (cfg : Party.config) (fuel : nat) :
  keeps_length (Party.serve_loop fuel cfg).
Proof.
  induction fuel as [|k IH]; cbn [Party.serve_loop].
  - intros w. reflexivity.
  - apply keeps_length_bind; [apply keeps_length_of_keeps, keeps_accept|intros conn].
    apply keeps_length_bind; [|intros _; exact IH].
    apply keeps_length_try_finally; [apply keeps_length_handle|].
    apply keeps_length_of_keeps, keeps_close.
Qed.

Lemma serve_unfold (cfg : Party.config) (fuel : nat) (w : world) :
  Party.serve cfg fuel w
  = Party.serve_loop fuel cfg (set_A_share (replicate (Z.to_nat (Party.rows cfg)) 0) w).
Proof. reflexivity. Qed.

(** ** Computations that always come back *)

Section Nonblocking.

Lemma nb_ret {A : Type} (x : A) : nonblocking (ret x).
Proof. intros w. discriminate. Qed.

Lemma nb_raise {A : Type} (e : exn) : nonblocking (@raise A e).
Proof. intros w. discriminate. Qed.

Lemma nb_bind {A B : Type} (m : M A) (k : A -> M B) :
  nonblocking m -> (forall x, nonblocking (k x)) -> nonblocking (bind m k).
Proof.
  intros Hm Hk w. unfold bind. specialize (Hm w).
  destruct (m w) as [[x|e|] w1]; cbn [fst] in *; [apply Hk|discriminate|contradiction].
Qed.

Lemma nb_if {A : Type} (b : bool) (m1 m2 : M A) :
  nonblocking m1 -> nonblocking m2 -> nonblocking (if b then m1 else m2).
Proof. destruct b; auto. Qed.

Lemma nb_for_each {A : Type} (l : list A) (g : A -> M unit) :
  (forall x, nonblocking (g x)) -> nonblocking (for_each l g).
Proof.
  intros Hg. induction l as [|x l IH]; cbn [for_each]; [apply nb_ret|].
  apply nb_bind; [apply Hg|intros _; exact IH].
Qed.

Lemma nb_for_list {A B : Type} (l : list A) (g : A -> M B) :
  (forall x, nonblocking (g x)) -> nonblocking (for_list l g).
Proof.
  intros Hg. induction l as [|x l IH]; cbn [for_list]; [apply nb_ret|].
  apply nb_bind; [apply Hg|intros y].
  apply nb_bind; [exact IH|intros ys; apply nb_ret].
Qed.

Lemma nb_try_finally {A : Type} (body : M A) (fin : M unit) :
  nonblocking body -> nonblocking fin -> nonblocking (try_finally body fin).
Proof.
  intros Hb Hf w. unfold try_finally. specialize (Hb w).
  destruct (body w) as [[x|e|] w1]; cbn [fst] in *; [| |contradiction].
  - apply nb_bind; [exact Hf|intros; apply nb_ret].
  - apply nb_bind; [exact Hf|intros; apply nb_raise].
Qed.

Lemma nb_try_except {A : Type} (body : M A) (h : exn -> M A) :
  nonblocking body -> (forall e, nonblocking (h e)) -> nonblocking (try_except body h).
Proof.
  intros Hb Hh w. unfold try_except. specialize (Hb w).
  destruct (body w) as [[x|e|] w1]; cbn [fst] in *; [discriminate|apply Hh|contradiction].
Qed.

Lemma nb_try_pass (body : M unit) : nonblocking body -> nonblocking (try_pass body).
Proof. intros H. apply nb_try_except; [exact H|intros; apply nb_ret]. Qed.

Lemma nb_lift {A : Type} (r : result A) : r <> Block -> nonblocking (lift r).
Proof. intros H w. exact H. Qed.

Lemma nb_pack_u8 x : nonblocking (pack_u8 x).
Proof. apply nb_lift. unfold struct_pack_B. destruct (_ && _); discriminate. Qed.

Lemma nb_pack_u32 x : nonblocking (pack_u32 x).
Proof. apply nb_lift. unfold struct_pack_I. destruct (_ && _); discriminate. Qed.

Lemma nb_pack_i64 x : nonblocking (pack_i64 x).
Proof. apply nb_lift. unfold struct_pack_q. destruct (fits_i64 _); discriminate. Qed.

Lemma nb_connect host port : nonblocking (connect host port).
Proof.
  intros w. unfold connect. destruct (faulty w); [discriminate|].
  destruct (dials w); discriminate.
Qed.

Lemma nb_sendall s bs : nonblocking (sendall s bs).
Proof. intros w. unfold sendall. destruct (faulty w); discriminate. Qed.

Lemma nb_shutdown s : nonblocking (shutdown s).
Proof. intros w. unfold shutdown. destruct (faulty w); discriminate. Qed.

Lemma nb_close s : nonblocking (close s).
Proof. intros w. discriminate. Qed.

Lemma nb_recv_exact s n : nonblocking (recv_exact s n).
Proof.
  intros w. unfold recv_exact. destruct n; [discriminate|].
  destruct (faulty w); [discriminate|].
  destruct (_ <? _)%nat; discriminate.
Qed.

Lemma nb_read_u8 s : nonblocking (read_u8 s).
Proof. apply nb_bind; [apply nb_recv_exact|intros; apply nb_ret]. Qed.

Lemma nb_read_u32 s : nonblocking (read_u32 s).
Proof. apply nb_bind; [apply nb_recv_exact|intros; apply nb_ret]. Qed.

Lemma nb_read_i64 s : nonblocking (read_i64 s).
Proof. apply nb_bind; [apply nb_recv_exact|intros; apply nb_ret]. Qed.

Lemma nb_getitem l i : nonblocking (getitem l i).
Proof. unfold getitem. destruct (l !! i); [apply nb_ret|apply nb_raise]. Qed.

Lemma nb_draw : nonblocking draw.
Proof. intros w. unfold draw. destruct (rng w); discriminate. Qed.

Lemma nb_randint lo hi : nonblocking (randint lo hi).
Proof. apply nb_bind; [apply nb_draw|intros; apply nb_ret]. Qed.

Lemma nb_getrandbits k : nonblocking (getrandbits k).
Proof. apply nb_bind; [apply nb_draw|intros; apply nb_ret]. Qed.

End Nonblocking.

Ltac nonblock :=
  repeat first
    [ apply nb_ret | apply nb_raise
    | apply nb_pack_u8 | apply nb_pack_u32 | apply nb_pack_i64
    | apply nb_connect | apply nb_sendall | apply nb_shutdown | apply nb_close
    | apply nb_read_u8 | apply nb_read_u32 | apply nb_read_i64 | apply nb_recv_exact
    | apply nb_getitem | apply nb_randint | apply nb_getrandbits
    | apply nb_for_each; intros ?
    | apply nb_for_list; intros ?
    | apply nb_if
    | apply nb_try_pass
    | apply nb_try_finally
    | apply nb_bind; [|intros ?]
    | progress cbv zeta ].

Lemma nb_pair_or_wait dim conn : nonblocking (Dealer.pair_or_wait dim conn).
Proof.
  intros w. unfold Dealer.pair_or_wait, bind, Dealer.waiting_getitem.
  destruct (waiting w !! dim) as [[|p dq]|] eqn:E; cbn.
  - discriminate.
  - unfold Dealer.popleft. rewrite E. cbn.
    rewrite lookup_insert_eq. cbn. destruct dq; cbn; discriminate.
  - discriminate.
Qed.

Lemma nb_send_share s dim sid a_i b_i c_i :
  nonblocking (Dealer.send_share s dim sid a_i b_i c_i).
Proof. unfold Dealer.send_share. nonblock. Qed.

Lemma nb_generate dim : nonblocking (Dealer.generate dim).
Proof. unfold Dealer.generate, Dealer.rand_vec, Dealer.rand_elem. nonblock. Qed.

Lemma nb_handle_one conn : nonblocking (Dealer.handle_one conn).
Proof.
  unfold Dealer.handle_one.
  apply nb_try_except; [|intros e; nonblock].
  apply nb_bind; [apply nb_read_u8|intros op].
  apply nb_if; [apply nb_close|].
  apply nb_bind; [apply nb_read_u32|intros dim].
  apply nb_if; [apply nb_close|].
  apply nb_bind; [apply nb_pair_or_wait|intros [peer|]]; [|apply nb_ret].
  apply nb_bind; [apply nb_generate|intros t].
  apply nb_bind; [|intros _].
  - apply nb_try_finally; [apply nb_send_share|nonblock].
  - apply nb_try_finally; [apply nb_send_share|nonblock].
Qed.

(** ** Components of the world a computation does not touch *)

Section Frame.

Context {X : Type} (g : world -> X).
Hypothesis g_log : forall ev w, g (log_event ev w) = g w.
Hypothesis g_inbox : forall s bs w, g (set_inbox s bs w) = g w.
Hypothesis g_rng : forall r w, g (set_rng r w) = g w.
Hypothesis g_waiting : forall t w, g (set_waiting t w) = g w.
Hypothesis g_dial : forall bs q ev w, g (open_sock None bs q ev w) = g w.

Lemma frames_ret {A : Type} (x : A) : frames g (ret x).
Proof. intros w. reflexivity. Qed.

Lemma frames_raise {A : Type} (e : exn) : frames g (@raise A e).
Proof. intros w. reflexivity. Qed.

Lemma frames_lift {A : Type} (r : result A) : frames g (lift r).
Proof. intros w. reflexivity. Qed.

Lemma frames_bind {A B : Type} (m : M A) (k : A -> M B) :
  frames g m -> (forall x, frames g (k x)) -> frames g (bind m k).
Proof.
  intros Hm Hk w. unfold bind. specialize (Hm w).
  destruct (m w) as [[x|e|] w1]; cbn [snd] in *; auto.
  rewrite <- Hm. apply Hk.
Qed.

Lemma frames_if {A : Type} (b : bool) (m1 m2 : M A) :
  frames g m1 -> frames g m2 -> frames g (if b then m1 else m2).
Proof. destruct b; auto. Qed.

Lemma frames_for_each {A : Type} (l : list A) (h : A -> M unit) :
  (forall x, frames g (h x)) -> frames g (for_each l h).
Proof.
  intros Hh. induction l as [|x l IH]; cbn [for_each]; [apply frames_ret|].
  apply frames_bind; [apply Hh|intros _; exact IH].
Qed.

Lemma frames_for_list {A B : Type} (l : list A) (h : A -> M B) :
  (forall x, frames g (h x)) -> frames g (for_list l h).
Proof.
  intros Hh. induction l as [|x l IH]; cbn [for_list]; [apply frames_ret|].
  apply frames_bind; [apply Hh|intros y].
  apply frames_bind; [exact IH|intros ys; apply frames_ret].
Qed.

Lemma frames_try_finally {A : Type} (body : M A) (fin : M unit) :
  frames g body -> frames g fin -> frames g (try_finally body fin).
Proof.
  intros Hb Hf w. unfold try_finally. specialize (Hb w).
  destruct (body w) as [[x|e|] w1]; cbn [snd] in *; auto.
  - rewrite <- Hb. apply frames_bind; [exact Hf|intros; apply frames_ret].
  - rewrite <- Hb. apply frames_bind; [exact Hf|intros; apply frames_raise].
Qed.

Lemma frames_try_except {A : Type} (body : M A) (h : exn -> M A) :
  frames g body -> (forall e, frames g (h e)) -> frames g (try_except body h).
Proof.
  intros Hb Hh w. unfold try_except. specialize (Hb w).
  destruct (body w) as [[x|e|] w1]; cbn [snd] in *; auto.
  rewrite <- Hb. apply Hh.
Qed.

Lemma frames_try_pass (body : M unit) : frames g body -> frames g (try_pass body).
Proof. intros H. apply frames_try_except; [exact H|intros; apply frames_ret]. Qed.

Lemma frames_connect host port : frames g (connect host port).
Proof.
  intros w. unfold connect. destruct (faulty w); cbn [snd]; [apply g_log|].
  destruct (dials w); cbn [snd]; [apply g_log|apply g_dial].
Qed.

Lemma frames_sendall s bs : frames g (sendall s bs).
Proof. intros w. unfold sendall. destruct (faulty w); cbn [snd]; apply g_log. Qed.

Lemma frames_shutdown s : frames g (shutdown s).
Proof. intros w. unfold shutdown. destruct (faulty w); cbn [snd]; apply g_log. Qed.

Lemma frames_close s : frames g (close s).
Proof. intros w. apply g_log. Qed.

Lemma frames_recv_exact s n : frames g (recv_exact s n).
Proof.
  intros w. unfold recv_exact. destruct n; [reflexivity|].
  destruct (faulty w); cbn [snd]; [apply g_log|].
  destruct (_ <? _)%nat; cbn [snd]; now rewrite g_log, g_inbox.
Qed.

Lemma frames_read_u8 s : frames g (read_u8 s).
Proof. apply frames_bind; [apply frames_recv_exact|intros; apply frames_ret]. Qed.

Lemma frames_read_u32 s : frames g (read_u32 s).
Proof. apply frames_bind; [apply frames_recv_exact|intros; apply frames_ret]. Qed.

Lemma frames_read_i64 s : frames g (read_i64 s).
Proof. apply frames_bind; [apply frames_recv_exact|intros; apply frames_ret]. Qed.

Lemma frames_getitem l i : frames g (getitem l i).
Proof. unfold getitem. destruct (l !! i); [apply frames_ret|apply frames_raise]. Qed.

Lemma frames_draw : frames g draw.
Proof. intros w. unfold draw. destruct (rng w); cbn [snd]; [reflexivity|apply g_rng]. Qed.

Lemma frames_randint lo hi : frames g (randint lo hi).
Proof. apply frames_bind; [apply frames_draw|intros; apply frames_ret]. Qed.

Lemma frames_getrandbits k : frames g (getrandbits k).
Proof. apply frames_bind; [apply frames_draw|intros; apply frames_ret]. Qed.

Lemma frames_pair_or_wait dim conn : frames g (Dealer.pair_or_wait dim conn).
Proof.
  unfold Dealer.pair_or_wait.
  apply frames_bind.
  { intros w. unfold Dealer.waiting_getitem.
    destruct (waiting w !! dim); cbn [snd]; [reflexivity|apply g_waiting]. }
  intros [|p dq].
  - apply frames_bind; [intros w; apply g_waiting|intros; apply frames_ret].
  - apply frames_bind.
    { intros w. unfold Dealer.popleft.
      destruct (waiting w !! dim) as [[|? ?]|]; cbn [snd]; try reflexivity.
      apply g_waiting. }
    intros peer. apply frames_bind; [intros w; reflexivity|intros dq'].
    apply frames_bind; [|intros; apply frames_ret].
    destruct dq' as [|? ?]; [|apply frames_ret].
    intros w. apply g_waiting.
Qed.

End Frame.

Ltac frame_step g :=
  repeat first
    [ apply frames_ret | apply frames_raise | apply frames_lift
    | apply frames_connect; [intros; reflexivity|intros; reflexivity]
    | apply frames_sendall; intros; reflexivity
    | apply frames_shutdown; intros; reflexivity
    | apply frames_close; intros; reflexivity
    | apply frames_read_u8; intros; reflexivity
    | apply frames_read_u32; intros; reflexivity
    | apply frames_read_i64; intros; reflexivity
    | apply frames_recv_exact; intros; reflexivity
    | apply frames_getitem
    | apply frames_randint; intros; reflexivity
    | apply frames_getrandbits; intros; reflexivity
    | apply frames_pair_or_wait; intros; reflexivity
    | apply frames_for_each; intros ?
    | apply frames_for_list; intros ?
    | apply frames_if
    | apply frames_try_pass
    | apply frames_try_finally
    | apply frames_bind; [|intros ?]
    | progress cbv zeta
    | progress unfold pack_u8, pack_u32, pack_i64 ].

Lemma frames_backlog_handle_one conn : frames user_backlog (Dealer.handle_one conn).
Proof.
  unfold Dealer.handle_one.
  apply frames_try_except; [|intros e; frame_step user_backlog].
  apply frames_bind; [apply frames_read_u8; intros; reflexivity|intros op].
  apply frames_if; [apply frames_close; intros; reflexivity|].
  apply frames_bind; [apply frames_read_u32; intros; reflexivity|intros dim].
  apply frames_if; [apply frames_close; intros; reflexivity|].
  apply frames_bind; [apply frames_pair_or_wait; intros; reflexivity|intros [peer|]];
    [|apply frames_ret].
  unfold Dealer.generate, Dealer.send_share, Dealer.rand_vec, Dealer.rand_elem.
  frame_step user_backlog.
Qed.

(** [handle_one] comes back with [Ok tt] in every environment. *)
Lemma handle_one_returns (conn : sock) (w : world) : fst (Dealer.handle_one conn w) = Ok tt.
Proof.
  pose proof (nb_handle_one conn w) as Hnb.
  unfold Dealer.handle_one, try_except in *.
  match goal with |- fst (match ?b with _ => _ end) = _ => destruct b as [[[]|e|] w1] end;
    cbn [fst] in *; [reflexivity| |contradiction].
  reflexivity.
Qed.

Lemma try_except_raise {A : Type} (body : M A) (h : exn -> M A) (w w1 : world) (e : exn)
    (res : result A * world) :
  body w = (Raise e, w1) -> h e w1 = res -> try_except body h w = res.
Proof. unfold try_except. intros -> H. exact H. Qed.

Section DealerFirst.

Variable f : nat -> bool.
Hypothesis quiet : forall n, f n = false.

Variable a : list Z.

(** The first request for a dimension is left waiting. *)
Lemma handle_one_first_ok dim conn rest (t : gmap Z (list sock)) tape n ib ub rb d lg :
  1 <= dim < 2 ^ 32 ->
  t !! dim = None ->
  ib !! conn = Some (enc_u8 OP_REQUEST ++ enc_u32 dim ++ rest) ->
  Dealer.handle_one conn (World a t tape n ib ub rb d f lg)
  = (Ok tt,
     World a (<[dim := [conn]]> t) tape n (<[conn := rest]> ib) ub rb d f
           (lg ++ [EvRecv conn (enc_u8 OP_REQUEST); EvRecv conn (enc_u32 dim);
                   EvWaiting (<[dim := []]> t);
                   EvWaiting (<[dim := [conn]]> t)])).
Proof.
  intros Hdim Ht Hib. unfold Dealer.handle_one.
  apply try_except_ok.
  run ltac:(apply read_u8_ok; [exact quiet|exact Hib|unfold OP_REQUEST; lia]).
  rewrite Z.eqb_refl. cbn [negb].
  run ltac:(apply read_u32_ok; [exact quiet|apply lookup_insert_eq|lia]).
  destruct (Z.eqb_spec dim 0) as [?|_]; [lia|].
  run ltac:(apply (pair_or_wait_first f a); exact Ht).
  unfold ret. rewrite !insert_insert_eq.
  repeat rewrite <- app_assoc. reflexivity.
Qed.

End DealerFirst.

(** One turn of the dealer's accept loop. *)
Lemma dealer_main_step (k : nat) (w : world) (bs : list byte) (q : list (list byte)) :
  user_backlog w = bs :: q ->
  exists w2, Dealer.main (S k) w = Dealer.main k w2 /\ user_backlog w2 = q.
Proof.
  intros Hub.
  set (w1 := open_sock (Some user_ls) bs q (EvAccept user_ls (next_sock w)) w).
  assert (Ea : accept user_ls w = (Ok (next_sock w), w1)).
  { unfold accept. cbn [backlog]. now rewrite Hub. }
  pose proof (handle_one_returns (next_sock w) w1) as Hret.
  pose proof (frames_backlog_handle_one (next_sock w) w1) as Hfr.
  destruct (Dealer.handle_one (next_sock w) w1) as [[[]|e|] w2] eqn:Eh; cbn [fst snd] in *;
    try discriminate.
  exists w2. split; [|rewrite Hfr; reflexivity].
  cbn [Dealer.main].
  erewrite bind_ok by exact Ea.
  erewrite bind_ok; [reflexivity|].
  apply try_pass_ok. exact Eh.
Qed.

(** ** Bounds on the dealer's products *)

Lemma dot_lower (a b : list Z) (lo : Z) :
  0 <= lo -> length a = length b ->
  Forall (fun x => lo <= x) a -> Forall (fun x => lo <= x) b ->
  Z.of_nat (length a) * (lo * lo) <= dot a b.
Proof.
  intros Hlo Hl Ha. revert b Hl. induction Ha as [|x a Hx Ha IH]; intros b Hl Hb.
  - rewrite dot_nil_l. cbn. lia.
  - destruct Hb as [|y b Hy Hb]; [discriminate|].
    rewrite dot_cons. injection Hl as Hl. specialize (IH b Hl Hb). cbn [length]. nia.
Qed.

(** ** The coordinator outside the happy path *)

Lemma setitem_zeros_negative (n : nat) (idx v : Z) (w : world) :
  - Z.of_nat n <= idx < 0 ->
  Coordinator.setitem (replicate n 0) idx v w
  = Coordinator.setitem (replicate n 0) (idx + Z.of_nat n) v w.
Proof.
  intros H. unfold Coordinator.setitem, len. rewrite length_replicate.
  destruct (Z.ltb_spec idx 0) as [_|?]; [|lia].
  destruct (Z.ltb_spec (idx + Z.of_nat n) 0) as [?|_]; [lia|]. reflexivity.
Qed.

Lemma make_standard_basis_share_negative dim idx val (w : world) :
  - dim <= idx < 0 ->
  Coordinator.make_standard_basis_share dim idx val w
  = Coordinator.make_standard_basis_share dim (idx + dim) val w.
Proof.
  intros H. unfold Coordinator.make_standard_basis_share.
  unfold bind at 1. unfold bind at 4.
  rewrite setitem_zeros_negative by lia.
  replace (Z.of_nat (Z.to_nat dim)) with dim by lia. reflexivity.
Qed.

Lemma make_standard_basis_share_out_of_range dim idx val (w : world) :
  0 <= dim -> dim <= idx \/ idx < - dim ->
  Coordinator.make_standard_basis_share dim idx val w = (Raise IndexError, w).
Proof.
  intros Hdim H. unfold Coordinator.make_standard_basis_share, Coordinator.setitem, len.
  rewrite length_replicate.
  replace (Z.of_nat (Z.to_nat dim)) with dim by lia.
  destruct (Z.ltb_spec idx 0) as [Hneg|Hpos].
  - destruct (Z.leb_spec 0 (idx + dim)) as [?|_]; [lia|]. reflexivity.
  - destruct (Z.leb_spec 0 idx) as [_|?]; [|lia].
    destruct (Z.ltb_spec idx dim) as [?|_]; [lia|]. reflexivity.
Qed.

Lemma nb_write_vec hp vec : nonblocking (Coordinator.write_vec hp vec).
Proof. unfold Coordinator.write_vec. nonblock. Qed.

Lemma nb_read_share hp vec : nonblocking (Coordinator.read_share hp vec).
Proof. unfold Coordinator.read_share. nonblock. Qed.

(** A thread whose body comes back has a result, [None] if the body
    raised. *)
Lemma thread_returns {A : Type} (body : M A) (w : world) :
  nonblocking body ->
  exists o w', Coordinator.thread body w = (Ok o, w').
Proof.
  intros Hnb. specialize (Hnb w). unfold Coordinator.thread, try_except, bind.
  destruct (body w) as [[x|e|] w1]; cbn [fst] in *; [| |contradiction].
  - now exists (Some x), w1.
  - now exists None, w1.
Qed.

Lemma thread_raise {A : Type} (body : M A) (w w' : world) (e : exn) :
  body w = (Raise e, w') -> Coordinator.thread body w = (Ok None, w').
Proof. intros H. unfold Coordinator.thread, try_except, bind. rewrite H. reflexivity. Qed.

Section CoordinatorFailures.

Variable f : nat -> bool.
Hypothesis quiet : forall n, f n = false.

Variables (a : list Z) (t : gmap Z (list sock)) (r : list Z).

(** A party that closes the connection without a complete reply. *)
Lemma read_share_eof hp vec short n ib ub rb d lg :
  len vec < 2 ^ 32 -> Forall i64 vec -> (length short < 8)%nat ->
  Coordinator.read_share hp vec (World a t r n ib ub rb (short :: d) f lg)
  = (Raise (ConnectionError "eof"),
     World a t r (S n) (<[n := []]> ib) ub rb d f
           (lg ++ Coordinator.ev_send_request hp n OP_READ_SECURE vec ++ [EvRecv n short])).
Proof.
  intros Hlen Fv Hs. unfold Coordinator.read_share.
  rewrite (send_request_ok f quiet) by (unfold OP_READ_SECURE; auto; lia).
  erewrite bind_raise.
  2:{ apply read_i64_eof; [exact quiet|apply lookup_insert_eq|exact Hs]. }
  rewrite insert_insert_eq, <- app_assoc. reflexivity.
Qed.

End CoordinatorFailures.

Lemma make_standard_basis_share_returns (dim idx val : Z) (w : world) :
  - dim <= idx < dim ->
  exists sh w', Coordinator.make_standard_basis_share dim idx val w = (Ok sh, w').
Proof.
  intros Hidx. destruct w as [a t tape n ib ub rb d f lg].
  destruct (Z.ltb_spec idx 0).
  - rewrite make_standard_basis_share_negative by lia.
    rewrite make_standard_basis_share_ok by lia. now do 2 eexists.
  - rewrite make_standard_basis_share_ok by lia. now do 2 eexists.
Qed.

(** ** Socket calls in an environment that may fail them *)

Section Faults.

Variables (a : list Z) (t : gmap Z (list sock)) (r : list Z) (f : nat -> bool).

Lemma recv_exact_at s k bs rest n ib ub rb d lg :
  f (length lg) = false ->
  ib !! s = Some (bs ++ rest) -> length bs = k -> k <> O ->
  recv_exact s k (World a t r n ib ub rb d f lg)
  = (Ok bs, World a t r n (<[s := rest]> ib) ub rb d f (lg ++ [EvRecv s bs])).
Proof.
  intros Hf Hib Hl Hk. unfold recv_exact, faulty. destruct k as [|k]; [congruence|].
  cbn [fault log inbox]. rewrite Hf, Hib. cbn [from_option id].
  destruct (Nat.ltb_spec (length (bs ++ rest)) (S k)) as [Hlt|Hge].
  - rewrite length_app in Hlt. lia.
  - rewrite <- Hl. rewrite take_app_length, drop_app_length. reflexivity.
Qed.

Lemma read_u8_at s x rest n ib ub rb d lg :
  f (length lg) = false ->
  ib !! s = Some (enc_u8 x ++ rest) -> 0 <= x < 256 ->
  read_u8 s (World a t r n ib ub rb d f lg)
  = (Ok x, World a t r n (<[s := rest]> ib) ub rb d f (lg ++ [EvRecv s (enc_u8 x)])).
Proof.
  intros Hf Hib Hx. unfold read_u8.
  erewrite bind_ok
    by (eapply recv_exact_at; [exact Hf|exact Hib|apply length_be_bytes|discriminate]).
  unfold ret. now rewrite unpack_enc_u8.
Qed.

Lemma read_u32_at s x rest n ib ub rb d lg :
  f (length lg) = false ->
  ib !! s = Some (enc_u32 x ++ rest) -> 0 <= x < 2 ^ 32 ->
  read_u32 s (World a t r n ib ub rb d f lg)
  = (Ok x, World a t r n (<[s := rest]> ib) ub rb d f (lg ++ [EvRecv s (enc_u32 x)])).
Proof.
  intros Hf Hib Hx. unfold read_u32.
  erewrite bind_ok
    by (eapply recv_exact_at; [exact Hf|exact Hib|apply length_be_bytes|discriminate]).
  unfold ret. now rewrite unpack_enc_u32.
Qed.

Lemma sendall_fault s bs n ib ub rb d lg :
  f (length lg) = true ->
  sendall s bs (World a t r n ib ub rb d f lg)
  = (Raise OSError, World a t r n ib ub rb d f (lg ++ [EvFault])).
Proof. intros Hf. unfold sendall, faulty. cbn [fault log]. now rewrite Hf. Qed.

(** [try: s.shutdown(...) except: pass] always goes through. *)
Lemma try_pass_shutdown s n ib ub rb d lg :
  exists ev,
    try_pass (shutdown s) (World a t r n ib ub rb d f lg)
    = (Ok tt, World a t r n ib ub rb d f (lg ++ [ev]))
    /\ (ev = EvShutdown s \/ ev = EvFault).
Proof.
  unfold try_pass, try_except, shutdown, faulty. cbn [fault log].
  destruct (f (length lg)).
  - exists EvFault. split; [reflexivity|now right].
  - exists (EvShutdown s). split; [reflexivity|now left].
Qed.

Lemma pair_or_wait_paired_at dim conn peer n ib ub rb d lg :
  t !! dim = Some [peer] ->
  Dealer.pair_or_wait dim conn (World a t r n ib ub rb d f lg)
  = (Ok (Some peer),
     World a (delete dim (<[dim := []]> t)) r n ib ub rb d f
           (lg ++ [EvWaiting (<[dim := []]> t); EvWaiting (delete dim (<[dim := []]> t))])).
Proof. apply pair_or_wait_paired. Qed.

End Faults.

(** ** The string client *)

Lemma ascii_loop_run (val : list Z) (m k : nat) (w : world) :
  (k + m = length val)%nat -> (k <= 10)%nat ->
  UserApi.ascii_loop (seq k m) val (take k val ++ replicate (10 - k) 0) w
  = (Ok (UserApi.ascii_of val), w).
Proof.
  revert k. induction m as [|m IH]; intros k Hkm Hk; cbn [seq UserApi.ascii_loop].
  - unfold ret, UserApi.ascii_of.
    rewrite Nat.add_0_r in Hkm. subst k.
    rewrite !take_ge by lia. reflexivity.
  - unfold UserApi.STR_SIZE. rewrite Z.geb_leb.
    destruct (Z.leb_spec 10 (Z.of_nat k)) as [Hge|Hlt].
    + assert (k = 10%nat) by lia. subst k.
      unfold ret, UserApi.ascii_of.
      replace (10 - length val)%nat with 0%nat by lia. reflexivity.
    + destruct (lookup_lt_is_Some_2 val k ltac:(lia)) as [c Hc].
      unfold getitem. rewrite Hc.
      rewrite bind_ret.
      unfold Coordinator.setitem, len.
      assert (Hla : length (take k val ++ replicate (10 - k) 0) = 10%nat).
      { rewrite length_app, length_take, length_replicate. lia. }
      rewrite Hla.
      destruct (Z.ltb_spec (Z.of_nat k) 0) as [?|_]; [lia|].
      destruct (Z.leb_spec 0 (Z.of_nat k)) as [_|?]; [|lia].
      destruct (Z.ltb_spec (Z.of_nat k) (Z.of_nat 10)) as [_|?]; [|lia].
      cbn [andb]. rewrite bind_ret. rewrite Nat2Z.id.
      replace (10 - k)%nat with (S (10 - S k)) by lia.
      cbn [replicate].
      replace (<[k := c]> (take k val ++ 0 :: replicate (10 - S k) 0))
        with (take (S k) val ++ replicate (10 - S k) 0).
      * apply IH; lia.
      * rewrite (take_S_r val k c Hc), <- app_assoc. cbn [app].
        rewrite <- (insert_middle (take k val) (replicate (10 - S k) 0) 0 c) at 1.
        rewrite length_take. f_equal. lia.
Qed.

Lemma zip_add_interchange (x y u v : list Z) :
  zip_with Z.add (zip_with Z.add x u) (zip_with Z.add y v)
  = zip_with Z.add (zip_with Z.add x y) (zip_with Z.add u v).
Proof.
  revert y u v. induction x as [|a x IH]; intros [|b y] [|c u] [|d v]; cbn; try reflexivity.
  rewrite IH. f_equal. lia.
Qed.

Lemma zip_add_zeros (l : list Z) : zip_with Z.add l (replicate (length l) 0) = l.
Proof.
  induction l as [|x l IH]; cbn; [reflexivity|]. rewrite IH. f_equal. lia.
Qed.

Lemma zip_add_unit (pre post : list Z) (dlt : Z) (n : nat) :
  n = length (pre ++ 0 :: post) ->
  zip_with Z.add (pre ++ 0 :: post) (<[length pre := dlt]> (replicate n 0))
  = pre ++ dlt :: post.
Proof.
  intros ->. induction pre as [|x pre IH].
  - cbn. now rewrite zip_add_zeros.
  - simpl. rewrite IH. f_equal. lia.
Qed.

Section UserRuns.

Variable f : nat -> bool.
Hypothesis quiet : forall n, f n = false.

Variables (a : list Z) (t : gmap Z (list sock)).

Lemma read_i64_any s bs r n ib ub rb d lg :
  ib !! s = Some bs -> (8 <= length bs)%nat ->
  read_i64 s (World a t r n ib ub rb d f lg)
  = (Ok (struct_unpack_q (take 8 bs)),
     World a t r n (<[s := drop 8 bs]> ib) ub rb d f (lg ++ [EvRecv s (take 8 bs)])).
Proof.
  intros Hib Hl. unfold read_i64.
  erewrite bind_ok; [reflexivity|].
  apply (recv_exact_ok f quiet); [now rewrite take_drop|rewrite length_take; lia|discriminate].
Qed.

(** A thread running [read_share], whatever the connection delivers. *)
Lemma read_share_thread hp vec reply r n ib ub rb d lg :
  len vec < 2 ^ 32 -> Forall i64 vec ->
  exists ib' evs,
    Coordinator.thread (Coordinator.read_share hp vec)
      (World a t r n ib ub rb (reply :: d) f lg)
    = (Ok (if (length reply <? 8)%nat then None else Some (struct_unpack_q (take 8 reply))),
       World a t r (S n) ib' ub rb d f (lg ++ evs))
    /\ (forall s, s <> n -> sent s evs = []).
Proof.
  intros Hlen Fv.
  destruct (Nat.ltb_spec (length reply) 8) as [Hs|Hl].
  - do 2 eexists. split.
    + eapply thread_raise. apply (read_share_eof f quiet); assumption.
    + intros s Hne. rewrite sent_app, sent_ev_send_request_other by congruence.
      reflexivity.
  - do 2 eexists. split.
    + apply thread_ok. unfold Coordinator.read_share.
      rewrite (send_request_ok f quiet) by (unfold OP_READ_SECURE; auto; lia).
      run ltac:(apply read_i64_any; [apply lookup_insert_eq|exact Hl]).
      run ltac:(apply close_ok; exact quiet).
      unfold ret. rewrite <- !app_assoc. reflexivity.
    + intros s Hne. rewrite sent_app, sent_ev_send_request_other by congruence.
      reflexivity.
Qed.

Lemma read_slot_run (ar : UserApi.args) (i : nat) r0 r1 tape n ib ub rb d lg :
  0 <= UserApi.STR_SIZE * UserApi.idx ar + Z.of_nat i < UserApi.dim ar * UserApi.STR_SIZE ->
  UserApi.dim ar * UserApi.STR_SIZE < 2 ^ 32 ->
  exists ib' evs,
    UserApi.read_slot ar i (World a t tape n ib ub rb (r0 :: r1 :: d) f lg)
    = (Ok (UserApi.reply_value r0, UserApi.reply_value r1),
       World a t (drop (Z.to_nat (UserApi.dim ar * UserApi.STR_SIZE)) tape)
             (S (S n)) ib' ub rb d f (lg ++ evs))
    /\ (forall s, (S n < s)%nat -> sent s evs = []).
Proof.
  intros Hp HD. unfold UserApi.read_slot.
  set (D := UserApi.dim ar * UserApi.STR_SIZE) in *.
  set (p := UserApi.STR_SIZE * UserApi.idx ar + Z.of_nat i) in *.
  destruct (basis_share_lengths D p 1 tape) as [Le Lf].
  run ltac:(apply make_standard_basis_share_ok; exact Hp).
  destruct (read_share_thread (UserApi.c0 ar) (fst (Coordinator.basis_share D p 1 tape))
              r0 (drop (Z.to_nat D) tape) n ib ub rb (r1 :: d) lg)
    as (ib1 & ev1 & E1 & S1).
  { unfold len. rewrite Le. lia. }
  { apply basis_share_unit_range. }
  erewrite bind_ok by exact E1.
  destruct (read_share_thread (UserApi.c1 ar) (snd (Coordinator.basis_share D p 1 tape))
              r1 (drop (Z.to_nat D) tape) (S n) ib1 ub rb d (lg ++ ev1))
    as (ib2 & ev2 & E2 & S2).
  { unfold len. rewrite Lf. lia. }
  { apply basis_share_f_range. }
  erewrite bind_ok by exact E2.
  exists ib2, (ev1 ++ ev2). split.
  - unfold ret, UserApi.reply_value. rewrite <- app_assoc.
    destruct (length r0 <? 8)%nat, (length r1 <? 8)%nat; reflexivity.
  - intros s Hs. rewrite sent_app, S1, S2 by lia. reflexivity.
Qed.

Lemma read_slots_run (ar : UserApi.args) (rs : list (list byte * list byte)) :
  forall (k : nat) tape n ib lg ub rb d,
  (forall i, (k <= i < k + length rs)%nat ->
             0 <= UserApi.STR_SIZE * UserApi.idx ar + Z.of_nat i
             < UserApi.dim ar * UserApi.STR_SIZE) ->
  UserApi.dim ar * UserApi.STR_SIZE < 2 ^ 32 ->
  exists tape' ib' evs,
    for_list (seq k (length rs)) (UserApi.read_slot ar)
      (World a t tape n ib ub rb (UserApi.slot_dials rs ++ d) f lg)
    = (Ok (UserApi.stored_of rs),
       World a t tape' (2 * length rs + n)%nat ib' ub rb d f (lg ++ evs))
    /\ (forall s, (2 * length rs + n <= s)%nat -> sent s evs = []).
Proof.
  induction rs as [|[r0 r1] rs IH]; intros k tape n ib lg ub rb d Hp HD.
  - exists tape, ib, []. cbn. rewrite app_nil_r. split; reflexivity.
  - cbn [length seq for_list UserApi.slot_dials map concat app fst snd].
    destruct (read_slot_run ar k r0 r1 tape n ib ub rb
                (UserApi.slot_dials rs ++ d) lg) as (ib1 & ev1 & E1 & S1).
    { apply Hp. cbn [length]. lia. }
    { exact HD. }
    fold (UserApi.slot_dials rs).
    erewrite bind_ok by exact E1.
    destruct (IH (S k) (drop (Z.to_nat (UserApi.dim ar * UserApi.STR_SIZE)) tape)
                (S (S n)) ib1 (lg ++ ev1) ub rb d) as (tape' & ib2 & ev2 & E2 & S2).
    { intros i Hi. apply Hp. cbn [length]. lia. }
    { exact HD. }
    erewrite bind_ok by exact E2.
    exists tape', ib2, (ev1 ++ ev2). split.
    + unfold ret, UserApi.stored_of. cbn [map fst snd]. rewrite <- app_assoc.
      replace (2 * S (length rs) + n)%nat with (2 * length rs + S (S n))%nat by lia.
      reflexivity.
    + intros s Hs. rewrite sent_app, S1, S2 by lia. reflexivity.
Qed.

End UserRuns.

Lemma basis_share_fst_bound (D p dlt M : Z) (tape : list Z) :
  0 <= M -> - M <= dlt <= M ->
  Forall (fun x => - (M + 1024) <= x <= M + 1024) (fst (Coordinator.basis_share D p dlt tape)).
Proof.
  intros HM Hd. unfold Coordinator.basis_share. cbn [fst].
  apply (Forall_zip_with2 (fun x => - M <= x <= M) (fun y => 1 <= y <= 1024)).
  - intros x y Hx Hy. lia.
  - apply Forall_insert; [apply Forall_replicate|]; lia.
  - apply random_vec_range.
Qed.

Lemma basis_share_snd_bound (D p dlt M : Z) (tape : list Z) :
  0 <= M ->
  Forall (fun x => - (M + 1024) <= x <= M + 1024) (snd (Coordinator.basis_share D p dlt tape)).
Proof.
  intros HM. unfold Coordinator.basis_share. cbn [snd].
  eapply Forall_impl; [apply random_vec_range|]. cbn. intros x Hx. lia.
Qed.

(** The loop of the write branch that accumulates the two vectors. *)
Lemma write_fold_run (ar : UserApi.args) (va : list Z) (stored : list (Z * Z)) (M : Z) :
  let D := UserApi.dim ar * UserApi.STR_SIZE in
  let N := Z.to_nat D in
  let base := Z.to_nat (UserApi.STR_SIZE * UserApi.idx ar) in
  let deltas := zip_with (fun v st => v - fst st - snd st) va stored in
  0 <= UserApi.idx ar < UserApi.dim ar ->
  length va = 10%nat -> length stored = 10%nat -> 0 <= M ->
  Forall (fun x => - M <= x <= M) deltas ->
  forall (m k : nat) (e0 e1 : list Z) a t tape n ib ub rb d f lg,
    (k + m = 10)%nat -> length e0 = N -> length e1 = N ->
    zip_with Z.add e0 e1 = replicate base 0 ++ take k deltas ++ replicate (N - base - k) 0 ->
    Forall (fun x => - (Z.of_nat k * (M + 1024)) <= x <= Z.of_nat k * (M + 1024)) e0 ->
    Forall (fun x => - (Z.of_nat k * (M + 1024)) <= x <= Z.of_nat k * (M + 1024)) e1 ->
    exists e0' e1' tape',
      Coordinator.for_fold (seq k m)
        (fun i es =>
           v <- getitem va i ;;
           st <- UserApi.stored_getitem stored i ;;
           sh <- Coordinator.make_standard_basis_share D
                   (UserApi.STR_SIZE * UserApi.idx ar + Z.of_nat i) (v - fst st - snd st) ;;
           ret (zip_with Z.add (fst es) (fst sh), zip_with Z.add (snd es) (snd sh)))%py
        (e0, e1) (World a t tape n ib ub rb d f lg)
      = (Ok (e0', e1'), World a t tape' n ib ub rb d f lg)
      /\ length e0' = N /\ length e1' = N
      /\ zip_with Z.add e0' e1' = UserApi.placed N base deltas
      /\ Forall (fun x => - (10 * (M + 1024)) <= x <= 10 * (M + 1024)) e0'
      /\ Forall (fun x => - (10 * (M + 1024)) <= x <= 10 * (M + 1024)) e1'.
Proof.
  intros D N base deltas Hidx Lva Lst HM Hdl.
  assert (Ldl : length deltas = 10%nat).
  { unfold deltas. rewrite length_zip_with. lia. }
  unfold UserApi.STR_SIZE in *.
  induction m as [|m IH]; intros k e0 e1 a t tape n ib ub rb d f lg Hkm L0 L1 Hsum F0 F1.
  - assert (k = 10%nat) by lia. subst k.
    exists e0, e1, tape. cbn [seq Coordinator.for_fold]. split; [reflexivity|].
    split; [exact L0|]. split; [exact L1|].
    split; [|split; [exact F0|exact F1]].
    rewrite Hsum. unfold UserApi.placed. rewrite take_ge by lia. now rewrite Ldl.
  - cbn [seq Coordinator.for_fold].
    destruct (lookup_lt_is_Some_2 va k ltac:(lia)) as [v Hv].
    destruct (lookup_lt_is_Some_2 stored k ltac:(lia)) as [st Hst].
    unfold getitem at 1. rewrite Hv. rewrite bind_assoc, bind_ret.
    unfold UserApi.stored_getitem at 1. rewrite Hst. rewrite bind_assoc, bind_ret.
    set (dlt := v - fst st - snd st).
    set (p := 10 * UserApi.idx ar + Z.of_nat k).
    assert (Hp : 0 <= p < D) by (unfold p, D; lia).
    assert (Hdk : deltas !! k = Some dlt).
    { unfold deltas. rewrite lookup_zip_with, Hv. cbn. rewrite Hst. reflexivity. }
    assert (Hdb : - M <= dlt <= M).
    { rewrite Forall_forall in Hdl. apply Hdl. eapply list_elem_of_lookup_2. exact Hdk. }
    rewrite bind_assoc.
    erewrite bind_ok by (apply make_standard_basis_share_ok; exact Hp).
    rewrite bind_ret. cbn [fst snd].
    destruct (basis_share_lengths D p dlt tape) as [Le Lf].
    apply IH.
    + lia.
    + rewrite length_zip_with, L0, Le. fold N. lia.
    + rewrite length_zip_with, L1, Lf. fold N. lia.
    + rewrite zip_add_interchange, Hsum, basis_share_sum.
      assert (HN : (base + k < N)%nat) by (unfold base, N, D; lia).
      replace (N - base - k)%nat with (S (N - base - S k)) by lia.
      cbn [replicate]. rewrite app_assoc.
      replace (Z.to_nat p) with (length (replicate base 0 ++ take k deltas)).
      2:{ rewrite length_app, length_replicate, length_take. unfold p, base. lia. }
      rewrite zip_add_unit.
      * rewrite (take_S_r deltas k dlt Hdk), <- !app_assoc. reflexivity.
      * rewrite !length_app, length_replicate, length_take. cbn [length].
        rewrite length_replicate. fold N. lia.
    + eapply Forall_impl.
      * apply (Forall_zip_with2
                 (fun x => - (Z.of_nat k * (M + 1024)) <= x <= Z.of_nat k * (M + 1024))
                 (fun y => - (M + 1024) <= y <= M + 1024)
                 (fun z => - (Z.of_nat (S k) * (M + 1024)) <= z
                           <= Z.of_nat (S k) * (M + 1024)));
          [intros; lia|exact F0|apply basis_share_fst_bound; assumption].
      * cbn. intros; lia.
    + eapply Forall_impl.
      * apply (Forall_zip_with2
                 (fun x => - (Z.of_nat k * (M + 1024)) <= x <= Z.of_nat k * (M + 1024))
                 (fun y => - (M + 1024) <= y <= M + 1024)
                 (fun z => - (Z.of_nat (S k) * (M + 1024)) <= z
                           <= Z.of_nat (S k) * (M + 1024)));
          [intros; lia|exact F1|apply basis_share_snd_bound; assumption].
      * cbn. intros; lia.
Qed.

Lemma zip_add_zeros_r (n : nat) : zip_with Z.add (replicate n 0) (replicate n 0) = replicate n 0.
Proof. induction n as [|n IH]; cbn; [reflexivity|]. now rewrite IH. Qed.

(** ** Connections closed by the exchanges of a READ *)

Lemma is_closed_ev_send_two_vecs host port (s : sock) sid tag u v :
  is_closed s (Party.ev_send_two_vecs host port s sid tag u v) = true.
Proof. unfold Party.ev_send_two_vecs. rewrite !app_assoc. apply is_closed_last. Qed.

Lemma is_closed_ev_recv_two_vecs l (s : sock) sid tag u v :
  is_closed s (Party.ev_recv_two_vecs l s sid tag u v) = true.
Proof. unfold Party.ev_recv_two_vecs. rewrite !app_assoc. apply is_closed_last. Qed.

Lemma is_closed_ev_fetch_share host port (s : sock) dim sid a_i b_i c_i :
  is_closed s (Party.ev_fetch_share host port s dim sid a_i b_i c_i) = true.
Proof.
  unfold Party.ev_fetch_share.
  change [EvRecv s (enc_i64 c_i); EvClose s] with ([EvRecv s (enc_i64 c_i)] ++ [EvClose s]).
  rewrite !app_assoc. apply is_closed_last.
Qed.

Lemma is_closed_ev_dta_cross host port (n : sock) sid tag (x_side : bool) me pe :
  is_closed n (Party.ev_dta_cross host port n sid tag x_side me pe) = true
  /\ is_closed (S n) (Party.ev_dta_cross host port n sid tag x_side me pe) = true.
Proof.
  unfold Party.ev_dta_cross. destruct x_side; rewrite !is_closed_app.
  - rewrite is_closed_ev_send_two_vecs, is_closed_ev_recv_two_vecs.
    split; [reflexivity|apply orb_true_r].
  - rewrite is_closed_ev_send_two_vecs, is_closed_ev_recv_two_vecs.
    split; [reflexivity|apply orb_true_r].
Qed.
(* ================================================================== *)
(** * Part III: the claims *)
(* ================================================================== *)

(** C2 (as amended).  One cross-term, run by the party on the X side
    with input [x] and by the party on the Y side with input [y], the
    two holding the shares of a triple with
    [dot (aX + aY) (bX + bY) = cX + cY].  When the session id and every
    residual element fit the signed 64-bit range, both calls of
    [dta_cross] return, each party has sent exactly the residual frame
    the other one received, and the two outputs add up to [dot x y] as
    unbounded integers (hence also modulo 2^64). *)
Theorem dta_cross_pair_sum
    (rX rY : Party.role) (sid tag : Z) (x y aX bX aY bY : list Z) (cX cY : Z)
    (hostX hostY : string) (portX portY : Z) (wX wY : world)
    (restX restY bsX bsY : list byte) (rbX rbY dX dY : list (list byte)) :
  rX <> rY ->
  length y = length x -> length aX = length x -> length bX = length x ->
  length aY = length x -> length bY = length x -> len x < 2 ^ 32 ->
  i64 sid -> 0 <= tag <= 255 ->
  dot (zip_with Z.add aX aY) (zip_with Z.add bX bY) = cX + cY ->
  Forall i64 (fst (Party.x_side_parts x aX bX)) ->
  Forall i64 (snd (Party.x_side_parts x aX bX)) ->
  Forall i64 (fst (Party.y_side_parts y aY bY)) ->
  Forall i64 (snd (Party.y_side_parts y aY bY)) ->
  quiet wX -> quiet wY ->
  res_backlog wX
    = (Party.residual_frame sid tag (fst (Party.y_side_parts y aY bY))
         (snd (Party.y_side_parts y aY bY)) ++ restX) :: rbX ->
  dials wX = bsX :: dX ->
  res_backlog wY
    = (Party.residual_frame sid tag (fst (Party.x_side_parts x aX bX))
         (snd (Party.x_side_parts x aX bX)) ++ restY) :: rbY ->
  dials wY = bsY :: dY ->
  exists zX zY wX' wY' evX evY,
    Party.dta_cross rX res_ls hostX portX sid tag true x aX bX cX wX = (Ok zX, wX')
    /\ Party.dta_cross rY res_ls hostY portY sid tag false y aY bY cY wY = (Ok zY, wY')
    /\ zX + zY = dot x y
    /\ (zX + zY) mod 2 ^ 64 = dot x y mod 2 ^ 64
    /\ log wX' = log wX ++ evX
    /\ sent (next_sock wX) evX
       = Party.residual_frame sid tag (fst (Party.x_side_parts x aX bX))
           (snd (Party.x_side_parts x aX bX))
    /\ log wY' = log wY ++ evY
    /\ sent (S (next_sock wY)) evY
       = Party.residual_frame sid tag (fst (Party.y_side_parts y aY bY))
           (snd (Party.y_side_parts y aY bY)).
Proof.
  intros Hr Ly LaX LbX LaY LbY Hlen Hsid Htag Hinv F1 F2 F3 F4 QX QY HrbX HdX HrbY HdY.
  destruct wX as [mX tX rngX nX ibX ubX rbX0 dX0 fX lgX].
  destruct wY as [mY tY rngY nY ibY ubY rbY0 dY0 fY lgY].
  unfold quiet in QX, QY. cbn in QX, QY, HrbX, HdX, HrbY, HdY. subst rbX0 dX0 rbY0 dY0.
  assert (Hleny : len y < 2 ^ 32) by (unfold len in *; rewrite Ly; exact Hlen).
  pose proof (dta_cross_ok fX QX mX tX rngX rX hostX portX sid tag true x aX bX cX
                (fst (Party.y_side_parts y aY bY)) (snd (Party.y_side_parts y aY bY))
                restX bsX nX ibX ubX rbX dX lgX) as EX.
  pose proof (dta_cross_ok fY QY mY tY rngY rY hostY portY sid tag false y aY bY cY
                (fst (Party.x_side_parts x aX bX)) (snd (Party.x_side_parts x aX bX))
                restY bsY nY ibY ubY rbY dY lgY) as EY.
  cbn [Party.my_parts] in EX, EY.
  unfold Party.x_side_parts, Party.y_side_parts in *. cbn [fst snd] in *.
  do 6 eexists.
  split.
  { apply EX; auto; rewrite ?length_zip_with, ?length_map; lia. }
  split.
  { apply EY; auto; rewrite ?length_zip_with, ?length_map; lia. }
  assert (Hsum : Party.cross_result rX (zip_with Z.sub x aX, map Z.opp bX)
                   (map Z.opp aY, zip_with Z.sub y bY) aX bX cX
                 + Party.cross_result rY (map Z.opp aY, zip_with Z.sub y bY)
                     (zip_with Z.sub x aX, map Z.opp bX) aY bY cY = dot x y).
  { apply (cross_results_sum rX rY x y aX bX aY bY cX cY (length x)); auto. }
  unfold Party.x_side_parts, Party.y_side_parts in *.
  split; [exact Hsum|]. split; [now rewrite Hsum|].
  cbn [log next_sock].
  split; [reflexivity|]. split.
  { rewrite sent_app, sent_ev_send_two_vecs, sent_ev_recv_two_vecs. apply app_nil_r. }
  split; [reflexivity|].
  rewrite sent_app, sent_ev_send_two_vecs, sent_ev_recv_two_vecs. reflexivity.
Qed.

Ltac concrete_i64 := repeat constructor; unfold i64, i64_min, i64_max; lia.

Ltac concrete_vec :=
  match goal with
  | |- Forall i64 ?l => let l' := eval vm_compute in l in change (Forall i64 l'); concrete_i64
  end.

Lemma dta_cross_pair_sum_witness :
  exists zX zY,
    fst (Party.dta_cross Party.RoleA res_ls "B" 9801 7 1 true [5] [1] [2] 10
           (initial_world [] [] [Party.residual_frame 7 1 [-3] [3 - 4]] [[]])) = Ok zX
    /\ fst (Party.dta_cross Party.RoleB res_ls "A" 9701 7 1 false [3] [3] [4] 14
              (initial_world [] [] [Party.residual_frame 7 1 [5 - 1] [-2]] [[]])) = Ok zY
    /\ zX + zY = 15.
Proof.
  destruct (dta_cross_pair_sum Party.RoleA Party.RoleB 7 1 [5] [3] [1] [2] [3] [4] 10 14
              "B" "A" 9801 9701
              (initial_world [] [] [Party.residual_frame 7 1 [-3] [3 - 4]] [[]])
              (initial_world [] [] [Party.residual_frame 7 1 [5 - 1] [-2]] [[]])
              [] [] [] [] [] [] [] [])
    as (zX & zY & wX' & wY' & evX & evY & HX & HY & Hsum & _);
    try reflexivity; try discriminate; try concrete_i64; try (intros n; reflexivity).
  exists zX, zY. rewrite HX, HY. repeat split. exact Hsum.
Defined.

(** C2, counterexample.  The X-side input [-2^63] and the triple shares
    ([1], [1], 0) and ([0], [0], 1) are all signed 64-bit values and
    satisfy the triple invariant, yet the residual [x - a_i] is
    [-2^63 - 1]: [pack_i64] raises and the X side produces no output. *)
Lemma dta_cross_residual_out_of_range :
  Forall i64 [i64_min] /\ Forall i64 [0]
  /\ dot (zip_with Z.add [1] [0]) (zip_with Z.add [1] [0]) = 0 + 1
  /\ fst (Party.dta_cross Party.RoleA res_ls "B" 9801 7 1 true [i64_min] [1] [1] 0
            (initial_world [] [] [Party.residual_frame 7 1 [0] [0]] [[]]))
     = Raise StructError.
Proof.
  split; [concrete_i64|]. split; [concrete_i64|]. split; reflexivity.
Qed.





(** C3.  For every dimension [1 <= D < 2^32] (the dimension is read as
    a [u32]) and every entropy, when a request for [D] arrives while
    [peer] waits for [D], the dealer sends the frame of share 0 to
    [peer] and the frame of share 1 to the arriving connection; the two
    frames carry the same [dim] and the same [sid], a non-negative
    63-bit integer; [fetch_share] run on either frame returns that
    [sid] and the share; and the two shares satisfy
    [dot (a0 + a1) (b0 + b1) = c0 + c1] exactly. *)
Theorem dealer_pair_shares (D : Z) (w : world) (conn peer : sock) (rest : list byte) :
  1 <= D < 2 ^ 32 -> quiet w -> peer <> conn ->
  waiting w !! D = Some [peer] ->
  inbox w !! conn = Some (enc_u8 OP_REQUEST ++ enc_u32 D ++ rest) ->
  let t := Dealer.triple_of D (rng w) in
  exists w' ev,
    Dealer.handle_one conn w = (Ok tt, w')
    /\ log w' = log w ++ ev
    /\ sent peer ev
       = share_frame D (Dealer.t_sid t) (Dealer.t_a0 t) (Dealer.t_b0 t) (Dealer.t_c0 t)
    /\ sent conn ev
       = share_frame D (Dealer.t_sid t) (Dealer.t_a1 t) (Dealer.t_b1 t) (Dealer.t_c1 t)
    /\ 0 <= Dealer.t_sid t < 2 ^ 63
    /\ dot (zip_with Z.add (Dealer.t_a0 t) (Dealer.t_a1 t))
           (zip_with Z.add (Dealer.t_b0 t) (Dealer.t_b1 t))
       = Dealer.t_c0 t + Dealer.t_c1 t
    /\ (forall host port (wp : world) d,
          quiet wp -> dials wp = sent peer ev :: d ->
          fst (Party.fetch_share host port D wp)
          = Ok (Dealer.t_sid t, Dealer.t_a0 t, Dealer.t_b0 t, Dealer.t_c0 t))
    /\ (forall host port (wp : world) d,
          quiet wp -> dials wp = sent conn ev :: d ->
          fst (Party.fetch_share host port D wp)
          = Ok (Dealer.t_sid t, Dealer.t_a1 t, Dealer.t_b1 t, Dealer.t_c1 t)).
Proof.
  intros HD Q Hne Hw Hib t.
  destruct w as [a tb tape n ib ub rb d f lg]. unfold quiet in Q. cbn in Q, Hw, Hib.
  destruct (handle_one_paired_ok f Q a D conn peer rest tb tape n ib ub rb d lg HD Hw Hib)
    as [tape' E].
  destruct (triple_of_facts D tape ltac:(lia))
    as (Hsid & La0 & Lb0 & La1 & Lb1 & Hinv & Fa0 & Fb0 & Fc0 & Fa1 & Fb1 & Fc1 & Fsid).
  cbn [rng] in t. fold t in E, Hsid, La0, Lb0, La1, Lb1, Hinv, Fa0, Fb0, Fc0, Fa1, Fb1, Fc1, Fsid.
  match type of E with
  | _ = (_, World _ _ _ _ _ _ _ _ _ (_ ++ ?l)) => set (ev := l) in *
  end.
  assert (Sp : sent peer ev
               = share_frame D (Dealer.t_sid t) (Dealer.t_a0 t) (Dealer.t_b0 t)
                   (Dealer.t_c0 t)).
  { unfold ev.
    repeat first [ rewrite sent_app | rewrite sent_ev_send_share
                 | rewrite sent_ev_send_share_other by congruence
                 | rewrite app_nil_r | progress cbn [sent app] ].
    reflexivity. }
  assert (Sc : sent conn ev
               = share_frame D (Dealer.t_sid t) (Dealer.t_a1 t) (Dealer.t_b1 t)
                   (Dealer.t_c1 t)).
  { unfold ev.
    repeat first [ rewrite sent_app | rewrite sent_ev_send_share
                 | rewrite sent_ev_send_share_other by congruence
                 | rewrite app_nil_r | progress cbn [sent app] ].
    reflexivity. }
  clearbody ev.
  eexists. exists ev. split; [exact E|]. cbn [log].
  split; [reflexivity|]. split; [exact Sp|]. split; [exact Sc|].
  split; [exact Hsid|]. split; [exact Hinv|].
  split.
  - intros host port [a' t' r' n' ib' ub' rb' d' f' lg'] d0 Q' Hd.
    unfold quiet in Q'. cbn in Q', Hd. subst d'. rewrite Sp.
    rewrite <- (app_nil_r (share_frame _ _ _ _ _)).
    rewrite fetch_share_ok; auto. lia.
  - intros host port [a' t' r' n' ib' ub' rb' d' f' lg'] d0 Q' Hd.
    unfold quiet in Q'. cbn in Q', Hd. subst d'. rewrite Sc.
    rewrite <- (app_nil_r (share_frame _ _ _ _ _)).
    rewrite fetch_share_ok; auto. lia.
Qed.

Lemma dealer_pair_shares_witness :
  exists w',
    Dealer.handle_one 7%nat
      (World [] {[2 := [5%nat]]} [11; 22; 33; 44; 55; 66; 77; 88; 99; 12345] 10%nat
             {[7%nat := enc_u8 OP_REQUEST ++ enc_u32 2]} [] [] [] (fun _ => false) [])
    = (Ok tt, w')
    /\ sent 5%nat (log w') = share_frame 2 12345 [12; 23] [56; 67] 100
    /\ sent 7%nat (log w')
       = share_frame 2 12345 [34; 45] [78; 89] ((12 + 34) * (56 + 78) + (23 + 45) * (67 + 89) - 100).
Proof.
  destruct (dealer_pair_shares 2
              (World [] {[2 := [5%nat]]} [11; 22; 33; 44; 55; 66; 77; 88; 99; 12345] 10%nat
                     {[7%nat := enc_u8 OP_REQUEST ++ enc_u32 2]} [] [] [] (fun _ => false) [])
              7%nat 5%nat [])
    as (w' & ev & E & Hlog & Sp & Sc & _);
    [lia|intros n; reflexivity|lia|reflexivity|reflexivity|].
  exists w'. split; [exact E|]. rewrite Hlog. cbn [log app]. rewrite Sp, Sc.
  split; reflexivity.
Defined.

(** C7.  Whatever requests arrive and in whatever order their handlers
    enter the block under [waiting_mu], the table and every state it
    goes through hold at most one waiting connection per dimension.
    When a request for [D] arrives while [peer] waits for [D], the
    handler removes the waiter inside the block, which leaves no entry
    for [D] and the other dimensions untouched, and only then sends one
    share frame on each of the two connections and closes both. *)
Theorem dealer_waiting_table :
  (forall (arrivals : list (Z * sock)) (w : world),
      Dealer.dealer_inv w ->
      Dealer.dealer_inv (snd (Dealer.critical_regions arrivals w)))
  /\ (forall (D : Z) (w : world) (conn peer : sock) (rest : list byte),
        1 <= D < 2 ^ 32 -> quiet w -> peer <> conn ->
        waiting w !! D = Some [peer] ->
        inbox w !! conn = Some (enc_u8 OP_REQUEST ++ enc_u32 D ++ rest) ->
        let t := Dealer.triple_of D (rng w) in
        exists w',
          Dealer.handle_one conn w = (Ok tt, w')
          /\ waiting w' !! D = None
          /\ (forall D', D' <> D -> waiting w' !! D' = waiting w !! D')
          /\ log w'
             = log w
               ++ [EvRecv conn (enc_u8 OP_REQUEST); EvRecv conn (enc_u32 D);
                   EvWaiting (<[D := []]> (waiting w)); EvWaiting (waiting w')]
               ++ Dealer.ev_send_share peer D (Dealer.t_sid t) (Dealer.t_a0 t)
                    (Dealer.t_b0 t) (Dealer.t_c0 t)
               ++ [EvShutdown peer; EvClose peer]
               ++ Dealer.ev_send_share conn D (Dealer.t_sid t) (Dealer.t_a1 t)
                    (Dealer.t_b1 t) (Dealer.t_c1 t)
               ++ [EvShutdown conn; EvClose conn]
          /\ sent peer (log w')
             = sent peer (log w)
               ++ share_frame D (Dealer.t_sid t) (Dealer.t_a0 t) (Dealer.t_b0 t) (Dealer.t_c0 t)
          /\ sent conn (log w')
             = sent conn (log w)
               ++ share_frame D (Dealer.t_sid t) (Dealer.t_a1 t) (Dealer.t_b1 t) (Dealer.t_c1 t)
          /\ is_closed peer (log w') = true
          /\ is_closed conn (log w') = true).
Proof.
  split; [exact critical_regions_inv|].
  intros D w conn peer rest HD Q Hne Hw Hib t.
  destruct w as [a tb tape n ib ub rb d f lg]. unfold quiet in Q. cbn in Q, Hw, Hib.
  destruct (handle_one_paired_ok f Q a D conn peer rest tb tape n ib ub rb d lg HD Hw Hib)
    as [tape' E].
  cbn [rng] in t. fold t in E.
  eexists. split; [exact E|]. cbn [waiting log].
  split; [rewrite delete_insert_eq; apply lookup_delete_eq|].
  split.
  { intros D' HD'. rewrite lookup_delete_ne by congruence.
    now rewrite lookup_insert_ne by congruence. }
  split; [reflexivity|].
  split.
  { repeat first [ rewrite sent_app | rewrite sent_ev_send_share
                 | rewrite sent_ev_send_share_other by congruence
                 | rewrite app_nil_r | progress cbn [sent app] ].
    reflexivity. }
  split.
  { repeat first [ rewrite sent_app | rewrite sent_ev_send_share
                 | rewrite sent_ev_send_share_other by congruence
                 | rewrite app_nil_r | progress cbn [sent app] ].
    reflexivity. }
  unfold is_closed. rewrite !existsb_app.
  split.
  - cbn [existsb is_close app]. rewrite Nat.eqb_refl.
    repeat (rewrite ?orb_true_r; cbn [orb]). rewrite ?orb_true_r. reflexivity.
  - cbn [existsb is_close app]. rewrite Nat.eqb_refl.
    repeat (rewrite ?orb_true_r; cbn [orb]). rewrite ?orb_true_r. reflexivity.
Qed.

Lemma dealer_waiting_table_witness :
  Dealer.dealer_inv
    (snd (Dealer.critical_regions [(4, 1%nat); (4, 2%nat); (4, 3%nat); (7, 9%nat)]
            (initial_world [] [] [] [])))
  /\ exists w',
       Dealer.handle_one 7%nat
         (World [] {[2 := [5%nat]]} [11; 22; 33; 44; 55; 66; 77; 88; 99; 12345] 10%nat
                {[7%nat := enc_u8 OP_REQUEST ++ enc_u32 2]} [] [] [] (fun _ => false) [])
       = (Ok tt, w')
       /\ waiting w' !! 2 = None
       /\ is_closed 5%nat (log w') = true /\ is_closed 7%nat (log w') = true.
Proof.
  destruct dealer_waiting_table as [Hinv Hpair]. split.
  - apply Hinv. split; [exact at_most_one_empty|constructor].
  - destruct (Hpair 2
                (World [] {[2 := [5%nat]]} [11; 22; 33; 44; 55; 66; 77; 88; 99; 12345] 10%nat
                       {[7%nat := enc_u8 OP_REQUEST ++ enc_u32 2]} [] [] [] (fun _ => false) [])
                7%nat 5%nat [])
      as (w' & E & Hrm & _ & _ & _ & _ & Hc1 & Hc2);
      [lia|intros n; reflexivity|lia|reflexivity|reflexivity|].
    exists w'. auto.
Defined.

(** C9 (as amended).  For every [dim >= 1] and every index that a list
    of length [dim] accepts, [-dim <= idx < dim] (a negative index
    counts from the end), the second share [f] returned by
    [make_standard_basis_share] does not depend on the value: from the
    same state of the random generator the calls for [val] and [val']
    both return, with the same [f] (and leave the generator in the same
    state). *)
Theorem basis_share_f_independent (dim idx val val' : Z) (w : world) :
  1 <= dim -> - dim <= idx < dim ->
  exists e e' f w',
    Coordinator.make_standard_basis_share dim idx val w = (Ok (e, f), w')
    /\ Coordinator.make_standard_basis_share dim idx val' w = (Ok (e', f), w')
    /\ f = random_vec (Z.to_nat dim) (rng w).
Proof.
  intros Hdim Hidx. destruct w as [a t tape n ib ub rb d f lg].
  set (p := if idx <? 0 then idx + dim else idx).
  assert (Hp : 0 <= p < dim).
  { unfold p. destruct (Z.ltb_spec idx 0); lia. }
  assert (E : forall v w0, Coordinator.make_standard_basis_share dim idx v w0
                           = Coordinator.make_standard_basis_share dim p v w0).
  { intros v w0. unfold p. destruct (Z.ltb_spec idx 0); [|reflexivity].
    apply make_standard_basis_share_negative. lia. }
  exists (fst (Coordinator.basis_share dim p val tape)),
         (fst (Coordinator.basis_share dim p val' tape)),
         (random_vec (Z.to_nat dim) tape).
  eexists. rewrite !E, !make_standard_basis_share_ok by exact Hp.
  repeat split.
Qed.

Lemma basis_share_f_independent_witness :
  exists e e' f,
    fst (Coordinator.make_standard_basis_share 3 (-2) 7 (initial_world [10; 20; 30] [] [] []))
    = Ok (e, f)
    /\ fst (Coordinator.make_standard_basis_share 3 (-2) (-50)
              (initial_world [10; 20; 30] [] [] [])) = Ok (e', f)
    /\ f = [11; 21; 31].
Proof.
  destruct (basis_share_f_independent 3 (-2) 7 (-50) (initial_world [10; 20; 30] [] [] []))
    as (e & e' & f & w' & H1 & H2 & Hf); [lia|lia|].
  exists e, e', f. rewrite H1, H2. repeat split. exact Hf.
Defined.

(** C9, counterexample.  [dim = 2] and [idx = -3] satisfy [dim >= 1]
    and [idx < dim], and the guard of [main] lets the index through;
    but [e[idx] = int(val)] raises [IndexError], for one value as for
    the other, before any random number is drawn: no [f] is returned. *)
Lemma basis_share_index_below_range :
  1 <= 2 /\ -3 < 2
  /\ Coordinator.make_standard_basis_share 2 (-3) 5 (initial_world [1; 2] [] [] [])
     = (Raise IndexError, initial_world [1; 2] [] [] [])
  /\ Coordinator.make_standard_basis_share 2 (-3) 7 (initial_world [1; 2] [] [] [])
     = (Raise IndexError, initial_world [1; 2] [] [] [])
  /\ fst (Coordinator.main
            (Coordinator.Args Coordinator.op_write 2 (-3) 5 ("A"%string, 9700)
               ("B"%string, 9800))
            (initial_world [1; 2] [] [] [OK_bytes; OK_bytes]))
     = Raise IndexError.
Proof.
  split; [lia|]. split; [lia|]. split; [reflexivity|]. split; reflexivity.
Qed.

(** C5 (as amended).  The protocol arithmetic is carried out on
    unbounded integers and is never reduced modulo 2^64.  The 64-bit
    width matters only on the wire: [pack_i64] encodes a value of the
    signed 64-bit range in eight bytes that [struct.unpack] decodes to
    the same value, and raises [struct.error] for any other value.  A
    WRITE adds the received vector to [A_share] element by element,
    exactly; a READ replies with [read_value], the exact combination of
    inner products, when it fits the range, and otherwise raises
    without replying. *)
Theorem arithmetic_is_exact :
  (forall (x : Z) (w : world),
      i64 x -> pack_i64 x w = (Ok (enc_i64 x), w) /\ struct_unpack_q (enc_i64 x) = x)
  /\ (forall (x : Z) (w : world), ~ i64 x -> pack_i64 x w = (Raise StructError, w))
  /\ (forall (cfg : Party.config) (conn : sock) (w : world) (vec : list Z),
        quiet w -> len vec = Party.rows cfg -> Party.rows cfg < 2 ^ 32 ->
        length (A_share w) = length vec -> Forall i64 vec ->
        inbox w !! conn = Some (request OP_WRITE_VEC vec) ->
        exists w',
          Party.handle cfg conn w = (Ok tt, w')
          /\ A_share w' = zip_with Z.add (A_share w) vec)
  /\ (forall cfg conn (w : world) e sid a_i b_i c_i pe01 pe10,
        Party.read_setup cfg conn w e sid a_i b_i c_i pe01 pe10 ->
        let v := Party.read_value (Party.cfg_role cfg) (A_share w) e a_i b_i c_i pe01 pe10 in
        exists w' evs,
          Party.handle cfg conn w = (if fits_i64 v then Ok tt else Raise StructError, w')
          /\ log w' = log w ++ evs
          /\ sent conn evs = (if fits_i64 v then enc_i64 v else [])).
Proof.
  split; [|split; [|split]].
  - intros x w Hx. split; [now apply pack_i64_ok|now apply struct_unpack_q_enc].
  - intros x w Hx. now apply pack_i64_out_of_range.
  - intros cfg conn [mem t r n ib ub rb d f lg] vec Q Hrows Hlt Hmem Fv Hib.
    unfold quiet in Q. cbn in Q, Hmem, Hib. eexists. split.
    + apply (handle_write_ok f Q t r cfg conn mem vec [] n ib ub rb d lg Hrows Hlt Hmem Fv).
      rewrite app_nil_r. exact Hib.
    + reflexivity.
  - intros cfg conn w e sid a_i b_i c_i pe01 pe10 Hs v.
    destruct (handle_read_setup cfg conn w e sid a_i b_i c_i pe01 pe10 Hs)
      as (w' & E & _ & Hlog).
    fold v in E, Hlog. exists w'. eexists. split; [exact E|]. split; [exact Hlog|].
    assert (Hfresh : (conn < next_sock w)%nat) by apply Hs.
    rewrite sent_app, sent_ev_read_exchanges_old by exact Hfresh.
    destruct (fits_i64 v); [apply sent_send_eq|reflexivity].
Qed.


Lemma arithmetic_is_exact_witness :
  struct_unpack_q (enc_i64 (-5)) = -5
  /\ pack_i64 (2 ^ 63) (initial_world [] [] [] [])
     = (Raise StructError, initial_world [] [] [] []).
Proof.
  destruct arithmetic_is_exact as (Hin & Hout & _). split.
  - apply (Hin (-5) (initial_world [] [] [] [])). unfold i64, i64_min, i64_max. lia.
  - apply Hout. unfold i64, i64_min, i64_max. lia.
Defined.

(** C5, counterexample.  Nothing wraps: two WRITEs of [2^63 - 1] leave
    [2^64 - 2] in [A_share], not [-2]; [pack_i64] raises on [2^63]; and
    a READ whose reply leaves the range raises instead of replying. *)
Lemma arithmetic_does_not_wrap :
  A_share (snd (Party.serve (Party.Config Party.RoleA 1 "B" 9801 "dealer" 9300) 2
                  (initial_world []
                     [request OP_WRITE_VEC [i64_max]; request OP_WRITE_VEC [i64_max]] [] [])))
  = [2 ^ 64 - 2]
  /\ fst (pack_i64 (2 ^ 63) (initial_world [] [] [] [])) = Raise StructError
  /\ fst (Party.serve (System.sc_cfgA System.large_scenario) 2
            (System.worldA System.large_scenario)) = Raise StructError.
Proof. repeat split; vm_compute; reflexivity. Qed.

(** C10.  A request whose op byte is not [OP_WRITE_VEC] never changes
    [A_share]: whether the handler replies, or raises at any point
    (reading the request, fetching the dealer's share, exchanging
    residuals, packing or sending the reply), or never returns, the
    memory share after the request, and after the [finally] that closes
    the connection, is the one before it.  This holds for every
    environment, faults included; in particular for every READ. *)
Theorem read_keeps_A_share (cfg : Party.config) (conn : sock) (w : world) :
  (forall rest, inbox w !! conn <> Some (x40 :: rest)) ->
  A_share (snd (Party.handle cfg conn w)) = A_share w
  /\ A_share (snd (try_finally (Party.handle cfg conn) (close conn) w)) = A_share w.
Proof.
  intros Hop.
  assert (H : A_share (snd (Party.handle cfg conn w)) = A_share w).
  { unfold Party.handle.
    destruct (read_u8 conn w) as [[op|e|] w1] eqn:E.
    - erewrite bind_ok by exact E.
      pose proof (keeps_read_u8 conn w) as Hk. rewrite E in Hk. cbn [snd] in Hk.
      rewrite <- Hk.
      destruct (Z.eqb_spec op OP_WRITE_VEC) as [Hw|_].
      + exfalso. apply read_u8_inv in E as (b & rest & Hib & Hb).
        apply (Hop rest). rewrite Hib. do 2 f_equal.
        rewrite <- (byte_of_Z_of_byte b), <- Hb, Hw. reflexivity.
      + destruct (op =? OP_READ_SECURE); [|reflexivity].
        match goal with |- A_share (snd (?m w1)) = _ => assert (K : keeps_A_share m) end.
        { unfold read_u32, read_i64, pack_i64. keeps;
            first [apply keeps_fetch_share|apply keeps_dta_cross]. }
        apply K.
    - erewrite bind_raise by exact E.
      pose proof (keeps_read_u8 conn w) as Hk. now rewrite E in Hk.
    - erewrite bind_block by exact E.
      pose proof (keeps_read_u8 conn w) as Hk. now rewrite E in Hk. }
  split; [exact H|].
  unfold try_finally.
  destruct (Party.handle cfg conn w) as [[x|e|] w1]; cbn [snd] in *; exact H.
Qed.

Lemma read_keeps_A_share_witness :
  A_share (snd (Party.handle (Party.Config Party.RoleA 2 "B" 9801 "dealer" 9300) 0%nat
                  (World [5; 6] ∅ [] 1%nat {[0%nat := request OP_READ_SECURE [1; 0]]} [] [] []
                         (fun _ => false) [])))
  = [5; 6].
Proof.
  apply (read_keeps_A_share (Party.Config Party.RoleA 2 "B" 9801 "dealer" 9300) 0%nat
           (World [5; 6] ∅ [] 1%nat {[0%nat := request OP_READ_SECURE [1; 0]]} [] [] []
                  (fun _ => false) [])).
  intros rest. vm_compute. discriminate.
Defined.

(** The part of C6 that holds: after an unknown op byte the party
    closes the connection without a reply and goes on serving. *)
Lemma serve_bad_op_continues (cfg : Party.config) (k : nat) (op : Z) (rest : list byte)
    mem t r n ib ub rb d f lg :
  (forall i, f i = false) ->
  0 <= op < 256 -> op <> OP_WRITE_VEC -> op <> OP_READ_SECURE ->
  Party.serve_loop (S k) cfg (World mem t r n ib ((enc_u8 op ++ rest) :: ub) rb d f lg)
  = Party.serve_loop k cfg
      (World mem t r (S n) (<[n := rest]> ib) ub rb d f
             (lg ++ [EvAccept user_ls n; EvRecv n (enc_u8 op); EvClose n])).
Proof.
  intros Q Hop Hw Hr. cbn [Party.serve_loop].
  run ltac:(apply accept_user_ok).
  erewrite bind_ok.
  2:{ eapply try_finally_ok; [|apply close_ok].
      unfold Party.handle.
      run ltac:(apply read_u8_ok; [exact Q|apply lookup_insert_eq|exact Hop]).
      destruct (Z.eqb_spec op OP_WRITE_VEC) as [?|_]; [contradiction|].
      destruct (Z.eqb_spec op OP_READ_SECURE) as [?|_]; [contradiction|].
      reflexivity. }
  rewrite insert_insert_eq. repeat rewrite <- app_assoc. reflexivity.
Qed.

(** C6, the defect.  A framing error on a user connection is not
    confined to that connection: the party closes it without a reply,
    but the exception leaves the [while True] loop, [serve] ends, and
    the connections still pending are never served. *)
Theorem serve_framing_error_stops (cfg : Party.config) (k : nat) (w : world)
    (bs : list byte) (ub : list (list byte)) :
  quiet w -> user_backlog w = bs :: ub -> Party.framing_error cfg bs ->
  exists e w',
    Party.serve_loop (S k) cfg w = (Raise e, w')
    /\ user_backlog w' = ub
    /\ is_closed (next_sock w) (log w') = true
    /\ sent (next_sock w) (log w') = sent (next_sock w) (log w)
    /\ (forall s, (next_sock w < s)%nat -> sent s (log w') = sent s (log w)).
Proof.
  intros Q Hub Herr. destruct w as [mem t r n ib ub0 rb d f lg].
  unfold quiet in Q. cbn in Q, Hub. subst ub0. cbn [next_sock log user_backlog].
  assert (Hgo : forall e ib' (lg' : list event),
             (forall s, sent s lg' = []) ->
             Party.handle cfg n
               (World mem t r (S n) (<[n := bs]> ib) ub rb d f (lg ++ [EvAccept user_ls n]))
             = (Raise e, World mem t r (S n) ib' ub rb d f
                               ((lg ++ [EvAccept user_ls n]) ++ lg')) ->
             exists e0 w',
               Party.serve_loop (S k) cfg (World mem t r n ib (bs :: ub) rb d f lg)
               = (Raise e0, w')
               /\ user_backlog w' = ub
               /\ is_closed n (log w') = true
               /\ sent n (log w') = sent n lg
               /\ (forall s, (n < s)%nat -> sent s (log w') = sent s lg)).
  { intros e ib' lg' Hsil Hh. exists e. eexists. split.
    - cbn [Party.serve_loop].
      run ltac:(apply accept_user_ok).
      erewrite bind_raise; [reflexivity|].
      eapply try_finally_raise; [exact Hh|apply close_ok].
    - cbn [user_backlog log]. split; [reflexivity|].
      split.
      + unfold is_closed. rewrite !existsb_app. cbn. rewrite Nat.eqb_refl.
        now rewrite !orb_true_r.
      + split; [|intros s _]; rewrite !sent_app, Hsil; cbn [sent];
          now rewrite !app_nil_r. }
  destruct Herr as [(op & dim' & rest & -> & Hop & Hdim & Hne)
                   |[(op & short & -> & Hop & Hshort)| ->]].
  - (* wrong dimension *)
    assert (Hop' : 0 <= op < 256) by (destruct Hop as [-> | ->]; cbv; split; congruence).
    assert (Edim : (dim' =? Party.rows cfg) = false) by (now apply Z.eqb_neq).
    destruct Hop as [-> | ->].
    + eapply (Hgo _ _ [EvRecv n (enc_u8 OP_WRITE_VEC); EvRecv n (enc_u32 dim')]);
        [reflexivity|].
      unfold Party.handle.
      run ltac:(apply read_u8_ok; [exact Q|apply lookup_insert_eq|exact Hop']).
      rewrite Z.eqb_refl.
      run ltac:(apply read_u32_ok; [exact Q|apply lookup_insert_eq|exact Hdim]).
      rewrite Edim. cbn [negb]. unfold raise.
      rewrite !insert_insert_eq. repeat rewrite <- app_assoc. reflexivity.
    + eapply (Hgo _ _ [EvRecv n (enc_u8 OP_READ_SECURE); EvRecv n (enc_u32 dim')]);
        [reflexivity|].
      unfold Party.handle.
      run ltac:(apply read_u8_ok; [exact Q|apply lookup_insert_eq|exact Hop']).
      change (OP_READ_SECURE =? OP_WRITE_VEC) with false. cbv iota. rewrite Z.eqb_refl.
      run ltac:(apply read_u32_ok; [exact Q|apply lookup_insert_eq|exact Hdim]).
      rewrite Edim. cbn [negb]. unfold raise.
      rewrite !insert_insert_eq. repeat rewrite <- app_assoc. reflexivity.
  - (* header cut short *)
    assert (Hop' : 0 <= op < 256) by (destruct Hop as [-> | ->]; cbv; split; congruence).
    assert (Hrd : forall ib0 lg0,
               ib0 !! n = Some short ->
               read_u32 n (World mem t r (S n) ib0 ub rb d f lg0)
               = (Raise (ConnectionError "eof"),
                  World mem t r (S n) (<[n := []]> ib0) ub rb d f (lg0 ++ [EvRecv n short]))).
    { intros ib0 lg0 Hib0. unfold read_u32.
      erewrite bind_raise; [reflexivity|]. apply recv_exact_eof; auto. }
    destruct Hop as [-> | ->].
    + eapply (Hgo _ _ [EvRecv n (enc_u8 OP_WRITE_VEC); EvRecv n short]); [reflexivity|].
      unfold Party.handle.
      run ltac:(apply read_u8_ok; [exact Q|apply lookup_insert_eq|exact Hop']).
      rewrite Z.eqb_refl.
      erewrite bind_raise by (apply Hrd, lookup_insert_eq).
      rewrite !insert_insert_eq. repeat rewrite <- app_assoc. reflexivity.
    + eapply (Hgo _ _ [EvRecv n (enc_u8 OP_READ_SECURE); EvRecv n short]); [reflexivity|].
      unfold Party.handle.
      run ltac:(apply read_u8_ok; [exact Q|apply lookup_insert_eq|exact Hop']).
      change (OP_READ_SECURE =? OP_WRITE_VEC) with false. cbv iota. rewrite Z.eqb_refl.
      erewrite bind_raise by (apply Hrd, lookup_insert_eq).
      rewrite !insert_insert_eq. repeat rewrite <- app_assoc. reflexivity.
  - (* closed before the op byte *)
    eapply (Hgo _ _ [EvRecv n []]); [reflexivity|].
    unfold Party.handle, read_u8.
    erewrite bind_raise; [reflexivity|].
    erewrite bind_raise; [reflexivity|].
    rewrite (recv_exact_eof f Q mem t r n 1 [] (S n) (<[n := []]> ib) ub rb d
               (lg ++ [EvAccept user_ls n])); [|apply lookup_insert_eq|cbn; lia].
    rewrite insert_insert_eq. reflexivity.
Qed.

Lemma serve_framing_error_stops_witness :
  exists e w',
    Party.serve_loop 2 (Party.Config Party.RoleA 4 "B" 9801 "dealer" 9300)
      (initial_world []
         [enc_u8 OP_WRITE_VEC ++ enc_u32 3 ++ enc_vec [1; 2; 3];
          request OP_WRITE_VEC [1; 2; 3; 4]] [] [])
    = (Raise e, w')
    /\ user_backlog w' = [request OP_WRITE_VEC [1; 2; 3; 4]].
Proof.
  destruct (serve_framing_error_stops (Party.Config Party.RoleA 4 "B" 9801 "dealer" 9300) 1
              (initial_world []
                 [enc_u8 OP_WRITE_VEC ++ enc_u32 3 ++ enc_vec [1; 2; 3];
                  request OP_WRITE_VEC [1; 2; 3; 4]] [] [])
              (enc_u8 OP_WRITE_VEC ++ enc_u32 3 ++ enc_vec [1; 2; 3])
              [request OP_WRITE_VEC [1; 2; 3; 4]])
    as (e & w' & E & Hub & _).
  - intros n. reflexivity.
  - reflexivity.
  - left. exists OP_WRITE_VEC, 3, (enc_vec [1; 2; 3]).
    split; [reflexivity|]. split; [now left|]. cbn. lia.
  - exists e, w'. auto.
Defined.

(** The two behaviours side by side, for a party with [rows = 4]: after
    the op byte [0x77] the next WRITE is answered with [OK]; after a
    WRITE header announcing dimension 3 the party stops and the next
    WRITE gets no answer. *)
Lemma serve_bad_op_versus_bad_dim :
  let cfg := Party.Config Party.RoleA 4 "B" 9801 "dealer" 9300 in
  let good := request OP_WRITE_VEC [1; 2; 3; 4] in
  let after_bad_op := Party.serve cfg 2 (initial_world [] [enc_u8 119; good] [] []) in
  let after_bad_dim :=
    Party.serve cfg 2
      (initial_world [] [enc_u8 OP_WRITE_VEC ++ enc_u32 3 ++ enc_vec [1; 2; 3]; good] [] []) in
  fst after_bad_op = Ok tt
  /\ sent 1%nat (log (snd after_bad_op)) = OK_bytes
  /\ A_share (snd after_bad_op) = [1; 2; 3; 4]
  /\ fst after_bad_dim = Raise (RuntimeError "WRITE dim != rows")
  /\ sent 0%nat (log (snd after_bad_dim)) = []
  /\ is_closed 0%nat (log (snd after_bad_dim)) = true
  /\ sent 1%nat (log (snd after_bad_dim)) = []
  /\ user_backlog (snd after_bad_dim) = [good].
Proof. repeat split; vm_compute; reflexivity. Qed.

(** C8.  A party serving a READ on [conn] whose incoming residual frame
    mismatches -- the first frame (expected tag [0x01]) or, after a
    well-formed first frame, the second one (expected tag [0x10]); in
    its sid, its tag, its first length or its second length -- closes
    the residual connection [rs] it accepted and raises [RuntimeError];
    the [finally] clause then closes [conn].  Nothing is ever sent on
    [conn], and the memory share is left as it was. *)
Theorem residual_mismatch_aborts (cfg : Party.config) (conn : sock) (w : world)
    (e : list Z) (sid : Z) (a_i b_i : list Z) (c_i : Z) :
  Party.read_request_setup cfg conn w e sid a_i b_i c_i ->
  (exists bad rb,
      res_backlog w = bad :: rb /\ Party.bad_residual sid 1 (Party.rows cfg) bad)
  \/ (exists u v bad rb,
        res_backlog w = Party.residual_frame sid 1 u v :: bad :: rb
        /\ length u = length e /\ length v = length e /\ Forall i64 u /\ Forall i64 v
        /\ Party.bad_residual sid 16 (Party.rows cfg) bad) ->
  exists msg w' pre rs recvs,
    try_finally (Party.handle cfg conn) (close conn) w = (Raise (RuntimeError msg), w')
    /\ log w' = log w ++ pre ++ [EvAccept res_ls rs] ++ recvs ++ [EvClose rs; EvClose conn]
    /\ Forall (fun ev => exists bs, ev = EvRecv rs bs) recvs
    /\ (conn < rs)%nat
    /\ sent conn pre = []
    /\ sent conn (log w') = sent conn (log w)
    /\ is_closed rs (log w') = true
    /\ is_closed conn (log w') = true
    /\ A_share w' = A_share w.
Proof.
  destruct w as [mem t r n ib ub rbk dl f lg].
  unfold Party.read_request_setup. cbn [quiet A_share inbox dials next_sock fault res_backlog log].
  intros (Q & Hrows & Hlt & Hmem & Fe & Hib & (d & ->) & Hsid & La & Lb & Fa & Fb & Hc
          & P1 & P2 & P3 & P4 & Hconn) Hbk.
  destruct (handle_read_bad f Q t r cfg conn mem e sid a_i b_i c_i [] [] [] [] n ib ub rbk d lg)
    as (msg & n' & ib' & rb' & d' & pre & rs & recvs & E & Hrecvs & Hrs & Hpre);
    try assumption.
  { rewrite app_nil_r. exact Hib. }
  { destruct Hbk as [(bad & rb & -> & Hbad)|(u & v & bad & rb & -> & Lu & Lv & Fu & Fv & Hbad)].
    - left. exists bad, rb. split; [reflexivity|exact Hbad].
    - right. exists u, v, [], bad, rb. rewrite app_nil_r. repeat split; assumption. }
  rewrite app_nil_r in E.
  exists msg. eexists. exists pre, rs, recvs.
  split.
  { eapply try_finally_raise; [exact E|apply close_ok]. }
  cbn [log A_share].
  assert (Hs : sent conn recvs = []) by (apply (sent_recvs_on conn rs), Hrecvs).
  repeat split.
  - repeat rewrite <- app_assoc. reflexivity.
  - exact Hrecvs.
  - lia.
  - exact Hpre.
  - rewrite !sent_app, Hpre, Hs. cbn [sent app]. now rewrite !app_nil_r.
  - unfold is_closed. rewrite !existsb_app. cbn. rewrite Nat.eqb_refl.
    now rewrite !orb_true_r.
  - unfold is_closed. rewrite !existsb_app. cbn. rewrite Nat.eqb_refl.
    now rewrite !orb_true_r.
Qed.

Lemma residual_mismatch_aborts_witness :
  exists msg w',
    try_finally (Party.handle (Party.Config Party.RoleB 2 "A" 9701 "dealer" 9300) 0%nat)
                (close 0%nat)
      (World [7; 5] ∅ [] 1%nat {[0%nat := request OP_READ_SECURE [1; 0]]} []
             [Party.residual_frame 42 1 [6; 3] [-3; -4];
              enc_i64 42 ++ enc_u8 16 ++ enc_u32 2 ++ enc_vec [0; 0] ++ enc_u32 3]
             [share_frame 2 42 [5; 6] [7; 8] 56; []; []]
             (fun _ => false) [])
    = (Raise (RuntimeError msg), w')
    /\ sent 0%nat (log w') = [].
Proof.
  destruct (residual_mismatch_aborts (Party.Config Party.RoleB 2 "A" 9701 "dealer" 9300) 0%nat
              (World [7; 5] ∅ [] 1%nat {[0%nat := request OP_READ_SECURE [1; 0]]} []
                     [Party.residual_frame 42 1 [6; 3] [-3; -4];
                      enc_i64 42 ++ enc_u8 16 ++ enc_u32 2 ++ enc_vec [0; 0] ++ enc_u32 3]
                     [share_frame 2 42 [5; 6] [7; 8] 56; []; []]
                     (fun _ => false) [])
              [1; 0] 42 [5; 6] [7; 8] 56)
    as (msg & w' & pre & rs & recvs & E & _ & _ & _ & _ & Hsent & _).
  - unfold Party.read_request_setup.
    cbn [quiet A_share inbox dials next_sock fault res_backlog log Party.rows Party.cfg_role].
    split; [intros n; reflexivity|].
    split; [reflexivity|]. split; [lia|]. split; [reflexivity|].
    split; [concrete_i64|]. split; [reflexivity|].
    split; [exists []; reflexivity|].
    split; [concrete_i64|]. split; [reflexivity|]. split; [reflexivity|].
    split; [concrete_i64|]. split; [concrete_i64|]. split; [concrete_i64|].
    split; [concrete_vec|]. split; [concrete_vec|].
    split; [concrete_vec|]. split; [concrete_vec|].
    lia.
  - right. exists [6; 3], [-3; -4], (enc_i64 42 ++ enc_u8 16 ++ enc_u32 2 ++ enc_vec [0; 0] ++ enc_u32 3), [].
    split; [reflexivity|]. split; [reflexivity|]. split; [reflexivity|].
    split; [concrete_i64|]. split; [concrete_i64|].
    right. exists [0; 0], 3, []. 
    split; [cbn [Party.rows]; now rewrite app_nil_r|].
    split; [reflexivity|]. split; [concrete_i64|]. split; [lia|].
    cbn [Party.rows]. lia.
  - exists msg, w'. split; [exact E|exact Hsent].
Defined.

(** C4 (as amended).  In a READ the order of the residual exchange
    follows the side a party plays in the cross-term, not its name.  In
    the exchange tagged [0x01] party A is the X side: it sends its two
    vectors before it receives anything, and party B receives before it
    sends.  In the exchange tagged [0x10] the sides are swapped: party B
    sends before it receives, and party A receives before it sends. *)
Theorem residual_exchange_order (cfg : Party.config) (conn : sock) (w : world)
    (e : list Z) (sid : Z) (a_i b_i : list Z) (c_i : Z) (pe01 pe10 : list Z * list Z) :
  Party.read_setup cfg conn w e sid a_i b_i c_i pe01 pe10 ->
  exists pre ex01 ex10 post,
    log (snd (Party.handle cfg conn w)) = log w ++ pre ++ ex01 ++ ex10 ++ post
    /\ ex01 = Party.ev_dta_cross (Party.peer_host cfg) (Party.peer_port cfg)
                (S (next_sock w)) sid 1 (Party.is_A (Party.cfg_role cfg))
                (Party.parts01 (Party.cfg_role cfg) (A_share w) e a_i b_i) pe01
    /\ ex10 = Party.ev_dta_cross (Party.peer_host cfg) (Party.peer_port cfg)
                (S (S (S (next_sock w)))) sid 16 (Party.is_B (Party.cfg_role cfg))
                (Party.parts10 (Party.cfg_role cfg) (A_share w) e a_i b_i) pe10
    /\ existsb is_send ex01 = true /\ existsb is_recv ex01 = true
    /\ existsb is_send ex10 = true /\ existsb is_recv ex10 = true
    /\ match Party.cfg_role cfg with
       | Party.RoleA => all_before is_send is_recv ex01 /\ all_before is_recv is_send ex10
       | Party.RoleB => all_before is_recv is_send ex01 /\ all_before is_send is_recv ex10
       end.
Proof.
  intros Hs.
  destruct (handle_read_setup cfg conn w e sid a_i b_i c_i pe01 pe10 Hs) as (w' & E & _ & Hlog).
  rewrite E. cbn [snd]. rewrite Hlog. unfold Party.ev_read_exchanges.
  exists (Party.ev_request conn OP_READ_SECURE e
          ++ Party.ev_fetch_share (Party.share_host cfg) (Party.share_port cfg) (next_sock w)
               (Party.rows cfg) sid a_i b_i c_i).
  exists (Party.ev_dta_cross (Party.peer_host cfg) (Party.peer_port cfg)
            (S (next_sock w)) sid 1 (Party.is_A (Party.cfg_role cfg))
            (Party.parts01 (Party.cfg_role cfg) (A_share w) e a_i b_i) pe01).
  exists (Party.ev_dta_cross (Party.peer_host cfg) (Party.peer_port cfg)
            (S (S (S (next_sock w)))) sid 16 (Party.is_B (Party.cfg_role cfg))
            (Party.parts10 (Party.cfg_role cfg) (A_share w) e a_i b_i) pe10).
  exists (if fits_i64 (Party.read_value (Party.cfg_role cfg) (A_share w) e a_i b_i c_i
                         pe01 pe10)
          then [EvSend conn (enc_i64 (Party.read_value (Party.cfg_role cfg) (A_share w) e
                                        a_i b_i c_i pe01 pe10))]
          else []).
  split; [rewrite <- !app_assoc; reflexivity|].
  split; [reflexivity|]. split; [reflexivity|].
  pose proof (ev_dta_cross_order (Party.peer_host cfg) (Party.peer_port cfg)
                (S (next_sock w)) sid 1 (Party.is_A (Party.cfg_role cfg))
                (Party.parts01 (Party.cfg_role cfg) (A_share w) e a_i b_i) pe01)
    as (O1 & S1 & R1).
  pose proof (ev_dta_cross_order (Party.peer_host cfg) (Party.peer_port cfg)
                (S (S (S (next_sock w)))) sid 16 (Party.is_B (Party.cfg_role cfg))
                (Party.parts10 (Party.cfg_role cfg) (A_share w) e a_i b_i) pe10)
    as (O2 & S2 & R2).
  repeat (split; [assumption|]).
  destruct (Party.cfg_role cfg); cbn [Party.is_A Party.is_B] in *; split; assumption.
Qed.

Lemma residual_exchange_order_witness :
  exists pre ex01 ex10 post,
    log (snd (Party.handle (Party.Config Party.RoleB 2 "A" 9701 "dealer" 9300) 0%nat
                (World [7; 5] ∅ [] 1%nat {[0%nat := request OP_READ_SECURE [1; 0]]} []
                       [Party.residual_frame 42 1 [6; 3] [-3; -4];
                        Party.residual_frame 42 16 [0; 1] [2; 3]]
                       [share_frame 2 42 [5; 6] [7; 8] 56; []; []]
                       (fun _ => false) [])))
    = pre ++ ex01 ++ ex10 ++ post
    /\ all_before is_recv is_send ex01
    /\ all_before is_send is_recv ex10.
Proof.
  destruct (residual_exchange_order (Party.Config Party.RoleB 2 "A" 9701 "dealer" 9300) 0%nat
              (World [7; 5] ∅ [] 1%nat {[0%nat := request OP_READ_SECURE [1; 0]]} []
                     [Party.residual_frame 42 1 [6; 3] [-3; -4];
                      Party.residual_frame 42 16 [0; 1] [2; 3]]
                     [share_frame 2 42 [5; 6] [7; 8] 56; []; []]
                     (fun _ => false) [])
              [1; 0] 42 [5; 6] [7; 8] 56 ([6; 3], [-3; -4]) ([0; 1], [2; 3]))
    as (pre & ex01 & ex10 & post & Hlog & _ & _ & _ & _ & _ & _ & H01 & H10).
  - unfold Party.read_setup.
    cbn [quiet A_share inbox dials next_sock fault res_backlog log Party.rows Party.cfg_role
         fst snd].
    split; [intros n; reflexivity|].
    split; [reflexivity|]. split; [lia|]. split; [reflexivity|].
    split; [concrete_i64|]. split; [reflexivity|].
    split; [exists []; reflexivity|]. split; [exists []; reflexivity|].
    split; [concrete_i64|]. split; [reflexivity|]. split; [reflexivity|].
    split; [concrete_i64|]. split; [concrete_i64|]. split; [concrete_i64|].
    do 4 (split; [reflexivity|]).
    do 4 (split; [concrete_i64|]).
    split; [concrete_vec|]. split; [concrete_vec|].
    split; [concrete_vec|]. split; [concrete_vec|].
    lia.
  - exists pre, ex01, ex10, post. split; [exact Hlog|]. split; assumption.
Defined.


(** C4, counterexample.  The two parties of the small scenario serve
    three WRITEs and one READ.  In the exchange tagged [0x10] party A
    receives the tag byte of its peer's frame (event 60 of its log)
    before it sends the tag byte of its own frame (event 70), and
    party B sends (event 60) before it receives (event 70): the reverse
    of the exchange tagged [0x01], where A sends at 40 and receives at
    50. *)
Lemma residual_0x10_order_is_swapped :
  let runA := Party.serve (System.sc_cfgA System.small_scenario) 4
                (System.worldA System.small_scenario) in
  let runB := Party.serve (System.sc_cfgB System.small_scenario) 4
                (System.worldB System.small_scenario) in
  fst runA = Ok tt
  /\ first_index (sends_tag 1) (log (snd runA)) = Some 40%nat
  /\ first_index (recvs_tag 1) (log (snd runA)) = Some 50%nat
  /\ first_index (recvs_tag 16) (log (snd runA)) = Some 60%nat
  /\ first_index (sends_tag 16) (log (snd runA)) = Some 70%nat
  /\ fst runB = Ok tt
  /\ first_index (recvs_tag 1) (log (snd runB)) = Some 40%nat
  /\ first_index (sends_tag 1) (log (snd runB)) = Some 50%nat
  /\ first_index (sends_tag 16) (log (snd runB)) = Some 60%nat
  /\ first_index (recvs_tag 16) (log (snd runB)) = Some 70%nat.
Proof. repeat split; vm_compute; reflexivity. Qed.

(* ================================================================== *)
(** * Part IV: further properties of the code *)
(* ================================================================== *)

(** ** The wire codec *)

(** X1.  [pack_u32] never raises: it masks its argument, so that any
    integer [x], negative or beyond 32 bits, is sent as the four bytes
    of [x mod 2^32], which [read_u32] decodes to [x mod 2^32], leaving
    the rest of the stream in place.  A length is therefore transmitted
    faithfully exactly when it is below [2^32]. *)
Theorem pack_u32_read_u32 (x : Z) (s : sock) (rest : list byte) (w : world) :
  quiet w ->
  exists bs w',
    pack_u32 x w = (Ok bs, w)
    /\ length bs = 4%nat
    /\ read_u32 s (set_inbox s (bs ++ rest) w) = (Ok (x mod 2 ^ 32), w')
    /\ inbox w' !! s = Some rest
    /\ (x mod 2 ^ 32 = x <-> 0 <= x < 2 ^ 32).
Proof.
  intros Q. destruct w as [a t r n ib ub rb d f lg]. unfold quiet in Q. cbn in Q.
  exists (enc_u32 (x mod 2 ^ 32)). eexists.
  split; [apply pack_u32_ok|].
  split; [apply length_be_bytes|].
  assert (Hm : 0 <= x mod 2 ^ 32 < 2 ^ 32) by (apply Z.mod_pos_bound; lia).
  split; [|split].
  - unfold set_inbox. cbn [A_share waiting rng next_sock inbox user_backlog res_backlog
                           dials fault log].
    apply read_u32_ok; [exact Q|apply lookup_insert_eq|exact Hm].
  - cbn [inbox]. rewrite insert_insert_eq. apply lookup_insert_eq.
  - split; intros H.
    + rewrite <- H. exact Hm.
    + apply Z.mod_small. exact H.
Qed.

Lemma pack_u32_read_u32_witness :
  exists bs w',
    pack_u32 (2 ^ 32 + 5) (initial_world [] [] [] []) = (Ok bs, initial_world [] [] [] [])
    /\ read_u32 0%nat (set_inbox 0%nat (bs ++ []) (initial_world [] [] [] [])) = (Ok 5, w').
Proof.
  destruct (pack_u32_read_u32 (2 ^ 32 + 5) 0%nat [] (initial_world [] [] [] []))
    as (bs & w' & Hp & _ & Hr & _).
  - intros n. reflexivity.
  - exists bs, w'. split; [exact Hp|exact Hr].
Defined.

(** X2.  Reading a frame field by field is reading it at once: on a
    connection that still delivers at least [n + m] bytes, [recv_exact]
    for [n] bytes followed by [recv_exact] for [m] bytes returns the
    same [n + m] bytes as one [recv_exact] for [n + m], and leaves the
    same bytes unread. *)
Theorem recv_exact_split (s : sock) (n m : nat) (bs : list byte) (w : world) :
  quiet w -> inbox w !! s = Some bs -> n <> O -> m <> O -> (n + m <= length bs)%nat ->
  exists w1 w2,
    (x <- recv_exact s n ;; y <- recv_exact s m ;; ret (x ++ y))%py w
    = (Ok (take (n + m) bs), w1)
    /\ recv_exact s (n + m) w = (Ok (take (n + m) bs), w2)
    /\ inbox w1 = inbox w2
    /\ inbox w1 !! s = Some (drop (n + m) bs).
Proof.
  intros Q Hib Hn Hm Hlen. destruct w as [a t r k ib ub rb d f lg].
  unfold quiet in Q. cbn in Q, Hib.
  do 2 eexists.
  split; [|split; [|split]].
  - run ltac:(apply (recv_exact_ok f Q a t r s n (take n bs) (drop n bs));
              [now rewrite take_drop|rewrite length_take; lia|exact Hn]).
    run ltac:(apply (recv_exact_ok f Q a t r s m (take m (drop n bs)) (drop m (drop n bs)));
              [rewrite take_drop; apply lookup_insert_eq
              |rewrite length_take, length_drop; lia|exact Hm]).
    unfold ret. rewrite take_take_drop. reflexivity.
  - apply (recv_exact_ok f Q a t r s (n + m) (take (n + m) bs) (drop (n + m) bs));
      [now rewrite take_drop|rewrite length_take; lia|lia].
  - cbn [inbox]. rewrite insert_insert_eq, drop_drop. reflexivity.
  - cbn [inbox]. rewrite insert_insert_eq, drop_drop. apply lookup_insert_eq.
Qed.

Lemma recv_exact_split_witness :
  exists w1,
    (x <- recv_exact 0%nat 1 ;; y <- recv_exact 0%nat 4 ;; ret (x ++ y))%py
      (set_inbox 0%nat (request OP_WRITE_VEC [7]) (initial_world [] [] [] []))
    = (Ok (enc_u8 OP_WRITE_VEC ++ enc_u32 1), w1).
Proof.
  destruct (recv_exact_split 0%nat 1 4 (request OP_WRITE_VEC [7])
              (set_inbox 0%nat (request OP_WRITE_VEC [7]) (initial_world [] [] [] [])))
    as (w1 & w2 & H1 & _).
  - intros n. reflexivity.
  - reflexivity.
  - discriminate.
  - discriminate.
  - cbn. lia.
  - exists w1. exact H1.
Defined.

(** X3.  [dot] is built on [zip], which stops at the shorter argument:
    surplus elements of either vector are ignored, silently, and the
    product with an empty vector is 0. *)
Theorem dot_truncates (a b : list Z) :
  dot a b = dot (take (length b) a) (take (length a) b)
  /\ dot a [] = 0 /\ dot [] b = 0.
Proof.
  split; [|split; [apply dot_nil_r|apply dot_nil_l]].
  revert b. induction a as [|x a IH]; intros [|y b]; cbn [length take];
    rewrite ?dot_nil_r, ?dot_nil_l; try reflexivity.
  rewrite !dot_cons, <- IH. reflexivity.
Qed.

(** ** The residual exchange *)

(** X4.  [send_two_vecs] puts any two vectors on the wire, of whatever
    lengths; [recv_two_vecs] returns them exactly when both lengths
    equal the expected dimension.  Otherwise it raises [RuntimeError],
    for the first length before reading any element and for the second
    one after reading the first vector.  In every case it closes the
    connection it accepted. *)
Theorem residual_frame_accepted_iff (host : string) (port sid tag : Z) (u v : list Z)
    (dim : Z) (wS wR : world) (bs : list byte) (d rb : list (list byte)) :
  quiet wS -> quiet wR -> i64 sid -> 0 <= tag <= 255 ->
  len u < 2 ^ 32 -> len v < 2 ^ 32 -> Forall i64 u -> Forall i64 v ->
  dials wS = bs :: d ->
  res_backlog wR = Party.residual_frame sid tag u v :: rb ->
  exists wS' wR' evs,
    Party.send_two_vecs host port sid tag u v wS = (Ok tt, wS')
    /\ log wS' = log wS ++ evs
    /\ sent (next_sock wS) evs = Party.residual_frame sid tag u v
    /\ Party.recv_two_vecs res_ls sid tag dim wR
       = (if negb (len u =? dim)
          then Raise (RuntimeError "peer residual header mismatch (u_part)")
          else if negb (len v =? dim)
               then Raise (RuntimeError "peer residual header mismatch (v_part)")
               else Ok (u, v),
          wR')
    /\ is_closed (next_sock wR) (log wR') = true.
Proof.
  intros QS QR Hsid Htag Hu Hv Fu Fv Hd Hrb.
  destruct wS as [aS tS rS nS ibS ubS rbS dS fS lgS].
  destruct wR as [aR tR rR nR ibR ubR rbR dR fR lgR].
  unfold quiet in QS, QR. cbn [fault dials res_backlog] in QS, QR, Hd, Hrb. subst dS rbR.
  pose proof (len_nonneg u) as Hu0. pose proof (len_nonneg v) as Hv0.
  eexists. 
  destruct (Z.eqb_spec (len u) dim) as [Eu|Eu]; cbn [negb].
  2:{ eexists. exists (Party.ev_send_two_vecs host port nS sid tag u v).
      split; [apply (send_two_vecs_ok fS QS); assumption|].
      split; [reflexivity|]. split; [apply sent_ev_send_two_vecs|].
      unfold Party.recv_two_vecs, Party.residual_frame.
      run ltac:(apply accept_res_ok).
      run ltac:(apply read_i64_ok; [exact QR|apply lookup_insert_eq|exact Hsid]).
      run ltac:(apply read_u8_ok; [exact QR|apply lookup_insert_eq|lia]).
      run ltac:(apply read_u32_ok; [exact QR|apply lookup_insert_eq|lia]).
      rewrite !Z.eqb_refl. cbn [negb orb].
      destruct (Z.eqb_spec (len u) dim) as [?|_]; [contradiction|]. cbn [negb].
      run ltac:(apply close_ok).
      unfold raise. split; [reflexivity|]. cbn [log next_sock].
      apply is_closed_last. }
  destruct (Z.eqb_spec (len v) dim) as [Ev|Ev]; cbn [negb].
  2:{ eexists. exists (Party.ev_send_two_vecs host port nS sid tag u v).
      split; [apply (send_two_vecs_ok fS QS); assumption|].
      split; [reflexivity|]. split; [apply sent_ev_send_two_vecs|].
      unfold Party.recv_two_vecs, Party.residual_frame.
      run ltac:(apply accept_res_ok).
      run ltac:(apply read_i64_ok; [exact QR|apply lookup_insert_eq|exact Hsid]).
      run ltac:(apply read_u8_ok; [exact QR|apply lookup_insert_eq|lia]).
      run ltac:(apply read_u32_ok; [exact QR|apply lookup_insert_eq|lia]).
      rewrite !Z.eqb_refl. cbn [negb orb].
      destruct (Z.eqb_spec (len u) dim) as [_|?]; [|contradiction]. cbn [negb].
      run ltac:(apply recv_i64s_ok;
                [exact QR|rewrite range_len; apply length_seq|exact Fu|apply lookup_insert_eq]).
      run ltac:(apply read_u32_ok; [exact QR|apply lookup_insert_eq|lia]).
      destruct (Z.eqb_spec (len v) dim) as [?|_]; [contradiction|]. cbn [negb].
      run ltac:(apply close_ok).
      unfold raise. split; [reflexivity|]. cbn [log next_sock].
      apply is_closed_last. }
  eexists. exists (Party.ev_send_two_vecs host port nS sid tag u v).
  split; [apply (send_two_vecs_ok fS QS); assumption|].
  split; [reflexivity|]. split; [apply sent_ev_send_two_vecs|].
  rewrite <- (app_nil_r (Party.residual_frame sid tag u v)).
  rewrite (recv_two_vecs_ok fR QR aR tR rR sid tag dim u v []) by (assumption || lia).
  split; [reflexivity|]. cbn [log next_sock].
  unfold Party.ev_recv_two_vecs. rewrite !app_assoc. apply is_closed_last.
Qed.

Lemma residual_frame_accepted_iff_witness :
  exists wS' wR',
    Party.send_two_vecs "B" 9801 7 1 [1; 2] [3] (initial_world [] [] [] [[]]) = (Ok tt, wS')
    /\ Party.recv_two_vecs res_ls 7 1 2
         (initial_world [] [] [Party.residual_frame 7 1 [1; 2] [3]] [])
       = (Raise (RuntimeError "peer residual header mismatch (v_part)"), wR').
Proof.
  destruct (residual_frame_accepted_iff "B" 9801 7 1 [1; 2] [3] 2
              (initial_world [] [] [] [[]])
              (initial_world [] [] [Party.residual_frame 7 1 [1; 2] [3]] [])
              [] [] [])
    as (wS' & wR' & evs & HS & _ & _ & HR & _);
    try reflexivity; try concrete_i64; try (intros n; reflexivity); try (cbn; lia).
  exists wS', wR'. split; [exact HS|exact HR].
Defined.

(** X5.  When the dealer's reply is not a share for the requested
    dimension -- another op byte, another dimension, or no byte at all
    -- [fetch_share] raises ([RuntimeError] in the first two cases,
    [ConnectionError] in the third) and returns without closing the
    connection it opened: no socket is closed during the call. *)
Theorem fetch_share_bad_reply (host : string) (port dim : Z) (w : world)
    (reply : list byte) (d : list (list byte)) :
  quiet w -> dials w = reply :: d ->
  (exists op' rest, reply = enc_u8 op' ++ rest /\ 0 <= op' < 256 /\ op' <> OP_RESPONSE)
  \/ (exists rdim rest,
        reply = enc_u8 OP_RESPONSE ++ enc_u32 rdim ++ rest
        /\ 0 <= rdim < 2 ^ 32 /\ rdim <> dim)
  \/ reply = [] ->
  exists e w' evs,
    Party.fetch_share host port dim w = (Raise e, w')
    /\ ((exists msg, e = RuntimeError msg) \/ e = ConnectionError "eof")
    /\ log w' = log w ++ [EvConnect host port (next_sock w)] ++ evs
    /\ (forall s, is_closed s evs = false).
Proof.
  intros Q Hd Hbad. destruct w as [a t r n ib ub rb d0 f lg].
  unfold quiet in Q. cbn [fault dials] in Q, Hd. subst d0. cbn [log next_sock].
  unfold Party.fetch_share.
  destruct Hbad as [(op' & rest & -> & Hop & Hne)
                   |[(rdim & rest & -> & Hr & Hne)| ->]].
  - exists (RuntimeError "share server: bad op"). eexists.
    exists [EvSend n (enc_u8 OP_REQUEST); EvSend n (enc_u32 (dim mod 2 ^ 32));
            EvRecv n (enc_u8 op')].
    run ltac:(apply connect_ok; exact Q).
    run ltac:(apply pack_u8_ok; unfold OP_REQUEST; lia).
    run ltac:(apply sendall_ok; exact Q).
    run ltac:(apply pack_u32_ok).
    run ltac:(apply sendall_ok; exact Q).
    run ltac:(apply read_u8_ok; [exact Q|apply lookup_insert_eq|exact Hop]).
    destruct (Z.eqb_spec op' OP_RESPONSE) as [?|_]; [contradiction|]. cbn [negb].
    unfold raise. split; [reflexivity|]. split; [left; now eexists|].
    split; [cbn [log]; rewrite <- !app_assoc; reflexivity|].
    intros s. reflexivity.
  - exists (RuntimeError "share server: dim mismatch"). eexists.
    exists [EvSend n (enc_u8 OP_REQUEST); EvSend n (enc_u32 (dim mod 2 ^ 32));
            EvRecv n (enc_u8 OP_RESPONSE); EvRecv n (enc_u32 rdim)].
    run ltac:(apply connect_ok; exact Q).
    run ltac:(apply pack_u8_ok; unfold OP_REQUEST; lia).
    run ltac:(apply sendall_ok; exact Q).
    run ltac:(apply pack_u32_ok).
    run ltac:(apply sendall_ok; exact Q).
    run ltac:(apply read_u8_ok; [exact Q|apply lookup_insert_eq|unfold OP_RESPONSE; lia]).
    rewrite Z.eqb_refl. cbn [negb].
    run ltac:(apply read_u32_ok; [exact Q|apply lookup_insert_eq|exact Hr]).
    destruct (Z.eqb_spec rdim dim) as [?|_]; [contradiction|]. cbn [negb].
    unfold raise. split; [reflexivity|]. split; [left; now eexists|].
    split; [cbn [log]; rewrite <- !app_assoc; reflexivity|].
    intros s. reflexivity.
  - exists (ConnectionError "eof"). eexists.
    exists [EvSend n (enc_u8 OP_REQUEST); EvSend n (enc_u32 (dim mod 2 ^ 32)); EvRecv n []].
    run ltac:(apply connect_ok; exact Q).
    run ltac:(apply pack_u8_ok; unfold OP_REQUEST; lia).
    run ltac:(apply sendall_ok; exact Q).
    run ltac:(apply pack_u32_ok).
    run ltac:(apply sendall_ok; exact Q).
    unfold read_u8.
    erewrite bind_raise.
    2:{ erewrite bind_raise; [reflexivity|].
        apply recv_exact_eof; [exact Q|apply lookup_insert_eq|cbn; lia]. }
    split; [reflexivity|]. split; [now right|].
    split; [cbn [log]; rewrite <- !app_assoc; reflexivity|].
    intros s. reflexivity.
Qed.

Lemma fetch_share_bad_reply_witness :
  exists e w',
    Party.fetch_share "dealer" 9300 2
      (initial_world [] [] [] [share_frame 3 42 [1; 2; 3] [4; 5; 6] 7]) = (Raise e, w')
    /\ is_closed 0%nat (log w') = false.
Proof.
  destruct (fetch_share_bad_reply "dealer" 9300 2
              (initial_world [] [] [] [share_frame 3 42 [1; 2; 3] [4; 5; 6] 7])
              (share_frame 3 42 [1; 2; 3] [4; 5; 6] 7) [])
    as (e & w' & evs & E & _ & Hlog & Hcl).
  - intros n. reflexivity.
  - reflexivity.
  - right. left. exists 3, (enc_i64 42 ++ enc_vec [1; 2; 3] ++ enc_vec [4; 5; 6] ++ enc_i64 7).
    split; [reflexivity|]. lia.
  - exists e, w'. split; [exact E|].
    rewrite Hlog. cbn [log initial_world app]. 
    change (is_closed 0%nat (EvConnect "dealer" 9300 0%nat :: evs))
      with (is_closed 0%nat evs).
    apply Hcl.
Defined.

(** ** The party service *)

(** X6.  A WRITE is all or nothing with respect to its vector: when the
    connection ends before [rows] elements have arrived, the handler
    raises [ConnectionError] without having changed a single element of
    [A_share], and nothing is sent on the connection. *)
Theorem truncated_write_changes_nothing (cfg : Party.config) (conn : sock) (w : world)
    (xs : list Z) (short : list byte) :
  quiet w -> 0 <= Party.rows cfg < 2 ^ 32 ->
  len xs < Party.rows cfg -> Forall i64 xs -> (length short < 8)%nat ->
  inbox w !! conn
  = Some (enc_u8 OP_WRITE_VEC ++ enc_u32 (Party.rows cfg) ++ enc_vec xs ++ short) ->
  exists w',
    Party.handle cfg conn w = (Raise (ConnectionError "eof"), w')
    /\ A_share w' = A_share w
    /\ sent conn (log w') = sent conn (log w).
Proof.
  intros Q Hrows Hxs Fxs Hs Hib. destruct w as [a t r n ib ub rb d f lg].
  unfold quiet in Q. cbn [fault inbox] in Q, Hib.
  eexists. unfold Party.handle.
  run ltac:(apply read_u8_ok; [exact Q|exact Hib|unfold OP_WRITE_VEC; lia]).
  rewrite Z.eqb_refl.
  run ltac:(apply read_u32_ok; [exact Q|apply lookup_insert_eq|lia]).
  rewrite Z.eqb_refl. cbn [negb].
  erewrite bind_raise.
  2:{ apply (recv_i64s_eof f Q a t r conn xs short);
        [unfold range; rewrite length_seq; unfold len in Hxs; lia|exact Fxs|exact Hs
        |apply lookup_insert_eq]. }
  split; [reflexivity|]. split; [reflexivity|].
  cbn [log]. rewrite !sent_app.
  rewrite (sent_recvs_on conn conn (map _ xs)) by apply recvs_on_map.
  cbn [sent app]. now rewrite !app_nil_r.
Qed.

Lemma truncated_write_changes_nothing_witness :
  exists w',
    Party.handle (Party.Config Party.RoleA 2 "B" 9801 "dealer" 9300) 0%nat
      (World [5; 6] ∅ [] 1%nat
             {[0%nat := enc_u8 OP_WRITE_VEC ++ enc_u32 2 ++ enc_vec [9] ++ [x00; x01]]}
             [] [] [] (fun _ => false) [])
    = (Raise (ConnectionError "eof"), w')
    /\ A_share w' = [5; 6].
Proof.
  destruct (truncated_write_changes_nothing
              (Party.Config Party.RoleA 2 "B" 9801 "dealer" 9300) 0%nat
              (World [5; 6] ∅ [] 1%nat
                     {[0%nat := enc_u8 OP_WRITE_VEC ++ enc_u32 2 ++ enc_vec [9] ++ [x00; x01]]}
                     [] [] [] (fun _ => false) [])
              [9] [x00; x01])
    as (w' & E & HA & _).
  - intros n. reflexivity.
  - cbn [Party.rows]. lia.
  - unfold len. cbn [Party.rows length]. lia.
  - concrete_i64.
  - cbn [length]. lia.
  - reflexivity.
  - exists w'. split; [exact E|exact HA].
Defined.

(** X7.  WRITEs commute.  A party that serves a run of well-formed
    WRITE requests answers each of them and ends with the element-wise
    sum of the vectors in [A_share], as unbounded integers; serving the
    same requests in any other order leaves the same [A_share]. *)
Theorem serve_writes_commute (cfg : Party.config) (vecs vecs' : list (list Z))
    (w w' : world) :
  quiet w -> quiet w' -> 0 <= Party.rows cfg < 2 ^ 32 ->
  Forall (fun v => len v = Party.rows cfg /\ Forall i64 v) vecs ->
  Permutation vecs vecs' ->
  user_backlog w = map (request OP_WRITE_VEC) vecs ->
  user_backlog w' = map (request OP_WRITE_VEC) vecs' ->
  fst (Party.serve cfg (length vecs) w) = Ok tt
  /\ fst (Party.serve cfg (length vecs') w') = Ok tt
  /\ A_share (snd (Party.serve cfg (length vecs) w))
     = A_share (snd (Party.serve cfg (length vecs') w'))
  /\ (forall j, at_index (A_share (snd (Party.serve cfg (length vecs) w))) j
                = sum (map (fun v => at_index v j) vecs)).
Proof.
  intros Q Q' Hrows Hv Hperm Hub Hub'.
  assert (Hv' : Forall (fun v => len v = Party.rows cfg /\ Forall i64 v) vecs').
  { rewrite Forall_forall in *. intros v Hin. apply Hv.
    apply list_elem_of_In. apply list_elem_of_In in Hin.
    eapply Permutation_in; [symmetry; exact Hperm|exact Hin]. }
  assert (Hrun : forall (vs : list (list Z)) (w0 : world),
             quiet w0 -> Forall (fun v => len v = Party.rows cfg /\ Forall i64 v) vs ->
             user_backlog w0 = map (request OP_WRITE_VEC) vs ->
             fst (Party.serve cfg (length vs) w0) = Ok tt
             /\ A_share (snd (Party.serve cfg (length vs) w0))
                = Party.mem_after (replicate (Z.to_nat (Party.rows cfg)) 0) vs).
  { intros vs [a t r n ib ub rb d f lg] Q0 Hvs Hub0.
    unfold quiet in Q0. cbn [fault user_backlog] in Q0, Hub0. subst ub.
    rewrite serve_unfold. unfold set_A_share.
    cbn [A_share waiting rng next_sock inbox user_backlog res_backlog dials fault log].
    destruct (serve_writes_ok f Q0 t r cfg vs 0 (replicate (Z.to_nat (Party.rows cfg)) 0)
                n ib [] rb d lg) as [ib' E].
    - lia.
    - unfold len. rewrite length_replicate. lia.
    - exact Hvs.
    - rewrite Nat.add_0_r, app_nil_r in E. rewrite E. cbn. split; reflexivity. }
  destruct (Hrun vecs w Q Hv Hub) as [R1 A1].
  destruct (Hrun vecs' w' Q' Hv' Hub') as [R2 A2].
  split; [exact R1|]. split; [exact R2|]. split.
  - rewrite A1, A2. apply mem_after_perm. exact Hperm.
  - intros j. rewrite A1, at_index_mem_after.
    + rewrite at_index_zeros. lia.
    + rewrite Forall_forall in *. intros v Hin. destruct (Hv v Hin) as [Hl _].
      rewrite length_replicate. unfold len in Hl. lia.
Qed.

Lemma serve_writes_commute_witness :
  A_share (snd (Party.serve (Party.Config Party.RoleA 2 "B" 9801 "dealer" 9300) 2
                  (initial_world [] (map (request OP_WRITE_VEC) [[1; 2]; [10; 20]]) [] [])))
  = A_share (snd (Party.serve (Party.Config Party.RoleA 2 "B" 9801 "dealer" 9300) 2
                    (initial_world [] (map (request OP_WRITE_VEC) [[10; 20]; [1; 2]]) [] []))).
Proof.
  destruct (serve_writes_commute (Party.Config Party.RoleA 2 "B" 9801 "dealer" 9300)
              [[1; 2]; [10; 20]] [[10; 20]; [1; 2]]
              (initial_world [] (map (request OP_WRITE_VEC) [[1; 2]; [10; 20]]) [] [])
              (initial_world [] (map (request OP_WRITE_VEC) [[10; 20]; [1; 2]]) [] []))
    as (_ & _ & H & _).
  - intros n. reflexivity.
  - intros n. reflexivity.
  - cbn [Party.rows]. lia.
  - repeat constructor; unfold i64, i64_min, i64_max; lia.
  - apply perm_swap.
  - reflexivity.
  - reflexivity.
  - exact H.
Defined.

(** X8.  Whatever arrives on the user connections and whatever the
    environment does (garbage, truncated frames, failing socket calls,
    a dealer or a peer that misbehaves), after any number of requests
    [A_share] still has exactly [rows] elements. *)
Theorem A_share_length_invariant (cfg : Party.config) (fuel : nat) (w : world) :
  length (A_share (snd (Party.serve cfg fuel w))) = Z.to_nat (Party.rows cfg).
Proof.
  rewrite serve_unfold, keeps_length_serve_loop. unfold set_A_share. cbn [A_share].
  apply length_replicate.
Qed.

(** ** The dealer *)

(** X9.  The dealer survives everything.  Whatever the connections
    deliver (garbage, nothing, half a request) and whichever socket
    calls fail, [handle_one] returns normally, and the accept loop of
    [main] takes every pending connection in turn: none is left
    unserved because of what an earlier one did. *)
Theorem dealer_serves_every_connection (fuel : nat) (w : world) :
  (fuel <= length (user_backlog w))%nat ->
  fst (Dealer.main fuel w) = Ok tt
  /\ user_backlog (snd (Dealer.main fuel w)) = drop fuel (user_backlog w)
  /\ (forall conn w0, fst (Dealer.handle_one conn w0) = Ok tt).
Proof.
  intros Hfuel.
  enough (H : fst (Dealer.main fuel w) = Ok tt
              /\ user_backlog (snd (Dealer.main fuel w)) = drop fuel (user_backlog w)).
  { destruct H as [R B]. split; [exact R|]. split; [exact B|].
    intros; apply handle_one_returns. }
  revert w Hfuel. induction fuel as [|k IH]; intros w Hfuel.
  - split; reflexivity.
  - destruct (user_backlog w) as [|bs q] eqn:Eub; [cbn in Hfuel; lia|].
    destruct (dealer_main_step k w bs q Eub) as (w2 & E & Hq).
    rewrite E. destruct (IH w2) as [R B]; [rewrite Hq; cbn in Hfuel; lia|].
    split; [exact R|]. rewrite B, Hq. reflexivity.
Qed.

Lemma dealer_serves_every_connection_witness :
  fst (Dealer.main 3 (initial_world [] [[]; enc_u8 7; enc_u8 OP_REQUEST ++ enc_u32 2] [] []))
  = Ok tt.
Proof.
  apply (dealer_serves_every_connection 3
           (initial_world [] [[]; enc_u8 7; enc_u8 OP_REQUEST ++ enc_u32 2] [] [])).
  cbn. lia.
Defined.

(** X10.  A connection that does not carry a request for a positive
    dimension -- it delivers nothing, another op byte, a header cut
    short, or the dimension 0 -- is closed without a single byte being
    sent; the waiting table is not touched and no randomness is
    consumed. *)
Theorem dealer_rejects_malformed (conn : sock) (w : world) (bs : list byte) :
  quiet w -> inbox w !! conn = Some bs ->
  bs = []
  \/ (exists op rest, bs = enc_u8 op ++ rest /\ 0 <= op < 256 /\ op <> OP_REQUEST)
  \/ (exists short, bs = enc_u8 OP_REQUEST ++ short /\ (length short < 4)%nat)
  \/ (exists rest, bs = enc_u8 OP_REQUEST ++ enc_u32 0 ++ rest) ->
  exists w' recvs,
    Dealer.handle_one conn w = (Ok tt, w')
    /\ log w' = log w ++ recvs ++ [EvClose conn]
    /\ Forall (fun ev => exists b, ev = EvRecv conn b) recvs
    /\ waiting w' = waiting w
    /\ rng w' = rng w.
Proof.
  intros Q Hib Hbad. destruct w as [a t r n ib ub rb d f lg].
  unfold quiet in Q. cbn [fault inbox] in Q, Hib. cbn [log waiting rng].
  unfold Dealer.handle_one.
  destruct Hbad as [->|[(op & rest & -> & Hop & Hne)|[(short & -> & Hs)|(rest & ->)]]].
  - eexists. exists [EvRecv conn []].
    split.
    { eapply try_except_raise.
      - unfold read_u8. erewrite bind_raise; [reflexivity|].
        erewrite bind_raise; [reflexivity|].
        apply recv_exact_eof; [exact Q|exact Hib|cbn; lia].
      - unfold try_pass. apply try_except_ok. apply close_ok. }
    cbn [log waiting rng]. rewrite <- app_assoc.
    repeat split. repeat constructor. now eexists.
  - eexists. exists [EvRecv conn (enc_u8 op)].
    split.
    { apply try_except_ok.
      run ltac:(apply read_u8_ok; [exact Q|exact Hib|exact Hop]).
      destruct (Z.eqb_spec op OP_REQUEST) as [?|_]; [contradiction|]. cbn [negb].
      apply close_ok. }
    cbn [log waiting rng]. rewrite <- app_assoc.
    repeat split. repeat constructor. now eexists.
  - eexists. exists [EvRecv conn (enc_u8 OP_REQUEST); EvRecv conn short].
    split.
    { eapply try_except_raise.
      - run ltac:(apply read_u8_ok; [exact Q|exact Hib|unfold OP_REQUEST; lia]).
        rewrite Z.eqb_refl. cbn [negb].
        unfold read_u32. erewrite bind_raise; [reflexivity|].
        erewrite bind_raise; [reflexivity|].
        apply recv_exact_eof; [exact Q|apply lookup_insert_eq|exact Hs].
      - unfold try_pass. apply try_except_ok. apply close_ok. }
    cbn [log waiting rng]. rewrite <- !app_assoc.
    repeat split. repeat constructor; now eexists.
  - eexists. exists [EvRecv conn (enc_u8 OP_REQUEST); EvRecv conn (enc_u32 0)].
    split.
    { apply try_except_ok.
      run ltac:(apply read_u8_ok; [exact Q|exact Hib|unfold OP_REQUEST; lia]).
      rewrite Z.eqb_refl. cbn [negb].
      run ltac:(apply read_u32_ok; [exact Q|apply lookup_insert_eq|lia]).
      rewrite Z.eqb_refl.
      apply close_ok. }
    cbn [log waiting rng]. rewrite <- !app_assoc.
    repeat split. repeat constructor; now eexists.
Qed.

Lemma dealer_rejects_malformed_witness :
  exists w',
    Dealer.handle_one 0%nat
      (World [] ∅ [3; 4] 1%nat {[0%nat := enc_u8 OP_REQUEST ++ enc_u32 0]} [] [] []
             (fun _ => false) [])
    = (Ok tt, w')
    /\ rng w' = [3; 4].
Proof.
  destruct (dealer_rejects_malformed 0%nat
              (World [] ∅ [3; 4] 1%nat {[0%nat := enc_u8 OP_REQUEST ++ enc_u32 0]} [] [] []
                     (fun _ => false) [])
              (enc_u8 OP_REQUEST ++ enc_u32 0))
    as (w' & recvs & E & _ & _ & _ & Hr).
  - intros n. reflexivity.
  - reflexivity.
  - right. right. right. exists []. reflexivity.
  - exists w'. split; [exact E|exact Hr].
Defined.

(** X11.  Two requests for the same dimension [D], arriving one after
    the other on [c1] and [c2] while nobody waits for [D].  The handler
    of [c1] sends nothing, closes nothing, consumes no randomness and
    leaves [c1] as the only waiter for [D].  The handler of [c2] then
    sends share 0 of one triple to [c1] and share 1 to [c2], closes both
    connections, and the table is again what it was before the two
    arrivals. *)
Theorem dealer_pairs_two_arrivals (D : Z) (c1 c2 : sock) (rest1 rest2 : list byte)
    (w : world) :
  quiet w -> 1 <= D < 2 ^ 32 -> c1 <> c2 -> waiting w !! D = None ->
  inbox w !! c1 = Some (enc_u8 OP_REQUEST ++ enc_u32 D ++ rest1) ->
  inbox w !! c2 = Some (enc_u8 OP_REQUEST ++ enc_u32 D ++ rest2) ->
  let tr := Dealer.triple_of D (rng w) in
  exists w1 w2 ev1 ev2,
    Dealer.handle_one c1 w = (Ok tt, w1)
    /\ log w1 = log w ++ ev1
    /\ (forall s, sent s ev1 = []) /\ (forall s, is_closed s ev1 = false)
    /\ waiting w1 !! D = Some [c1] /\ rng w1 = rng w
    /\ Dealer.handle_one c2 w1 = (Ok tt, w2)
    /\ log w2 = log w1 ++ ev2
    /\ sent c1 ev2
       = share_frame D (Dealer.t_sid tr) (Dealer.t_a0 tr) (Dealer.t_b0 tr) (Dealer.t_c0 tr)
    /\ sent c2 ev2
       = share_frame D (Dealer.t_sid tr) (Dealer.t_a1 tr) (Dealer.t_b1 tr) (Dealer.t_c1 tr)
    /\ is_closed c1 ev2 = true /\ is_closed c2 ev2 = true
    /\ waiting w2 = waiting w.
Proof.
  intros Q HD Hne Hw Hib1 Hib2 tr.
  destruct w as [a t tape n ib ub rb d f lg].
  unfold quiet in Q. cbn [fault waiting inbox rng] in Q, Hw, Hib1, Hib2, tr.
  pose proof (handle_one_first_ok f Q a D c1 rest1 t tape n ib ub rb d lg HD Hw Hib1) as E1.
  match type of E1 with
  | _ = (_, World _ _ _ _ _ _ _ _ _ (_ ++ ?l)) => set (ev1 := l) in *
  end.
  destruct (handle_one_paired_ok f Q a D c2 c1 rest2 (<[D := [c1]]> t) tape n
              (<[c1 := rest1]> ib) ub rb d (lg ++ ev1) HD)
    as [tape' E2].
  { apply lookup_insert_eq. }
  { rewrite lookup_insert_ne by exact Hne. exact Hib2. }
  fold tr in E2.
  match type of E2 with
  | _ = (_, World _ _ _ _ _ _ _ _ _ (_ ++ ?l)) => set (ev2 := l) in *
  end.
  do 2 eexists. exists ev1, ev2.
  split; [exact E1|]. cbn [log waiting rng].
  split; [reflexivity|].
  split; [intros s; reflexivity|]. split; [intros s; reflexivity|].
  split; [apply lookup_insert_eq|]. split; [reflexivity|].
  split; [exact E2|]. split; [reflexivity|].
  assert (Hne' : c2 <> c1) by congruence.
  split; [|split; [|split; [|split]]].
  - unfold ev2.
    repeat first [ rewrite sent_app | rewrite sent_ev_send_share
                 | rewrite sent_ev_send_share_other by congruence
                 | rewrite app_nil_r | progress cbn [sent app] ].
    reflexivity.
  - unfold ev2.
    repeat first [ rewrite sent_app | rewrite sent_ev_send_share
                 | rewrite sent_ev_send_share_other by congruence
                 | rewrite app_nil_r | progress cbn [sent app] ].
    reflexivity.
  - unfold ev2. rewrite !is_closed_app.
    replace (is_closed c1 [EvShutdown c1; EvClose c1]) with true
      by (cbn; now rewrite Nat.eqb_refl).
    now rewrite !orb_true_r.
  - unfold ev2. rewrite !is_closed_app.
    replace (is_closed c2 [EvShutdown c2; EvClose c2]) with true
      by (cbn; now rewrite Nat.eqb_refl).
    now rewrite !orb_true_r.
  - rewrite !insert_insert_eq, delete_insert_eq. apply delete_id. exact Hw.
Qed.

Lemma dealer_pairs_two_arrivals_witness :
  exists w1 w2,
    Dealer.handle_one 0%nat
      (World [] ∅ [1; 2; 3; 4; 5; 6] 2%nat
             {[0%nat := enc_u8 OP_REQUEST ++ enc_u32 1;
               1%nat := enc_u8 OP_REQUEST ++ enc_u32 1]} [] [] []
             (fun _ => false) [])
    = (Ok tt, w1)
    /\ Dealer.handle_one 1%nat w1 = (Ok tt, w2)
    /\ waiting w2 = ∅.
Proof.
  destruct (dealer_pairs_two_arrivals 1 0%nat 1%nat [] []
              (World [] ∅ [1; 2; 3; 4; 5; 6] 2%nat
                     {[0%nat := enc_u8 OP_REQUEST ++ enc_u32 1;
                       1%nat := enc_u8 OP_REQUEST ++ enc_u32 1]} [] [] []
                     (fun _ => false) []))
    as (w1 & w2 & ev1 & ev2 & E1 & _ & _ & _ & _ & _ & E2 & _ & _ & _ & _ & _ & Hw).
  - intros n. reflexivity.
  - lia.
  - discriminate.
  - reflexivity.
  - rewrite app_nil_r. reflexivity.
  - rewrite app_nil_r. reflexivity.
  - exists w1, w2. split; [exact E1|]. split; [exact E2|exact Hw].
Defined.

(** X12.  Requests for different dimensions are never paired: after a
    request for [D1] on [c1] and one for [D2 <> D1] on [c2], both
    connections wait, each under its own dimension; nothing has been
    sent or closed and no randomness has been drawn. *)
Theorem dealer_keeps_dimensions_apart (D1 D2 : Z) (c1 c2 : sock)
    (rest1 rest2 : list byte) (w : world) :
  quiet w -> 1 <= D1 < 2 ^ 32 -> 1 <= D2 < 2 ^ 32 -> D1 <> D2 -> c1 <> c2 ->
  waiting w !! D1 = None -> waiting w !! D2 = None ->
  inbox w !! c1 = Some (enc_u8 OP_REQUEST ++ enc_u32 D1 ++ rest1) ->
  inbox w !! c2 = Some (enc_u8 OP_REQUEST ++ enc_u32 D2 ++ rest2) ->
  exists w' evs,
    (Dealer.handle_one c1 ;; Dealer.handle_one c2)%py w = (Ok tt, w')
    /\ log w' = log w ++ evs
    /\ (forall s, sent s evs = []) /\ (forall s, is_closed s evs = false)
    /\ waiting w' !! D1 = Some [c1] /\ waiting w' !! D2 = Some [c2]
    /\ rng w' = rng w.
Proof.
  intros Q HD1 HD2 HD Hne Hw1 Hw2 Hib1 Hib2.
  destruct w as [a t tape n ib ub rb d f lg].
  unfold quiet in Q. cbn [fault waiting inbox] in Q, Hw1, Hw2, Hib1, Hib2.
  run ltac:(apply (handle_one_first_ok f Q a D1 c1 rest1); assumption).
  rewrite (handle_one_first_ok f Q a D2 c2 rest2);
    [|exact HD2|now rewrite lookup_insert_ne|now rewrite lookup_insert_ne].
  do 2 eexists. split; [reflexivity|]. cbn [log waiting rng].
  split; [rewrite <- app_assoc; reflexivity|].
  split; [intros s; reflexivity|]. split; [intros s; reflexivity|].
  split; [|split; [|reflexivity]].
  - rewrite lookup_insert_ne by congruence. apply lookup_insert_eq.
  - apply lookup_insert_eq.
Qed.

Lemma dealer_keeps_dimensions_apart_witness :
  exists w',
    (Dealer.handle_one 0%nat ;; Dealer.handle_one 1%nat)%py
      (World [] ∅ [1; 2; 3] 2%nat
             {[0%nat := enc_u8 OP_REQUEST ++ enc_u32 1;
               1%nat := enc_u8 OP_REQUEST ++ enc_u32 2]} [] [] []
             (fun _ => false) [])
    = (Ok tt, w')
    /\ rng w' = [1; 2; 3].
Proof.
  destruct (dealer_keeps_dimensions_apart 1 2 0%nat 1%nat [] []
              (World [] ∅ [1; 2; 3] 2%nat
                     {[0%nat := enc_u8 OP_REQUEST ++ enc_u32 1;
                       1%nat := enc_u8 OP_REQUEST ++ enc_u32 2]} [] [] []
                     (fun _ => false) []))
    as (w' & evs & E & _ & _ & _ & _ & _ & Hr).
  - intros n. reflexivity.
  - lia.
  - lia.
  - discriminate.
  - discriminate.
  - reflexivity.
  - reflexivity.
  - rewrite app_nil_r. reflexivity.
  - rewrite app_nil_r. reflexivity.
  - exists w'. split; [exact E|exact Hr].
Defined.

(** X13.  The numbers of a triple.  For every dimension [0 <= D < 2^32]
    and every state of the generator, [generate] draws [4 D + 2] random
    numbers and returns vectors of length [D] with all elements of
    [a0], [a1], [b0], [b1] in [1, 1024], [c0] in [1, 1024], a session id
    in [0, 2^63) and [c1 = c - c0] between [4 D - 1024] and
    [4194304 D - 1] (negative shares are possible for small [D]).  All of
    them fit the signed 64-bit range, so packing a share never fails. *)
Theorem dealer_triple_ranges (D : Z) (w : world) :
  0 <= D < 2 ^ 32 ->
  exists tr w',
    Dealer.generate D w = (Ok tr, w')
    /\ rng w' = drop (4 * Z.to_nat D + 2) (rng w)
    /\ len (Dealer.t_a0 tr) = D /\ len (Dealer.t_a1 tr) = D
    /\ len (Dealer.t_b0 tr) = D /\ len (Dealer.t_b1 tr) = D
    /\ Forall (fun x => 1 <= x <= 1024) (Dealer.t_a0 tr)
    /\ Forall (fun x => 1 <= x <= 1024) (Dealer.t_a1 tr)
    /\ Forall (fun x => 1 <= x <= 1024) (Dealer.t_b0 tr)
    /\ Forall (fun x => 1 <= x <= 1024) (Dealer.t_b1 tr)
    /\ 1 <= Dealer.t_c0 tr <= 1024
    /\ 4 * D - 1024 <= Dealer.t_c1 tr <= 4194304 * D - 1
    /\ 0 <= Dealer.t_sid tr < 2 ^ 63
    /\ i64 (Dealer.t_c1 tr).
Proof.
  intros HD. destruct w as [a t tape n ib ub rb d f lg].
  exists (Dealer.triple_of D tape). eexists.
  split; [apply generate_ok|]. cbn [rng].
  split.
  { rewrite !drop_drop. f_equal. lia. }
  unfold Dealer.triple_of.
  cbn [Dealer.t_sid Dealer.t_a0 Dealer.t_b0 Dealer.t_c0 Dealer.t_a1 Dealer.t_b1 Dealer.t_c1].
  set (k := Z.to_nat D).
  set (a0 := random_vec k tape). set (a1 := random_vec k (drop k tape)).
  set (b0 := random_vec k (drop k (drop k tape))).
  set (b1 := random_vec k (drop k (drop k (drop k tape)))).
  set (tape4 := drop k (drop k (drop k (drop k tape)))).
  assert (Hl : forall tp, len (random_vec k tp) = D).
  { intros tp. unfold len. rewrite length_random_vec. unfold k. lia. }
  assert (Hc0 : 1 <= 1 + hd 0 tape4 mod (1024 - 1 + 1) <= 1024).
  { pose proof (Z.mod_pos_bound (hd 0 tape4) (1024 - 1 + 1) ltac:(lia)). lia. }
  assert (Hsum : forall tp tp', Forall (fun x => 2 <= x <= 2048)
                                  (zip_with Z.add (random_vec k tp) (random_vec k tp'))).
  { intros tp tp'.
    apply (Forall_zip_with2 (fun x => 1 <= x <= 1024) (fun y => 1 <= y <= 1024));
      [intros; lia|apply random_vec_range|apply random_vec_range]. }
  assert (Hlz : length (zip_with Z.add a0 a1) = k).
  { unfold a0, a1. rewrite length_zip_with, !length_random_vec. lia. }
  assert (Hlz' : length (zip_with Z.add b0 b1) = k).
  { unfold b0, b1. rewrite length_zip_with, !length_random_vec. lia. }
  assert (Hup : 0 <= dot (zip_with Z.add a0 a1) (zip_with Z.add b0 b1)
                <= Z.of_nat (length (zip_with Z.add a0 a1)) * (2048 * 2048)).
  { apply dot_bounds; [lia| |];
      (eapply Forall_impl; [apply Hsum|]; cbn; intros; lia). }
  assert (Hlo : Z.of_nat (length (zip_with Z.add a0 a1)) * (2 * 2)
                <= dot (zip_with Z.add a0 a1) (zip_with Z.add b0 b1)).
  { apply dot_lower; [lia|congruence| |];
      (eapply Forall_impl; [apply Hsum|]; cbn; intros; lia). }
  rewrite Hlz in Hup, Hlo.
  assert (Hk : Z.of_nat k = D) by (unfold k; lia).
  rewrite Hk in Hup, Hlo.
  repeat split; try apply Hl; try apply random_vec_range; try lia;
    try (apply Z.mod_pos_bound; lia);
    unfold i64_min, i64_max; lia.
Qed.

Lemma dealer_triple_ranges_witness :
  exists tr w',
    Dealer.generate 1 (initial_world [0; 0; 0; 0; 1023; 5] [] [] []) = (Ok tr, w')
    /\ 4 * 1 - 1024 <= Dealer.t_c1 tr <= 4194304 * 1 - 1.
Proof.
  destruct (dealer_triple_ranges 1 (initial_world [0; 0; 0; 0; 1023; 5] [] [] []))
    as (tr & w' & E & _ & _ & _ & _ & _ & _ & _ & _ & _ & _ & H & _).
  - lia.
  - exists tr, w'. split; [exact E|exact H].
Defined.

(** ** The coordinator *)

(** X14.  [make_standard_basis_share] for an index in range, negative
    indices included: for [-dim <= idx < dim] the call returns two
    vectors of length [dim] whose element-wise sum is [val] at position
    [idx] (counted from the end when [idx] is negative, as Python list
    indexing does) and 0 elsewhere; the second vector has all its
    elements in [1, 1024], and [dim] random numbers are consumed. *)
Theorem basis_share_sums_to_unit (dim idx val : Z) (w : world) :
  - dim <= idx < dim ->
  let p := if idx <? 0 then idx + dim else idx in
  exists e f w',
    Coordinator.make_standard_basis_share dim idx val w = (Ok (e, f), w')
    /\ zip_with Z.add e f = <[Z.to_nat p := val]> (replicate (Z.to_nat dim) 0)
    /\ len e = dim /\ len f = dim
    /\ Forall (fun x => 1 <= x <= 1024) f
    /\ rng w' = drop (Z.to_nat dim) (rng w).
Proof.
  intros Hidx p.
  assert (Hp : 0 <= p < dim).
  { unfold p. destruct (Z.ltb_spec idx 0); lia. }
  assert (E : Coordinator.make_standard_basis_share dim idx val w
              = Coordinator.make_standard_basis_share dim p val w).
  { unfold p. destruct (Z.ltb_spec idx 0); [|reflexivity].
    apply make_standard_basis_share_negative. lia. }
  destruct w as [a t tape n ib ub rb d f lg].
  exists (fst (Coordinator.basis_share dim p val tape)),
         (snd (Coordinator.basis_share dim p val tape)).
  eexists.
  split.
  { rewrite E, (make_standard_basis_share_ok dim p val) by exact Hp.
    rewrite <- surjective_pairing. reflexivity. }
  destruct (basis_share_lengths dim p val tape) as [Le Lf].
  split; [apply basis_share_sum|].
  split; [unfold len; rewrite Le; lia|]. split; [unfold len; rewrite Lf; lia|].
  split; [apply random_vec_range|reflexivity].
Qed.

Lemma basis_share_sums_to_unit_witness :
  exists e f w',
    Coordinator.make_standard_basis_share 3 (-1) 9 (initial_world [4; 5; 6] [] [] [])
    = (Ok (e, f), w')
    /\ zip_with Z.add e f = [0; 0; 9].
Proof.
  destruct (basis_share_sums_to_unit 3 (-1) 9 (initial_world [4; 5; 6] [] [] []))
    as (e & f & w' & E & H & _).
  - lia.
  - exists e, f, w'. split; [exact E|exact H].
Defined.

(** X15.  The guard of [main] and the indices it lets through.  With
    [idx >= dim] the coordinator stops with [SystemExit] before doing
    anything.  An index below [-dim] passes the guard and fails in
    [make_standard_basis_share] with [IndexError].  In both cases no
    connection is opened, nothing is sent and no randomness is
    consumed. *)
Theorem coordinator_rejects_index (a : Coordinator.args) (w : world) :
  0 <= Coordinator.dim a ->
  Coordinator.dim a <= Coordinator.idx a \/ Coordinator.idx a < - Coordinator.dim a ->
  Coordinator.main a w
  = (Raise (if Coordinator.idx a >=? Coordinator.dim a
            then SystemExit "idx < dim required" else IndexError), w).
Proof.
  intros Hdim H. unfold Coordinator.main.
  destruct (Coordinator.idx a >=? Coordinator.dim a) eqn:E; [reflexivity|].
  rewrite Z.geb_leb in E. apply Z.leb_gt in E.
  destruct (Coordinator.op a);
    (erewrite bind_raise; [reflexivity|]);
    apply make_standard_basis_share_out_of_range; (exact Hdim || lia).
Qed.

Lemma coordinator_rejects_index_witness :
  Coordinator.main (Coordinator.Args Coordinator.op_write 4 (-5) 7 ("A"%string, 9700)
                      ("B"%string, 9800))
    (initial_world [1; 2; 3; 4] [] [] [OK_bytes; OK_bytes])
  = (Raise IndexError, initial_world [1; 2; 3; 4] [] [] [OK_bytes; OK_bytes]).
Proof.
  apply (coordinator_rejects_index
           (Coordinator.Args Coordinator.op_write 4 (-5) 7 ("A"%string, 9700)
              ("B"%string, 9800))
           (initial_world [1; 2; 3; 4] [] [] [OK_bytes; OK_bytes])).
  - cbn. lia.
  - right. cbn. lia.
Defined.

(** X16.  A write never reports a failure.  For an index in range,
    whatever the environment does -- a party that is down, a connection
    that breaks, a reply that never comes, a share that does not fit 64
    bits -- [main] comes back normally: the exceptions of [write_vec]
    die with the threads, and nothing tells the caller whether the
    parties stored the value. *)
Theorem coordinator_write_always_succeeds (dim idx val : Z) (c0 c1 : string * Z)
    (w : world) :
  - dim <= idx < dim ->
  fst (Coordinator.main (Coordinator.Args Coordinator.op_write dim idx val c0 c1) w)
  = Ok None.
Proof.
  intros Hidx.
  destruct (make_standard_basis_share_returns dim idx val w Hidx) as (sh & w1 & E).
  unfold Coordinator.main.
  cbn [Coordinator.idx Coordinator.dim Coordinator.op Coordinator.val
       Coordinator.c0 Coordinator.c1].
  rewrite Z.geb_leb. destruct (Z.leb_spec dim idx) as [?|_]; [lia|].
  erewrite bind_ok by exact E.
  destruct (thread_returns (Coordinator.write_vec c0 (fst sh)) w1 (nb_write_vec _ _))
    as (o0 & w2 & E0).
  erewrite bind_ok by exact E0.
  destruct (thread_returns (Coordinator.write_vec c1 (snd sh)) w2 (nb_write_vec _ _))
    as (o1 & w3 & E1).
  erewrite bind_ok by exact E1.
  reflexivity.
Qed.

Lemma coordinator_write_always_succeeds_witness :
  fst (Coordinator.main
         (Coordinator.Args Coordinator.op_write 2 0 (2 ^ 70) ("A"%string, 9700)
            ("B"%string, 9800))
         (initial_world [1; 2] [] [] []))
  = Ok None.
Proof.
  apply (coordinator_write_always_succeeds 2 0 (2 ^ 70) ("A"%string, 9700)
           ("B"%string, 9800) (initial_world [1; 2] [] [] [])).
  lia.
Defined.

(** X17.  A read needs both replies.  When one of the parties closes
    its connection before a complete 8-byte reply (as a party does
    after any error), the thread reading from it dies, its slot of
    [out] stays [None], and [main] ends with [TypeError] on
    [out[0] + out[1]]: no value is printed. *)
Theorem coordinator_read_needs_both_replies (dim idx val : Z) (c0 c1 : string * Z)
    (w : world) (r0 r1 : list byte) (d : list (list byte)) :
  quiet w -> 0 <= idx < dim -> dim < 2 ^ 32 ->
  dials w = r0 :: r1 :: d ->
  (length r0 < 8)%nat
  \/ ((exists s0 rest, r0 = enc_i64 s0 ++ rest /\ i64 s0) /\ (length r1 < 8)%nat) ->
  fst (Coordinator.main (Coordinator.Args Coordinator.op_read dim idx val c0 c1) w)
  = Raise TypeError.
Proof.
  intros Q Hidx Hdim Hd Hshort. destruct w as [a t tape n ib ub rb d0 f lg].
  unfold quiet in Q. cbn [fault dials] in Q, Hd. subst d0.
  unfold Coordinator.main.
  cbn [Coordinator.idx Coordinator.dim Coordinator.op Coordinator.val
       Coordinator.c0 Coordinator.c1].
  rewrite Z.geb_leb. destruct (Z.leb_spec dim idx) as [?|_]; [lia|].
  destruct (basis_share_lengths dim idx 1 tape) as [Le Lf].
  run ltac:(apply make_standard_basis_share_ok; exact Hidx).
  assert (He : len (fst (Coordinator.basis_share dim idx 1 tape)) < 2 ^ 32)
    by (unfold len; rewrite Le; lia).
  assert (Hf : len (snd (Coordinator.basis_share dim idx 1 tape)) < 2 ^ 32)
    by (unfold len; rewrite Lf; lia).
  destruct Hshort as [H0|[(s0 & rest & -> & Hs0) H1]].
  - erewrite bind_ok.
    2:{ eapply thread_raise.
        apply (read_share_eof f Q); [exact He|apply basis_share_unit_range|exact H0]. }
    match goal with
    | |- context [Coordinator.thread ?b] =>
        match goal with
        | |- fst (bind _ _ ?w1) = _ =>
            destruct (thread_returns b w1 (nb_read_share _ _)) as (o1 & w2 & E1)
        end
    end.
    erewrite bind_ok by exact E1. reflexivity.
  - erewrite bind_ok.
    2:{ apply thread_ok.
        apply (read_share_ok f Q); [exact He|apply basis_share_unit_range|exact Hs0]. }
    erewrite bind_ok.
    2:{ eapply thread_raise.
        apply (read_share_eof f Q); [exact Hf|apply basis_share_f_range|exact H1]. }
    reflexivity.
Qed.

Lemma coordinator_read_needs_both_replies_witness :
  fst (Coordinator.main
         (Coordinator.Args Coordinator.op_read 2 0 0 ("A"%string, 9700) ("B"%string, 9800))
         (initial_world [1; 2] [] [] [enc_i64 5; []]))
  = Raise TypeError.
Proof.
  apply (coordinator_read_needs_both_replies 2 0 0 ("A"%string, 9700) ("B"%string, 9800)
           (initial_world [1; 2] [] [] [enc_i64 5; []]) (enc_i64 5) [] []).
  - intros n. reflexivity.
  - lia.
  - lia.
  - reflexivity.
  - right. split; [|cbn; lia].
    exists 5, []. split; [now rewrite app_nil_r|concrete_i64].
Defined.

(** X18.  When the dealer has paired two connections and its first
    [sendall] to the waiting one fails, the exception skips the second
    [send_share]: neither connection receives a byte, the [finally]
    closes the waiting connection and the outer handler closes the
    arriving one.  The pairing is lost: the waiter has already been
    removed from the table. *)
Theorem dealer_first_send_fails (D : Z) (conn peer : sock) (rest : list byte) (w : world) :
  1 <= D < 2 ^ 32 -> peer <> conn ->
  waiting w !! D = Some [peer] ->
  inbox w !! conn = Some (enc_u8 OP_REQUEST ++ enc_u32 D ++ rest) ->
  fault w (length (log w)) = false ->
  fault w (S (length (log w))) = false ->
  fault w (length (log w) + 4)%nat = true ->
  exists w' evs,
    Dealer.handle_one conn w = (Ok tt, w')
    /\ log w' = log w ++ evs
    /\ (forall s, sent s evs = [])
    /\ is_closed peer evs = true /\ is_closed conn evs = true
    /\ waiting w' !! D = None.
Proof.
  intros HD Hne Hw Hib F0 F1 F4. destruct w as [a t tape n ib ub rb d f lg].
  cbn [fault log waiting inbox] in Hw, Hib, F0, F1, F4.
  unfold Dealer.handle_one.
  set (w4 := World a (delete D (<[D := []]> t))
                   (drop 1 (drop 1 (drop (Z.to_nat D) (drop (Z.to_nat D)
                      (drop (Z.to_nat D) (drop (Z.to_nat D) tape))))))
                   n (<[conn := rest]> ib) ub rb d f).
  set (lg4 := lg ++ [EvRecv conn (enc_u8 OP_REQUEST); EvRecv conn (enc_u32 D);
                     EvWaiting (<[D := []]> t); EvWaiting (delete D (<[D := []]> t))]).
  destruct (try_pass_shutdown a (delete D (<[D := []]> t))
              (drop 1 (drop 1 (drop (Z.to_nat D) (drop (Z.to_nat D)
                 (drop (Z.to_nat D) (drop (Z.to_nat D) tape))))))
              f peer n (<[conn := rest]> ib) ub rb d (lg4 ++ [EvFault]))
    as (ev & Esh & Hev).
  eexists. exists ([EvRecv conn (enc_u8 OP_REQUEST); EvRecv conn (enc_u32 D);
                    EvWaiting (<[D := []]> t); EvWaiting (delete D (<[D := []]> t))]
                   ++ [EvFault; ev; EvClose peer; EvClose conn]).
  split.
  { eapply try_except_raise.
    - run ltac:(apply read_u8_at; [exact F0|exact Hib|unfold OP_REQUEST; lia]).
      rewrite Z.eqb_refl. cbn [negb].
      run ltac:(apply read_u32_at;
                [rewrite length_app, Nat.add_1_r; exact F1|apply lookup_insert_eq|lia]).
      rewrite insert_insert_eq.
      destruct (Z.eqb_spec D 0) as [?|_]; [lia|].
      run ltac:(apply pair_or_wait_paired_at; exact Hw).
      cbv iota.
      run ltac:(apply generate_ok).
      repeat rewrite <- app_assoc. cbn [app]. fold lg4.
      erewrite bind_raise; [reflexivity|].
      eapply try_finally_raise.
      + unfold Dealer.send_share.
        run ltac:(apply pack_u8_ok; unfold OP_RESPONSE; lia).
        erewrite bind_raise; [reflexivity|].
        apply sendall_fault. unfold lg4. rewrite length_app. exact F4.
      + erewrite bind_ok by exact Esh. apply close_ok.
    - apply try_pass_ok. apply close_ok. }
  cbn [log waiting]. split.
  { unfold lg4. repeat rewrite <- app_assoc. reflexivity. }
  split.
  { intros s. destruct Hev as [->| ->]; reflexivity. }
  split.
  { destruct Hev as [->| ->]; cbn; rewrite Nat.eqb_refl; now rewrite ?orb_true_r. }
  split.
  { destruct Hev as [->| ->]; cbn; rewrite Nat.eqb_refl; now rewrite ?orb_true_r. }
  apply lookup_delete_eq.
Qed.

Lemma dealer_first_send_fails_witness :
  exists w' evs,
    Dealer.handle_one 1%nat
      (World [] {[2 := [0%nat]]} [1; 2; 3; 4; 5; 6; 7; 8; 9; 10] 2%nat
             {[1%nat := enc_u8 OP_REQUEST ++ enc_u32 2]} [] [] []
             (fun n => Nat.eqb n 4) [])
    = (Ok tt, w')
    /\ log w' = evs
    /\ sent 0%nat evs = [] /\ sent 1%nat evs = [].
Proof.
  destruct (dealer_first_send_fails 2 1%nat 0%nat []
              (World [] {[2 := [0%nat]]} [1; 2; 3; 4; 5; 6; 7; 8; 9; 10] 2%nat
                     {[1%nat := enc_u8 OP_REQUEST ++ enc_u32 2]} [] [] []
                     (fun n => Nat.eqb n 4) []))
    as (w' & evs & E & Hlog & Hs & _).
  - lia.
  - discriminate.
  - reflexivity.
  - rewrite app_nil_r. reflexivity.
  - reflexivity.
  - reflexivity.
  - reflexivity.
  - exists w', evs. split; [exact E|]. split; [exact Hlog|]. split; apply Hs.
Defined.

(** ** The string client *)

(** X19.  The ten character slots of a string.  For a string given
    with [--val] the loop that fills [vals_ascii] does not fail: it
    yields the code points of the first ten characters, followed by
    zeros when the string is shorter; characters after the tenth are
    dropped.  When [--val] is left out the value is the integer 0 and
    [len(args.val)] raises [TypeError]. *)
Theorem vals_ascii_truncates_and_pads (v : UserApi.cli_val) (w : world) :
  UserApi.fill_vals_ascii v w
  = (match v with
     | UserApi.val_str s => Ok (UserApi.ascii_of s)
     | UserApi.val_default => Raise TypeError
     end, w)
  /\ (forall s, length (UserApi.ascii_of s) = 10%nat)
  /\ (forall s i, (i < 10)%nat -> UserApi.ascii_of s !! i = Some (default 0 (s !! i))).
Proof.
  split; [|split].
  - destruct v as [|s]; [reflexivity|].
    unfold UserApi.fill_vals_ascii. rewrite range_len.
    apply (ascii_loop_run s (length s) 0 w); lia.
  - intros s. unfold UserApi.ascii_of.
    rewrite length_app, length_take, length_replicate. lia.
  - intros s i Hi. unfold UserApi.ascii_of.
    destruct (Nat.lt_ge_cases i (length s)) as [Hlt|Hge].
    + rewrite lookup_app_l by (rewrite length_take; lia).
      rewrite lookup_take_lt by lia.
      destruct (lookup_lt_is_Some_2 s i Hlt) as [c Hc]. now rewrite Hc.
    + rewrite lookup_app_r by (rewrite length_take; lia).
      rewrite length_take, (lookup_ge_None_2 s i) by lia.
      apply lookup_replicate_2. lia.
Qed.

(** X20.  What a read hands to [chr].  When both parties are reachable
    the ten values are, slot by slot, the sum of the two replies.  A
    connection that ends before eight bytes have arrived is not an
    error for the client: the thread dies, the 0 that [stored_vals]
    started with stays in place, and the missing share is counted as
    0. *)
Theorem user_read_sums_replies (ar : UserApi.args) (w : world)
    (rs : list (list byte * list byte)) (d : list (list byte)) :
  quiet w -> 0 <= UserApi.idx ar < UserApi.dim ar ->
  UserApi.dim ar * UserApi.STR_SIZE < 2 ^ 32 ->
  length rs = 10%nat -> dials w = UserApi.slot_dials rs ++ d ->
  exists w',
    UserApi.main_read_values ar w
    = (Ok (map (fun r => UserApi.reply_value (fst r) + UserApi.reply_value (snd r)) rs), w')
    /\ dials w' = d.
Proof.
  intros Q Hidx HD Hrs Hd. destruct w as [a t tape n ib ub rb d0 f lg].
  unfold quiet in Q. cbn [fault dials] in Q, Hd. subst d0.
  unfold UserApi.main_read_values.
  rewrite Z.geb_leb. destruct (Z.leb_spec (UserApi.dim ar) (UserApi.idx ar)) as [?|_]; [lia|].
  unfold UserApi.read_phase.
  change (range UserApi.STR_SIZE) with (seq 0 10). rewrite <- Hrs.
  destruct (read_slots_run f Q a t ar rs 0 tape n ib lg ub rb d)
    as (tape' & ib' & evs & E & _).
  { intros i Hi. unfold UserApi.STR_SIZE. lia. }
  { exact HD. }
  erewrite bind_ok by exact E.
  eexists. unfold ret, UserApi.stored_of. rewrite map_map. cbn [fst snd].
  split; reflexivity.
Qed.

Lemma user_read_sums_replies_witness :
  exists w',
    UserApi.main_read_values
      (UserApi.Args Coordinator.op_read 1 0 [] ("A"%string, 9700) ("B"%string, 9800))
      (initial_world []
         [] [] (UserApi.slot_dials
                  ((enc_i64 60, enc_i64 12) :: (enc_i64 100, []) :: replicate 8 ([], []))))
    = (Ok [72; 100; 0; 0; 0; 0; 0; 0; 0; 0], w').
Proof.
  destruct (user_read_sums_replies
              (UserApi.Args Coordinator.op_read 1 0 [] ("A"%string, 9700) ("B"%string, 9800))
              (initial_world []
                 [] [] (UserApi.slot_dials
                          ((enc_i64 60, enc_i64 12) :: (enc_i64 100, [])
                           :: replicate 8 ([], []))))
              ((enc_i64 60, enc_i64 12) :: (enc_i64 100, []) :: replicate 8 ([], [])) [])
    as (w' & E & _).
  - intros n. reflexivity.
  - cbn [UserApi.idx UserApi.dim]. lia.
  - unfold UserApi.STR_SIZE. cbn [UserApi.dim]. lia.
  - reflexivity.
  - cbn [initial_world dials]. now rewrite app_nil_r.
  - exists w'. exact E.
Defined.

(** X21.  A write of a string overwrites.  After reading the ten slots,
    the client writes to the two parties vectors [e0] and [e1] whose
    element-wise sum holds, at the slot positions
    [10*idx .. 10*idx + 9], the new code point minus the two shares
    read for that position, and 0 everywhere else: added to a memory
    that holds the values read, it leaves the new string in place.
    (The differences must stay within [2^59] in absolute value for the
    vectors to fit the wire format.) *)
Theorem user_write_sends_differences (ar : UserApi.args) (w : world)
    (rs : list (list byte * list byte)) (ok0 ok1 : list byte) (d : list (list byte)) :
  quiet w -> 0 <= UserApi.idx ar < UserApi.dim ar ->
  UserApi.dim ar * UserApi.STR_SIZE < 2 ^ 32 ->
  length rs = 10%nat -> length ok0 = 2%nat -> length ok1 = 2%nat ->
  dials w = UserApi.slot_dials rs ++ ok0 :: ok1 :: d ->
  Forall (fun x => - 2 ^ 59 <= x <= 2 ^ 59)
         (UserApi.deltas_of (UserApi.val ar) (UserApi.stored_of rs)) ->
  exists e0 e1 w' evs,
    UserApi.main_write ar w = (Ok tt, w')
    /\ log w' = log w ++ evs
    /\ sent (20 + next_sock w)%nat evs = request OP_WRITE_VEC e0
    /\ sent (21 + next_sock w)%nat evs = request OP_WRITE_VEC e1
    /\ zip_with Z.add e0 e1
       = UserApi.placed (Z.to_nat (UserApi.dim ar * UserApi.STR_SIZE))
           (Z.to_nat (UserApi.STR_SIZE * UserApi.idx ar))
           (UserApi.deltas_of (UserApi.val ar) (UserApi.stored_of rs)).
Proof.
  intros Q Hidx HD Hrs Hok0 Hok1 Hd Hdl. destruct w as [a t tape n ib ub rb d0 f lg].
  unfold quiet in Q. cbn [fault dials] in Q, Hd. subst d0. cbn [log next_sock].
  unfold UserApi.main_write.
  rewrite Z.geb_leb. destruct (Z.leb_spec (UserApi.dim ar) (UserApi.idx ar)) as [?|_]; [lia|].
  unfold UserApi.read_phase.
  change (range UserApi.STR_SIZE) with (seq 0 10). rewrite <- Hrs.
  destruct (read_slots_run f Q a t ar rs 0 tape n ib lg ub rb (ok0 :: ok1 :: d))
    as (tape1 & ib1 & evs1 & E1 & S1).
  { intros i Hi. unfold UserApi.STR_SIZE. lia. }
  { exact HD. }
  erewrite bind_ok by exact E1.
  rewrite Hrs in *. change (2 * 10 + n)%nat with (20 + n)%nat in *.
  unfold UserApi.write_phase.
  erewrite bind_ok.
  2:{ rewrite range_len. apply (ascii_loop_run (UserApi.val ar) (length (UserApi.val ar)) 0); lia. }
  cbv zeta.
  change (range UserApi.STR_SIZE) with (seq 0 10).
  assert (Lst : length (UserApi.stored_of rs) = 10%nat).
  { unfold UserApi.stored_of. now rewrite length_map. }
  assert (Lva : length (UserApi.ascii_of (UserApi.val ar)) = 10%nat).
  { unfold UserApi.ascii_of. rewrite length_app, length_take, length_replicate. lia. }
  set (N := Z.to_nat (UserApi.dim ar * UserApi.STR_SIZE)).
  assert (HN : (Z.to_nat (UserApi.dim ar) * Z.to_nat UserApi.STR_SIZE)%nat = N).
  { unfold N, UserApi.STR_SIZE. lia. }
  rewrite HN.
  destruct (write_fold_run ar (UserApi.ascii_of (UserApi.val ar)) (UserApi.stored_of rs)
              (2 ^ 59) Hidx Lva Lst ltac:(lia) Hdl
              10 0 (replicate N 0) (replicate N 0)
              a t tape1 (20 + n)%nat ib1 ub rb (ok0 :: ok1 :: d) f (lg ++ evs1))
    as (e0 & e1 & tape2 & E2 & L0 & L1 & Hsum & F0 & F1).
  { lia. }
  { apply length_replicate. }
  { apply length_replicate. }
  { cbv zeta. rewrite take_0. cbn [app]. rewrite zip_add_zeros_r, <- replicate_add. f_equal.
    unfold UserApi.STR_SIZE. fold N. unfold N, UserApi.STR_SIZE. lia. }
  { apply Forall_replicate. lia. }
  { apply Forall_replicate. lia. }
  erewrite bind_ok by exact E2. cbn [fst snd].
  assert (Fi : forall l, Forall (fun x => - (10 * (2 ^ 59 + 1024)) <= x
                                          <= 10 * (2 ^ 59 + 1024)) l -> Forall i64 l).
  { intros l Hl. eapply Forall_impl; [exact Hl|]. cbn. intros x Hx.
    unfold i64, i64_min, i64_max. lia. }
  assert (HlN : Z.of_nat N < 2 ^ 32) by (unfold N; lia).
  pose proof (write_vec_ok f Q a t tape2 (UserApi.c0 ar) e0 ok0 [] (20 + n)%nat ib1 ub rb
                (ok1 :: d) (lg ++ evs1)) as W0.
  rewrite app_nil_r in W0.
  erewrite bind_ok.
  2:{ apply thread_ok, W0;
        [unfold len; rewrite L0; exact HlN|apply Fi, F0|exact Hok0]. }
  pose proof (write_vec_ok f Q a t tape2 (UserApi.c1 ar) e1 ok1 [] (S (20 + n)) 
                (<[(20 + n)%nat := []]> ib1) ub rb d
                ((lg ++ evs1) ++ Coordinator.ev_write_vec (UserApi.c0 ar) (20 + n)%nat e0 ok0))
    as W1.
  rewrite app_nil_r in W1.
  erewrite bind_ok.
  2:{ apply thread_ok, W1;
        [unfold len; rewrite L1; exact HlN|apply Fi, F1|exact Hok1]. }
  exists e0, e1. eexists.
  exists (evs1 ++ Coordinator.ev_write_vec (UserApi.c0 ar) (20 + n)%nat e0 ok0
               ++ Coordinator.ev_write_vec (UserApi.c1 ar) (S (20 + n)) e1 ok1).
  split; [unfold ret; rewrite <- !app_assoc; reflexivity|].
  split; [reflexivity|].
  unfold Coordinator.ev_write_vec.
  split; [|split].
  - rewrite !sent_app, S1, sent_ev_send_request, sent_ev_send_request_other by lia.
    cbn [sent app]. now rewrite !app_nil_r.
  - rewrite !sent_app, S1, sent_ev_send_request, sent_ev_send_request_other by lia.
    cbn [sent app]. now rewrite !app_nil_r.
  - exact Hsum.
Qed.

Lemma user_write_sends_differences_witness :
  exists e0 e1 w',
    UserApi.main_write
      (UserApi.Args Coordinator.op_write 1 0 [72; 105] ("A"%string, 9700) ("B"%string, 9800))
      (initial_world [] [] []
         (UserApi.slot_dials (replicate 10 (enc_i64 30, enc_i64 3)) ++ [OK_bytes; OK_bytes]))
    = (Ok tt, w')
    /\ zip_with Z.add e0 e1 = [39; 72; -33; -33; -33; -33; -33; -33; -33; -33].
Proof.
  destruct (user_write_sends_differences
              (UserApi.Args Coordinator.op_write 1 0 [72; 105] ("A"%string, 9700)
                 ("B"%string, 9800))
              (initial_world [] [] []
                 (UserApi.slot_dials (replicate 10 (enc_i64 30, enc_i64 3))
                  ++ [OK_bytes; OK_bytes]))
              (replicate 10 (enc_i64 30, enc_i64 3)) OK_bytes OK_bytes [])
    as (e0 & e1 & w' & evs & E & _ & _ & _ & H).
  - intros n. reflexivity.
  - cbn [UserApi.idx UserApi.dim]. lia.
  - unfold UserApi.STR_SIZE. cbn [UserApi.dim]. lia.
  - reflexivity.
  - reflexivity.
  - reflexivity.
  - reflexivity.
  - match goal with
    | |- Forall _ ?l => let l' := eval vm_compute in l in change l with l'
    end.
    repeat constructor; lia.
  - exists e0, e1, w'. split; [exact E|]. rewrite H. vm_compute. reflexivity.
Defined.

(** ** More on the party service *)

(** X22.  An op byte that is neither WRITE nor READ is ignored: the
    party reads that one byte, sends nothing, closes the connection,
    leaves [A_share] as it was and goes on with the next connection. *)
Theorem unknown_op_is_ignored (cfg : Party.config) (k : nat) (op : Z) (rest : list byte)
    (ub : list (list byte)) (w : world) :
  quiet w -> user_backlog w = (enc_u8 op ++ rest) :: ub ->
  0 <= op < 256 -> op <> OP_WRITE_VEC -> op <> OP_READ_SECURE ->
  exists w1,
    Party.serve_loop (S k) cfg w = Party.serve_loop k cfg w1
    /\ A_share w1 = A_share w
    /\ user_backlog w1 = ub
    /\ log w1 = log w ++ [EvAccept user_ls (next_sock w);
                          EvRecv (next_sock w) (enc_u8 op);
                          EvClose (next_sock w)].
Proof.
  intros Q Hub Hop Hw Hr. destruct w as [mem t r n ib ub0 rb d f lg].
  unfold quiet in Q. cbn [fault user_backlog] in Q, Hub. subst ub0.
  eexists. split.
  - apply serve_bad_op_continues; assumption.
  - repeat split.
Qed.

Lemma unknown_op_is_ignored_witness :
  exists w1,
    Party.serve_loop 2 (Party.Config Party.RoleA 2 "B" 9801 "dealer" 9300)
      (initial_world [] [enc_u8 7 ++ [x01; x02]; request OP_WRITE_VEC [1; 2]] [] [])
    = Party.serve_loop 1 (Party.Config Party.RoleA 2 "B" 9801 "dealer" 9300) w1
    /\ user_backlog w1 = [request OP_WRITE_VEC [1; 2]].
Proof.
  destruct (unknown_op_is_ignored (Party.Config Party.RoleA 2 "B" 9801 "dealer" 9300) 1 7
              [x01; x02] [request OP_WRITE_VEC [1; 2]]
              (initial_world [] [enc_u8 7 ++ [x01; x02]; request OP_WRITE_VEC [1; 2]] [] []))
    as (w1 & E & _ & Hub & _).
  - intros n. reflexivity.
  - reflexivity.
  - lia.
  - discriminate.
  - discriminate.
  - exists w1. split; [exact E|exact Hub].
Defined.

(** X23.  A READ whose exchanges go through leaves no connection open.
    The five connections it opens -- to the dealer, and an outgoing and
    an incoming one for each of the two cross-terms -- are all closed
    before the reply is packed, and the user connection is closed by
    the [finally] clause, whether the reply fits 64 bits or not. *)
Theorem read_closes_every_connection (cfg : Party.config) (conn : sock) (w : world)
    (e : list Z) (sid : Z) (a_i b_i : list Z) (c_i : Z) (pe01 pe10 : list Z * list Z) :
  Party.read_setup cfg conn w e sid a_i b_i c_i pe01 pe10 ->
  exists res w' evs,
    try_finally (Party.handle cfg conn) (close conn) w = (res, w')
    /\ res <> Block
    /\ next_sock w' = (5 + next_sock w)%nat
    /\ log w' = log w ++ evs
    /\ is_closed conn evs = true
    /\ (forall s, (next_sock w <= s < 5 + next_sock w)%nat -> is_closed s evs = true).
Proof.
  intros (Q & Hrows & Hlt & Hmem & Fe & Hib & [d Hd] & [rb Hrb] & Hsid & La & Lb & Fa & Fb
          & Hc & L1 & L2 & L3 & L4 & F1 & F2 & F3 & F4 & P1 & P2 & P3 & P4 & Hfresh).
  destruct w as [mem t r n ib ub rb0 d0 f lg]. unfold quiet in Q.
  cbn [A_share inbox dials res_backlog fault log next_sock] in *. subst d0 rb0.
  destruct (handle_read_run f Q t r cfg conn mem e sid a_i b_i c_i pe01 pe10
              [] [] [] [] [] [] n ib ub rb d lg) as [ib' E]; auto.
  { now rewrite app_nil_r. }
  rewrite !app_nil_r in E.
  set (ex := Party.ev_read_exchanges cfg conn n mem e sid a_i b_i c_i pe01 pe10) in *.
  assert (Hex : forall s, (n <= s < 5 + n)%nat -> is_closed s ex = true).
  { intros s Hs. unfold ex, Party.ev_read_exchanges. rewrite !is_closed_app.
    destruct (is_closed_ev_dta_cross (Party.peer_host cfg) (Party.peer_port cfg) (S n) sid 1
                (Party.is_A (Party.cfg_role cfg))
                (Party.parts01 (Party.cfg_role cfg) mem e a_i b_i) pe01) as [C1 C2].
    destruct (is_closed_ev_dta_cross (Party.peer_host cfg) (Party.peer_port cfg)
                (S (S (S n))) sid 16 (Party.is_B (Party.cfg_role cfg))
                (Party.parts10 (Party.cfg_role cfg) mem e a_i b_i) pe10) as [C3 C4].
    assert (Hcases : s = n \/ s = S n \/ s = S (S n) \/ s = S (S (S n))
                     \/ s = S (S (S (S n)))) by lia.
    destruct Hcases as [->|[->|[->|[->| ->]]]].
    - rewrite is_closed_ev_fetch_share. now rewrite orb_true_r.
    - rewrite C1. now rewrite !orb_true_r.
    - rewrite C2. now rewrite !orb_true_r.
    - rewrite C3. now rewrite !orb_true_r.
    - rewrite C4. now rewrite !orb_true_r. }
  destruct (fits_i64 (Party.read_value (Party.cfg_role cfg) mem e a_i b_i c_i pe01 pe10)).
  - exists (Ok tt). eexists.
    exists (Party.ev_read cfg conn n mem e sid a_i b_i c_i pe01 pe10 ++ [EvClose conn]).
    split.
    { eapply try_finally_ok; [exact E|apply close_ok]. }
    split; [discriminate|]. split; [reflexivity|]. cbn [log].
    split; [now rewrite <- app_assoc|].
    split; [apply is_closed_last|].
    intros s Hs. unfold Party.ev_read. fold ex. rewrite !is_closed_app, Hex by exact Hs.
    reflexivity.
  - exists (Raise StructError). eexists. exists (ex ++ [EvClose conn]).
    split.
    { eapply try_finally_raise; [exact E|apply close_ok]. }
    split; [discriminate|]. split; [reflexivity|]. cbn [log].
    split; [now rewrite <- app_assoc|].
    split; [apply is_closed_last|].
    intros s Hs. rewrite is_closed_app, Hex by exact Hs. reflexivity.
Qed.

Lemma read_closes_every_connection_witness :
  exists res w',
    try_finally (Party.handle (Party.Config Party.RoleB 2 "A" 9701 "dealer" 9300) 0%nat)
                (close 0%nat)
      (World [7; 5] ∅ [] 1%nat {[0%nat := request OP_READ_SECURE [1; 0]]} []
             [Party.residual_frame 42 1 [6; 3] [-3; -4];
              Party.residual_frame 42 16 [0; 1] [2; 3]]
             [share_frame 2 42 [5; 6] [7; 8] 56; []; []]
             (fun _ => false) [])
    = (res, w')
    /\ next_sock w' = 6%nat.
Proof.
  destruct (read_closes_every_connection
              (Party.Config Party.RoleB 2 "A" 9701 "dealer" 9300) 0%nat
              (World [7; 5] ∅ [] 1%nat {[0%nat := request OP_READ_SECURE [1; 0]]} []
                     [Party.residual_frame 42 1 [6; 3] [-3; -4];
                      Party.residual_frame 42 16 [0; 1] [2; 3]]
                     [share_frame 2 42 [5; 6] [7; 8] 56; []; []]
                     (fun _ => false) [])
              [1; 0] 42 [5; 6] [7; 8] 56 ([6; 3], [-3; -4]) ([0; 1], [2; 3]))
    as (res & w' & evs & E & _ & Hn & _).
  - unfold Party.read_setup.
    cbn [quiet A_share inbox dials next_sock fault res_backlog log Party.rows Party.cfg_role
         fst snd].
    split; [intros n; reflexivity|].
    split; [reflexivity|]. split; [lia|]. split; [reflexivity|].
    split; [concrete_i64|]. split; [reflexivity|].
    split; [exists []; reflexivity|]. split; [exists []; reflexivity|].
    split; [concrete_i64|]. split; [reflexivity|]. split; [reflexivity|].
    split; [concrete_i64|]. split; [concrete_i64|]. split; [concrete_i64|].
    do 4 (split; [reflexivity|]).
    do 4 (split; [concrete_i64|]).
    split; [concrete_vec|]. split; [concrete_vec|].
    split; [concrete_vec|]. split; [concrete_vec|].
    lia.
  - exists res, w'. split; [exact E|exact Hn].
Defined.
